(** * tracktagger: a shallow embedding of [tracktagger.py]

    The development follows the source file top to bottom: the Python
    values it manipulates ([str], [int], [None], [pathlib.Path], ordered
    [dict]), the two manifest regular expressions, the manifest parser
    [parse_trackinfo_meta], the padding calculator [calc_padding], the
    track mapper [map_tracks], the cover resolver [map_covers], the output
    path generator [gen_output_path], the archive resolver
    [expand_archives_in_tree] and the sequential prefix of [main].

    Conventions.
    - Text is ASCII: [str] is [string]; [upper], [lower], [strip] and
      [isdigit] are the ASCII restrictions of the Python methods.
    - Exceptions are values of [exn]; a function that may raise returns a
      [result].
    - A [dict] is an association list in insertion order, which is the
      iteration order of a Python dict.
    - Integers are unbounded naturals ([N]); the limit CPython puts on
      the number of digits [int] accepts is not modelled.
    - The file system, the external programs and [Path.resolve] are
      parameters, gathered in the record [FileSystem]. *)

From Stdlib Require Import String Ascii List NArith Arith Bool Lia.
Import ListNotations.
Local Open Scope string_scope.
Local Open Scope list_scope.

Set Implicit Arguments.

(* ================================================================== *)
(** ** Exceptions and results *)

Module Py.

(** The exceptions the program can raise.  [RecursionError] is also the
    answer of a fuelled recursion that ran out of fuel. *)
Inductive exn : Type :=
| ValueError (msg : string)
| KeyError
| IndexError
| TypeError (msg : string)
| FileNotFoundError (msg : string)
| CalledProcessError
| OSError
| RecursionError.

Inductive result (A : Type) : Type :=
| Ok (a : A)
| Err (e : exn).
Arguments Ok {A} a.
Arguments Err {A} e.

Definition bind {A B : Type} (r : result A) (k : A -> result B) : result B :=
  match r with
  | Ok a => k a
  | Err e => Err e
  end.

Definition is_ok {A : Type} (r : result A) : bool :=
  match r with Ok _ => true | Err _ => false end.

(** [d[k]] on an [option] coming from a lookup: a miss is [KeyError]. *)
Definition subscript {A : Type} (o : option A) : result A :=
  match o with
  | Some a => Ok a
  | None => Err KeyError
  end.

End Py.
Export Py.

Declare Scope py_scope.
Delimit Scope py_scope with py.
Notation "x <- c ;; k" := (bind c (fun x => k))
  (at level 61, c at next level, right associativity) : py_scope.
Notation "' pat <- c ;; k" := (bind c (fun x => match x with pat => k end))
  (at level 61, pat pattern, c at next level, right associativity) : py_scope.
Local Open Scope py_scope.

(** A [for] loop whose body may raise: the state is threaded through the
    iterations and the first exception ends the loop. *)
Fixpoint for_each {A S : Type} (body : S -> A -> result S) (xs : list A) (s : S)
  : result S :=
  match xs with
  | [] => Ok s
  | x :: xs' => s' <- body s x ;; for_each body xs' s'
  end.

(* ================================================================== *)
(** ** Decidable equality of keys *)

Class EqDec (A : Type) := eq_dec : forall x y : A, {x = y} + {x <> y}.

#[export] Instance string_EqDec : EqDec string := string_dec.
#[export] Instance N_EqDec : EqDec N := N.eq_dec.
#[export] Instance option_EqDec {A : Type} `{EqDec A} : EqDec (option A).
Proof. intros x y. unfold EqDec in *. decide equality. Defined.
#[export] Instance list_EqDec {A : Type} `{EqDec A} : EqDec (list A).
Proof. intros x y. unfold EqDec in *. decide equality. Defined.
#[export] Instance prod_EqDec {A B : Type} `{EqDec A} `{EqDec B} : EqDec (A * B).
Proof. intros x y. unfold EqDec in *. decide equality. Defined.

Definition eqb_dec {A : Type} `{EqDec A} (x y : A) : bool :=
  if eq_dec x y then true else false.

(* ================================================================== *)
(** ** Ordered dictionaries *)

Section Dict.
Context {K V : Type} `{EqDec K}.

Definition dict := list (K * V).

(** [d.get(k)] *)
Fixpoint dget (k : K) (d : list (K * V)) : option V :=
  match d with
  | [] => None
  | (k', v) :: d' => if eq_dec k k' then Some v else dget k d'
  end.

(** [k in d] *)
Definition dmem (k : K) (d : list (K * V)) : bool :=
  match dget k d with Some _ => true | None => false end.

(** [d[k] = v]: an existing key keeps its position, a new key goes last. *)
Fixpoint dset (k : K) (v : V) (d : list (K * V)) : list (K * V) :=
  match d with
  | [] => [(k, v)]
  | (k', v') :: d' =>
      if eq_dec k k' then (k', v) :: d' else (k', v') :: dset k v d'
  end.

(** [del d[k]] for a key that is present. *)
Fixpoint ddel (k : K) (d : list (K * V)) : list (K * V) :=
  match d with
  | [] => []
  | (k', v') :: d' =>
      if eq_dec k k' then ddel k d' else (k', v') :: ddel k d'
  end.

Definition dkeys (d : list (K * V)) : list K := map fst d.
Definition dvalues (d : list (K * V)) : list V := map snd d.

End Dict.
Arguments dict K V : clear implicits.

(* ================================================================== *)
(** ** Text: the ASCII fragment of Python's [str] *)

Module Str.

Definition is_digit (c : ascii) : bool :=
  let n := nat_of_ascii c in (48 <=? n)%nat && (n <=? 57)%nat.

Definition is_upper (c : ascii) : bool :=
  let n := nat_of_ascii c in (65 <=? n)%nat && (n <=? 90)%nat.

Definition is_lower (c : ascii) : bool :=
  let n := nat_of_ascii c in (97 <=? n)%nat && (n <=? 122)%nat.

(** [[a-zA-Z]] *)
Definition is_alpha (c : ascii) : bool := is_upper c || is_lower c.

(** The characters [str.strip] removes, below code point 128. *)
Definition is_space (c : ascii) : bool :=
  let n := nat_of_ascii c in
  ((9 <=? n)%nat && (n <=? 13)%nat) || ((28 <=? n)%nat && (n <=? 32)%nat).

Definition newline : ascii := ascii_of_nat 10.

Definition upper_char (c : ascii) : ascii :=
  if is_lower c then ascii_of_nat (nat_of_ascii c - 32) else c.

Definition lower_char (c : ascii) : ascii :=
  if is_upper c then ascii_of_nat (nat_of_ascii c + 32) else c.

Fixpoint smap (f : ascii -> ascii) (s : string) : string :=
  match s with
  | EmptyString => EmptyString
  | String c s' => String (f c) (smap f s')
  end.

(** [s.upper()], [s.lower()] *)
Definition upper : string -> string := smap upper_char.
Definition lower : string -> string := smap lower_char.

Fixpoint forallb_str (p : ascii -> bool) (s : string) : bool :=
  match s with
  | EmptyString => true
  | String c s' => p c && forallb_str p s'
  end.

(** [s.isdigit()]: at least one character, all of them digits. *)
Definition isdigit (s : string) : bool :=
  match s with
  | EmptyString => false
  | _ => forallb_str is_digit s
  end.

(** [s.lstrip()] *)
Fixpoint lstrip (s : string) : string :=
  match s with
  | EmptyString => EmptyString
  | String c s' => if is_space c then lstrip s' else s
  end.

(** [s.rstrip()] *)
Fixpoint rstrip (s : string) : string :=
  match s with
  | EmptyString => EmptyString
  | String c s' =>
      match rstrip s' with
      | EmptyString => if is_space c then EmptyString else String c EmptyString
      | r => String c r
      end
  end.

(** [s.strip()] *)
Definition strip (s : string) : string := rstrip (lstrip s).

(** The longest prefix of characters satisfying [p], and the rest. *)
Fixpoint span (p : ascii -> bool) (s : string) : string * string :=
  match s with
  | EmptyString => (EmptyString, EmptyString)
  | String c s' =>
      if p c then let (a, b) := span p s' in (String c a, b)
      else (EmptyString, s)
  end.

(** [s.replace(a, b)] for single characters. *)
Definition replace_char (a b : ascii) : string -> string :=
  smap (fun c => if Ascii.eqb c a then b else c).

Definition digit_value (c : ascii) : N := N.of_nat (nat_of_ascii c - 48).

Fixpoint int_acc (acc : N) (s : string) : N :=
  match s with
  | EmptyString => acc
  | String c s' => int_acc (10 * acc + digit_value c) s'
  end.

(** [int(s)] for a string of decimal digits. *)
Definition int (s : string) : N := int_acc 0 s.

Definition digit_char (d : N) : ascii := ascii_of_nat (48 + N.to_nat d).

Fixpoint str_of_N_fuel (fuel : nat) (n : N) (acc : string) : string :=
  match fuel with
  | O => acc
  | S fuel' =>
      let acc' := String (digit_char (n mod 10)) acc in
      if (n <? 10)%N then acc' else str_of_N_fuel fuel' (n / 10) acc'
  end.

(** [str(n)] for a non-negative integer: its decimal numeral. *)
Definition str_of_N (n : N) : string :=
  str_of_N_fuel (S (N.to_nat (N.log2 n))) n EmptyString.

Fixpoint zeros (k : nat) : string :=
  match k with
  | O => EmptyString
  | S k' => String "0" (zeros k')
  end.

(** [s.zfill(width)]: zeros are inserted after a leading sign. *)
Definition zfill (width : nat) (s : string) : string :=
  let pad := zeros (width - String.length s) in
  match s with
  | String c s' =>
      if Ascii.eqb c "+" || Ascii.eqb c "-" then String c (pad ++ s')
      else pad ++ s
  | EmptyString => pad
  end.

(** [s.rfind(c)], with [None] for [-1]. *)
Fixpoint rfind (c : ascii) (s : string) : option nat :=
  match s with
  | EmptyString => None
  | String a s' =>
      match rfind c s' with
      | Some i => Some (S i)
      | None => if Ascii.eqb a c then Some O else None
      end
  end.

(** [s.split(c)] *)
Fixpoint split (c : ascii) (s : string) : list string :=
  match s with
  | EmptyString => [EmptyString]
  | String a s' =>
      match split c s' with
      | [] => [String a EmptyString]
      | w :: ws =>
          if Ascii.eqb a c then EmptyString :: w :: ws
          else String a w :: ws
      end
  end.

End Str.

(* ================================================================== *)
(** ** [pathlib.PurePosixPath]

    A path is the tuple [Path.parts]: the root (["/"], or ["//"] for
    exactly two leading slashes) first when the path is absolute, then the
    components.  [Path()] and [Path(".")] have no parts. *)

Definition path := list string.

Module PathLib.

Fixpoint count_slashes (s : string) : nat :=
  match s with
  | String "/" s' => S (count_slashes s')
  | _ => O
  end.

Definition is_component (s : string) : bool :=
  negb (String.eqb s "") && negb (String.eqb s ".").

(** [Path(s)] *)
Definition of_string (s : string) : path :=
  let comps := filter is_component (Str.split "/" s) in
  match count_slashes s with
  | O => comps
  | 2 => "//" :: comps
  | _ => "/" :: comps
  end.

Definition is_root (s : string) : bool :=
  match s with
  | String "/" _ => true
  | _ => false
  end.

(** [p.is_absolute()] *)
Definition is_absolute (p : path) : bool :=
  match p with
  | r :: _ => is_root r
  | [] => false
  end.

(** [p / q] *)
Definition join (p q : path) : path :=
  if is_absolute q then q else p ++ q.

(** [p.parent] *)
Definition parent (p : path) : path :=
  match p with
  | [r] => if is_root r then p else []
  | _ => removelast p
  end.

(** [p.name] *)
Definition name (p : path) : string :=
  match p with
  | [r] => if is_root r then "" else r
  | _ => last p ""
  end.

(** [p.suffix], as CPython 3.12 computes it: the part of the name from
    its last dot, when that dot is neither first nor last. *)
Definition suffix (p : path) : string :=
  let n := name p in
  match Str.rfind "." n with
  | Some i =>
      if (0 <? i)%nat && (i <? String.length n - 1)%nat
      then substring i (String.length n - i) n
      else ""
  | None => ""
  end.

End PathLib.

Infix "//" := PathLib.join (at level 40, left associativity).

(* ================================================================== *)
(** ** Constants and regular expressions of the module *)

Definition ARCHIVE_EXTS : list string := [".zip"; ".rar"; ".7z"].

Definition UNKNOWN_ALBUM_NAME : string := "UnknownAlbum".

Definition TRACKINFO_STANDARD_KEYS : list string :=
  ["INPUT"; "TITLE"; "ARTIST"; "LYRICIST"; "COMPOSER"; "ARRANGER"; "ALBUM";
   "DISCNUMBER"; "GENRE"; "DATE"; "LABEL"; "COMMENT"; "COVER"].

(** [x in xs] for a tuple of strings. *)
Definition str_in (x : string) (xs : list string) : bool :=
  existsb (String.eqb x) xs.

(** [.*] matches any run of characters other than a newline. *)
Definition dot_star (s : string) : bool :=
  Str.forallb_str (fun c => negb (Ascii.eqb c Str.newline)) s.

(** [TRACKINFO_RE.fullmatch(line)]: a run of letters (group 1), an
    optional bracketed run of digits (group 2), an equals sign and the
    rest of the line (group 3); the result holds the three groups.
    Group 1 is the whole run of leading letters, because what
    follows it must be ["["] or ["="]; likewise group 2 is the whole run of
    digits after the bracket, which a ["]"] must follow; the optional
    bracket cannot be skipped once a ["["] is there, since then ["="] is
    required at that place. *)
Definition TRACKINFO_RE (line : string)
  : option (string * option string * string) :=
  let (key, rest) := Str.span Str.is_alpha line in
  match key with
  | EmptyString => None
  | _ =>
      match rest with
      | String "[" r1 =>
          let (ds, r2) := Str.span Str.is_digit r1 in
          match ds, r2 with
          | String _ _, String "]" (String "=" v) =>
              if dot_star v then Some (key, Some ds, v) else None
          | _, _ => None
          end
      | String "=" v => if dot_star v then Some (key, None, v) else None
      | _ => None
      end
  end.

(** [INPUT_TRACKINFO_RE.fullmatch(line)]: the word INPUT in any case, an
    optional bracketed run of digits, an equals sign and the rest of the
    line, which is group 1 and the result. *)
Definition INPUT_TRACKINFO_RE (line : string) : option string :=
  if String.eqb (Str.upper (substring 0 5 line)) "INPUT" then
    match substring 5 (String.length line - 5) line with
    | String "[" r1 =>
        let (ds, r2) := Str.span Str.is_digit r1 in
        match ds, r2 with
        | String _ _, String "]" (String "=" v) =>
            if dot_star v then Some v else None
        | _, _ => None
        end
    | String "=" v => if dot_star v then Some v else None
    | _ => None
    end
  else None.

(** [".flac"] under [re.I], as the whole of [s]. *)
Definition is_dot_flac (s : string) : bool := String.eqb (Str.lower s) ".flac".

(** The tail of [TRACK_INPUT_RE] (anything, then the extension), matched
    against the whole of [s]: [s] ends with the extension and no newline
    comes before it. *)
Definition rest_matches (s : string) : bool :=
  let n := String.length s in
  (5 <=? n)%nat
  && is_dot_flac (substring (n - 5) 5 s)
  && dot_star (substring 0 (n - 5) s).

(** The digit group of [TRACK_INPUT_RE] and its tail at the start of [s],
    the group being tried from [k] digits down to one (greedy,
    backtracking). *)
Fixpoint digits_then_rest (k : nat) (s : string) : option string :=
  match k with
  | O => None
  | S k' =>
      if rest_matches (substring k (String.length s - k) s)
      then Some (substring 0 k s)
      else digits_then_rest k' s
  end.

(** [TRACK_INPUT_RE.fullmatch(name)]: a lazy prefix, a run of digits
    (group 1, the result), anything, and the extension in any case.  The
    lazy prefix grows one character at a time, never
    over a newline, until the rest of the pattern matches. *)
Fixpoint TRACK_INPUT_RE (name : string) : option string :=
  match name with
  | EmptyString => None
  | String c name' =>
      let here :=
        let (ds, _) := Str.span Str.is_digit name in
        digits_then_rest (String.length ds) name in
      match here with
      | Some g => Some g
      | None =>
          if Ascii.eqb c Str.newline then None else TRACK_INPUT_RE name'
      end
  end.

(* ================================================================== *)
(** ** The data model *)

(** What a record stores under a field: [None], a [str], an [int] or a
    [Path]. *)
Inductive value : Type :=
| VNone
| VStr (s : string)
| VInt (n : N)
| VPath (p : path).

#[export] Instance value_EqDec : EqDec value.
Proof.
  intros x y. unfold EqDec.
  decide equality; first [apply string_dec | apply N.eq_dec | apply (list_eq_dec string_dec)].
Defined.

(** A metadata scope: field name to value. *)
Definition record := dict string value.

(** AlbumKey and DiscKey; [None] is Python's [None]. *)
Definition album_key := option string.
Definition disc_key := option N.

(** TrackInfoTree: album to disc to track number to record. *)
Definition tracks_of := dict N record.
Definition discs_of := dict disc_key tracks_of.
Definition tree := dict album_key discs_of.

(** [info[album][disc][num]], when all three keys are there. *)
Definition tree_get (a : album_key) (d : disc_key) (n : N) (t : tree)
  : option record :=
  match dget a t with
  | Some discs =>
      match dget d discs with
      | Some tracks => dget n tracks
      | None => None
      end
  | None => None
  end.

Definition or_empty {K V : Type} (o : option (dict K V)) : dict K V :=
  match o with
  | Some d => d
  | None => []
  end.

(** Store [r] at [info[album][disc][num]], creating the intermediate
    dictionaries the way the chain of [setdefault] calls does. *)
Definition tree_set (a : album_key) (d : disc_key) (n : N) (r : record)
  (t : tree) : tree :=
  let discs := or_empty (dget a t) in
  let tracks := or_empty (dget d discs) in
  dset a (dset d (dset n r tracks) discs) t.

(** All the leaves with their keys, in iteration order. *)
Definition leaves (t : tree) : list (album_key * disc_key * N * record) :=
  flat_map (fun ad : album_key * discs_of =>
    flat_map (fun dt : disc_key * tracks_of =>
      map (fun nr : N * record => (fst ad, fst dt, fst nr, snd nr)) (snd dt))
      (snd ad)) t.

(** The album key held in a record field.  The parser stores only [None]
    or a [str] under [ALBUM]. *)
Definition album_of_value (v : value) : result album_key :=
  match v with
  | VNone => Ok None
  | VStr s => Ok (Some s)
  | _ => Err (TypeError "album")
  end.

(** The disc key held in a record field.  The parser stores only [None]
    or an [int] under [DISCNUMBER]. *)
Definition disc_of_value (v : value) : result disc_key :=
  match v with
  | VNone => Ok None
  | VInt n => Ok (Some n)
  | _ => Err (TypeError "disc")
  end.

(* ================================================================== *)
(** ** Manifest parser: [parse_trackinfo_meta] *)

(** The two local dictionaries of the function and what it printed. *)
Record pstate : Type := mk_pstate {
  track_meta : tree;
  global_meta : record;
  printed : list string
}.

(** Which dictionary [dst_dict] refers to: [global_meta] itself, or the
    record of one track inside [track_meta]. *)
Inductive dst : Type :=
| DGlobal
| DTrack (a : album_key) (d : disc_key) (n : N).

Definition initial_global : record := [("ALBUM", VNone); ("DISCNUMBER", VNone)].

Definition initial_pstate : pstate := mk_pstate [] initial_global [].

Section Parser.

(** [Path.resolve] on the file system of the run, the manifest path and
    the InputResolutionMap. *)
Variable resolve : path -> path.
Variable trackinfo_path : path.
Variable input_map : dict path path.

Definition discnumber_error (v : string) : exn :=
  ValueError ("DISCNUMBER ('" ++ v ++ "') must be an integer").

(** [global_meta | {'TRACKNUMBER': track_num}] *)
Definition new_track_record (g : record) (track_num : N) : record :=
  dset "TRACKNUMBER" (VInt track_num) g.

(** The first [match key] of a track line: the album and disc under which
    the track is filed. *)
Definition track_location (g : record) (key value : string)
  : result (album_key * disc_key) :=
  if String.eqb key "ALBUM" then
    dv <- subscript (dget "DISCNUMBER" g) ;;
    disc <- disc_of_value dv ;;
    Ok (Some value, disc)
  else if String.eqb key "DISCNUMBER" then
    av <- subscript (dget "ALBUM" g) ;;
    album <- album_of_value av ;;
    if negb (Str.isdigit value) then Err (discnumber_error value)
    else Ok (album, Some (Str.int value))
  else
    av <- subscript (dget "ALBUM" g) ;;
    album <- album_of_value av ;;
    dv <- subscript (dget "DISCNUMBER" g) ;;
    disc <- disc_of_value dv ;;
    Ok (album, disc).

(** The second [match key]: the assignment into [dst_dict]. *)
Definition assign (key value : string) (r : record) : result record :=
  if String.eqb key "INPUT" then
    p <- subscript
           (dget (resolve (PathLib.parent trackinfo_path // PathLib.of_string value))
                 input_map) ;;
    Ok (dset "INPUT" (VPath p) r)
  else if String.eqb key "COVER" then
    let v := PathLib.of_string value in
    if PathLib.is_absolute v then Ok (dset "COVER" (VPath v) r)
    else
      match dget "INPUT" r with
      | Some (VPath i) => Ok (dset "COVER" (VPath (resolve (i // v))) r)
      | Some _ => Err (TypeError "INPUT")
      | None =>
          Ok (dset "COVER" (VPath (resolve (PathLib.parent trackinfo_path // v))) r)
      end
  else if String.eqb key "DISCNUMBER" then
    if negb (Str.isdigit value) then Err (discnumber_error value)
    else Ok (dset "DISCNUMBER" (VInt (Str.int value)) r)
  else Ok (dset key (VStr value) r).

(** "Set key-value": the deletion test, then the assignment. *)
Definition set_key_value (key value : string) (r : record) : result record :=
  if (String.length value =? 0)%nat && dmem key r then Ok (ddel key r)
  else assign key value r.

(** "Select track dict" or "Select global dict": what [dst_dict] refers
    to for a line with groups [g2] (the index, if any), key and value. *)
Definition select_dst (g : record) (key value : string) (g2 : option string)
  : result dst :=
  match g2 with
  | Some idx =>
      '(album, disc) <- track_location g key value ;;
      Ok (DTrack album disc (Str.int idx))
  | None => Ok DGlobal
  end.


(** The record [dst_dict] is bound to: for a track, the one the chain of
    [setdefault] calls returns, which is the stored record or else the
    fresh copy of [global_meta] with its [TRACKNUMBER]. *)
Definition dst_record (st : pstate) (d : dst) : record :=
  match d with
  | DGlobal => global_meta st
  | DTrack a dk n =>
      match tree_get a dk n (track_meta st) with
      | Some r => r
      | None => new_track_record (global_meta st) n
      end
  end.

(** The state once [dst_dict] holds [r]: [dst_dict] aliases the record
    in place, so the update is written where the record lives. *)
Definition write_dst (st : pstate) (d : dst) (r : record) (out : list string)
  : pstate :=
  match d with
  | DGlobal => mk_pstate (track_meta st) r out
  | DTrack a dk n => mk_pstate (tree_set a dk n r (track_meta st)) (global_meta st) out
  end.

(** One iteration of the loop over the lines of the file. *)
Definition process_line (st : pstate) (raw : string) : result pstate :=
  let line := Str.rstrip raw in
  if (String.length line =? 0)%nat then Ok st
  else
    match TRACKINFO_RE line with
    | None => Err (ValueError ("'" ++ line ++ "' is not a valid trackinfo line"))
    | Some (g1, g2, g3) =>
        let key := Str.upper g1 in
        let value := Str.strip g3 in
        let out :=
          if str_in key TRACKINFO_STANDARD_KEYS then printed st
          else printed st ++ [("WARNING: '" ++ key ++ "' is not a standard key.")%string] in
        d <- select_dst (global_meta st) key value g2 ;;
        r <- set_key_value key value (dst_record st d) ;;
        Ok (write_dst st d r out)
    end.

Definition parse_lines (lines : list string) (st : pstate) : result pstate :=
  for_each process_line lines st.

(** [parse_trackinfo_meta(path, input_map)], the file at [path] holding
    the given lines. *)
Definition parse_trackinfo_meta (lines : list string) : result tree :=
  st <- parse_lines lines initial_pstate ;;
  Ok (track_meta st).

End Parser.

(* ================================================================== *)
(** ** Padding calculator: [calc_padding] *)

(** [max(xs)]: [ValueError] on an empty sequence. *)
Definition py_max (xs : list N) : result N :=
  match xs with
  | [] => Err (ValueError "max() arg is an empty sequence")
  | x :: xs' => Ok (fold_left N.max xs' x)
  end.

Fixpoint floor_log10_fuel (fuel : nat) (n : N) : N :=
  match fuel with
  | O => 0
  | S fuel' => if (n <? 10)%N then 0%N else (1 + floor_log10_fuel fuel' (n / 10))%N
  end.

(** [math.floor(math.log10(n))].  [math.log10(0)] raises [ValueError];
    for [n >= 1] the model takes the exact logarithm, the rounding of the
    floating-point one being outside the embedding: the two agree below
    999999999999998, from where on [math.log10] rounds up to the next
    integer and the code's result is one more than the model's. *)
Definition floor_log10 (n : N) : result N :=
  if (n =? 0)%N then Err (ValueError "math domain error")
  else Ok (floor_log10_fuel (S (N.to_nat (N.log2 n))) n).

(** [math.floor(math.log10(max(xs))) + 1] *)
Definition width_of_max (xs : list N) : result N :=
  m <- py_max xs ;;
  l <- floor_log10 m ;;
  Ok (l + 1)%N.

(** [[v for v in discs.keys() if v is not None]] *)
Definition discs_no_none (discs : discs_of) : list N :=
  flat_map (fun k : disc_key => match k with Some n => [n] | None => [] end)
           (dkeys discs).

Definition disc_padding_t := dict album_key N.
Definition track_padding_t := dict album_key (dict disc_key N).

(** The inner loop: [track_ret[album][disc]] for every disc of an album. *)
Definition calc_track_padding (discs : discs_of) : result (dict disc_key N) :=
  for_each (fun (acc : dict disc_key N) (dt : disc_key * tracks_of) =>
              w <- width_of_max (dkeys (snd dt)) ;;
              Ok (dset (fst dt) w acc))
           discs [].

Definition calc_padding_album (acc : disc_padding_t * track_padding_t)
  (ad : album_key * discs_of) : result (disc_padding_t * track_padding_t) :=
  let (album, discs) := ad in
  let (disc_ret, track_ret) := acc in
  dw <- (match discs_no_none discs with
         | [] => Ok 0%N
         | ds => width_of_max ds
         end) ;;
  tw <- calc_track_padding discs ;;
  Ok (dset album dw disc_ret, dset album tw track_ret).

Definition calc_padding (info : tree)
  : result (disc_padding_t * track_padding_t) :=
  for_each calc_padding_album info ([], []).

(* ================================================================== *)
(** ** Track identifiers: [track_id_to_string] *)

(** [f"{n:0{width}d}"] for a non-negative integer. *)
Definition format_0d (width : N) (n : N) : string :=
  Str.zfill (N.to_nat width) (Str.str_of_N n).

Definition quote : string := String (ascii_of_nat 34) EmptyString.

(** The truth value of an album key: a non-empty name. *)
Definition album_truthy (album : album_key) : bool :=
  match album with
  | Some s => negb (String.eqb s "")
  | None => false
  end.

(** The truth value of a disc key: a non-zero number. *)
Definition disc_truthy (disc : disc_key) : bool :=
  match disc with
  | Some n => negb (n =? 0)%N
  | None => false
  end.

Definition track_id_to_string (album : album_key) (disc : disc_key) (num : N)
  (disc_padding track_padding : N) : string :=
  let album_str :=
    if album_truthy album
    then (quote ++ match album with Some s => s | None => "" end ++ quote ++ ":")%string
    else "" in
  let disc_str :=
    if disc_truthy disc
    then (format_0d disc_padding match disc with Some n => n | None => 0%N end
          ++ ".")%string
    else "" in
  (album_str ++ "#" ++ disc_str ++ format_0d track_padding num)%string.

(* ================================================================== *)
(** ** Track mapper: [map_tracks] *)

Section TrackMapper.

(** [Path.iterdir] on the file system of the run. *)
Variable iterdir : path -> result (list path).

(** The inner [for f in ...] with its [break]: the name of the first
    entry that matches, if any. *)
Fixpoint find_track_file (num : N) (entries : list path) : option string :=
  match entries with
  | [] => None
  | f :: rest =>
      match TRACK_INPUT_RE (PathLib.name f) with
      | Some g =>
          if (Str.int g =? num)%N then Some (PathLib.name f)
          else find_track_file num rest
      | None => find_track_file num rest
      end
  end.

(** The body of the loop over the tracks of a disc. *)
Definition map_one_track (album : album_key) (disc : disc_key)
  (acc : dict N string) (nt : N * record) : result (dict N string) :=
  let (num, tags) := nt in
  iv <- subscript (dget "INPUT" tags) ;;
  match iv with
  | VPath dir =>
      entries <- iterdir dir ;;
      match find_track_file num entries with
      | Some name => Ok (dset num name acc)
      | None =>
          Err (FileNotFoundError
                 ("Could not find file for track "
                  ++ track_id_to_string album disc num 0 0))
      end
  | _ => Err (TypeError "INPUT")
  end.

Definition map_one_disc (album : album_key)
  (acc : dict disc_key (dict N string)) (dt : disc_key * tracks_of)
  : result (dict disc_key (dict N string)) :=
  m <- for_each (map_one_track album (fst dt)) (snd dt) [] ;;
  Ok (dset (fst dt) m acc).

Definition map_one_album (acc : dict album_key (dict disc_key (dict N string)))
  (ad : album_key * discs_of)
  : result (dict album_key (dict disc_key (dict N string))) :=
  m <- for_each (map_one_disc (fst ad)) (snd ad) [] ;;
  Ok (dset (fst ad) m acc).

Definition map_tracks (info : tree)
  : result (dict album_key (dict disc_key (dict N string))) :=
  for_each map_one_album info [].

End TrackMapper.

(* ================================================================== *)
(** ** Output path generator: [gen_output_path] *)

(** [str(v)] *)
Definition py_str (v : value) : string :=
  match v with
  | VNone => "None"
  | VStr s => s
  | VInt n => Str.str_of_N n
  | VPath p =>
      match p with
      | [] => "."
      | r :: rest =>
          if PathLib.is_root r then (r ++ String.concat "/" rest)%string
          else String.concat "/" p
      end
  end.

(** A field used as a [str] operand of [+]. *)
Definition as_str (v : value) : result string :=
  match v with
  | VStr s => Ok s
  | _ => Err (TypeError "can only concatenate str")
  end.

Section OutputPath.

(** The filename sanitizer [truncate_filename], which no property below
    looks into. *)
Variable truncate_filename : string -> result path.

(** The value of the local [filename] when the function reaches its
    [return]. *)
Definition gen_filename (tags : record) (disc_padding track_padding : N)
  : result string :=
  dv <- subscript (dget "DISCNUMBER" tags) ;;
  let f1 :=
    match dv with
    | VNone => ""
    | _ => (Str.zfill (N.to_nat disc_padding) (py_str dv) ++ ".")%string
    end in
  tv <- subscript (dget "TRACKNUMBER" tags) ;;
  let f2 := (f1 ++ Str.zfill (N.to_nat track_padding) (py_str tv))%string in
  if dmem "TITLE" tags && dmem "ARTIST" tags then
    a <- (v <- subscript (dget "ARTIST" tags) ;; as_str v) ;;
    t <- (v <- subscript (dget "TITLE" tags) ;; as_str v) ;;
    Ok (f2 ++ ". " ++ a ++ " - " ++ t)%string
  else if dmem "TITLE" tags then
    t <- (v <- subscript (dget "TITLE" tags) ;; as_str v) ;;
    Ok (f2 ++ ". " ++ t)%string
  else if dmem "ARTIST" tags then
    a <- (v <- subscript (dget "ARTIST" tags) ;; as_str v) ;;
    Ok (f2 ++ ". " ++ a)%string
  else Ok f2.

Definition gen_output_path (tags : record) (out_dir : path)
  (disc_padding track_padding : N) : result path :=
  av <- subscript (dget "ALBUM" tags) ;;
  album_dir <- (match av with
                | VNone => Ok UNKNOWN_ALBUM_NAME
                | VStr s => Ok (Str.replace_char "/" "_" s)
                | _ => Err (TypeError "replace")
                end) ;;
  filename <- gen_filename tags disc_padding track_padding ;;
  file <- truncate_filename (Str.replace_char "/" "_" filename ++ ".flac") ;;
  Ok (out_dir // PathLib.of_string album_dir // file).

End OutputPath.

(* ================================================================== *)
(** ** The file system and the external programs

    [W] is the state of the world the run acts on.  Queries read it;
    the operations that create directories and files or run a program
    return the world they leave behind. *)

Record FileSystem (W : Type) : Type := mk_fs {
  (** [p.resolve()] *)
  fs_resolve : W -> path -> path;
  (** [p.is_file()], [p.is_dir()] *)
  fs_is_file : W -> path -> bool;
  fs_is_dir : W -> path -> bool;
  (** [list(p.iterdir())] *)
  fs_iterdir : W -> path -> result (list path);
  (** [tempfile.mkdtemp(dir=d)]: the fresh directory *)
  fs_mkdtemp : W -> path -> result (path * W);
  (** running the extractor of the given extension on an archive, into a
      container directory; a non-zero exit is [CalledProcessError] *)
  fs_extract : W -> string -> path -> path -> result W;
  (** [p.mkdir()] *)
  fs_mkdir : W -> path -> result W;
  (** [tempfile.NamedTemporaryFile(dir=d, delete=False)]: its name *)
  fs_mktemp_file : W -> path -> result (path * W);
  (** running the picture extractor on a source file with its output
      sent to the given file: the exit status *)
  fs_export_picture : W -> path -> path -> result (N * W)
}.

(** A Python [set] of paths, iterated in the order of first insertion. *)
Definition set_add (x : path) (s : list path) : list path :=
  if existsb (eqb_dec x) s then s else s ++ [x].

Definition set_remove (x : path) (s : list path) : list path :=
  filter (fun y => negb (eqb_dec x y)) s.

Definition set_mem (x : path) (s : list path) : bool := existsb (eqb_dec x) s.

(* ================================================================== *)
(** ** Cover resolver: [map_covers] *)

Section Covers.
Context {W : Type} (fs : FileSystem W).

(** The first loop: identity entries of [ret] and [extract_cover_set]. *)
Definition collect_cover (acc : dict path path * list path) (tags : record)
  : result (dict path path * list path) :=
  let (ret, extract_cover_set) := acc in
  match dget "COVER" tags with
  | Some (VPath c) =>
      if String.eqb (Str.lower (PathLib.suffix c)) ".flac"
      then Ok (ret, set_add c extract_cover_set)
      else Ok (dset c c ret, extract_cover_set)
  | Some _ => Err (TypeError "COVER")
  | None => Ok acc
  end.

Definition all_tags (info : tree) : list record :=
  flat_map (fun discs : discs_of => flat_map (fun tracks : tracks_of => dvalues tracks)
                                             (dvalues discs))
           (dvalues info).

(** The state of the second loop: [ret], what went to standard error,
    and the world. *)
Definition cover_state : Type := dict path path * list string * W.

(** What the [except] clause prints to standard error. *)
Definition cover_error_message (flac_cover : path) : string :=
  ("ERROR: Could not extract cover art from '" ++ py_str (VPath flac_cover) ++ "'!")%string.

(** The body of the second loop, for one member of [extract_cover_set]. *)
Definition extract_cover (cover_dir : path) (st : cover_state) (flac_cover : path)
  : result cover_state :=
  let '(ret, err, w) := st in
  '(cover_file, w1) <- fs_mktemp_file fs w cover_dir ;;
  '(status, w2) <- fs_export_picture fs w1 flac_cover cover_file ;;
  let err' :=
    if (status =? 0)%N then err
    else err ++ [cover_error_message flac_cover] in
  Ok (dset flac_cover cover_file ret, err', w2).

Definition map_covers (w : W) (info : tree) (tmp_dir : path)
  : result cover_state :=
  '(ret, extract_cover_set) <- for_each collect_cover (all_tags info) ([], []) ;;
  let cover_dir := tmp_dir // ["covers"] in
  w1 <- (match extract_cover_set with
         | [] => Ok w
         | _ => fs_mkdir fs w cover_dir
         end) ;;
  for_each (extract_cover cover_dir) extract_cover_set (ret, [], w1).

End Covers.

(* ================================================================== *)
(** ** Archive resolver: [expand_archive], [expand_archives_in_tree] *)

Section Archives.
Context {W : Type} (fs : FileSystem W).

Definition expand_archive (w : W) (p out_dir : path) : result (path * W) :=
  let ext := Str.lower (PathLib.suffix p) in
  if str_in ext ARCHIVE_EXTS then
    '(container_dir, w1) <- fs_mkdtemp fs w out_dir ;;
    w2 <- fs_extract fs w1 ext p container_dir ;;
    Ok (container_dir, w2)
  else Err (TypeError ("Unknown archive format '" ++ PathLib.suffix p ++ "'")).

(** The first loop: group the paths by their first part. *)
Definition add_node (nodes : dict path (list path)) (p : path)
  : result (dict path (list path)) :=
  match p with
  | [] => Err IndexError
  | h :: t =>
      let tails := match dget [h] nodes with Some s => s | None => [] end in
      Ok (dset [h] (set_add t tails) nodes)
  end.

(** The effective root of one node: the second loop's body. *)
Definition expand_node (tmp_dir parent : path)
  (acc : list (path * path * list path) * W) (ht : path * list path)
  : result (list (path * path * list path) * W) :=
  let (new_nodes, w) := acc in
  let (head, tails) := ht in
  let stub := parent // head in
  if fs_is_file fs w stub && str_in (Str.lower (PathLib.suffix stub)) ARCHIVE_EXTS
  then
    '(archive_path, w1) <- expand_archive w stub tmp_dir ;;
    archive_files <- fs_iterdir fs w1 archive_path ;;
    match archive_files with
    | [only] =>
        if fs_is_dir fs w1 only
        then Ok (new_nodes ++ [(stub, only, tails)], w1)
        else Ok (new_nodes ++ [(stub, archive_path, tails)], w1)
    | _ => Ok (new_nodes ++ [(stub, archive_path, tails)], w1)
    end
  else Ok (new_nodes ++ [(stub, stub, tails)], w).

(** [stub.parts[-1]] *)
Definition last_part (stub : path) : result string :=
  match stub with
  | [] => Err IndexError
  | _ => Ok (last stub "")
  end.

(** The third loop's body: the entry for a path that ends at this node,
    and the entries the recursive call returns for the longer ones.
    [recurse] is the function itself, called on the remaining tails with
    the node's real path as parent. *)
Definition assemble_node
  (recurse : W -> list path -> path -> result (dict path path * W))
  (acc : dict path path * W) (node : path * path * list path)
  : result (dict path path * W) :=
  let (ret, w) := acc in
  let '(stub, real_path, tails) := node in
  ret1 <- (if set_mem [] tails
           then l <- last_part stub ;; Ok (dset [l] real_path ret)
           else Ok ret) ;;
  let tails1 := if set_mem [] tails then set_remove [] tails else tails in
  match tails1 with
  | [] => Ok (ret1, w)
  | _ =>
      '(sub, w1) <- recurse w tails1 real_path ;;
      l <- last_part stub ;;
      Ok (fold_left (fun r (bm : path * path) => dset ([l] // fst bm) (snd bm) r)
                    sub ret1, w1)
  end.

Fixpoint expand_archives_in_tree_fuel (fuel : nat) (w : W)
  (paths : list path) (tmp_dir parent : path) {struct fuel}
  : result (dict path path * W) :=
  match fuel with
  | O => Err RecursionError
  | S fuel' =>
      nodes <- for_each add_node paths [] ;;
      '(new_nodes, w1) <- for_each (expand_node tmp_dir parent) nodes ([], w) ;;
      for_each
        (assemble_node
           (fun w2 tails real_path =>
              expand_archives_in_tree_fuel fuel' w2 tails tmp_dir real_path))
        new_nodes ([], w1)
  end.

(** The longest path decides how deep the recursion goes. *)
Definition depth (paths : list path) : nat :=
  fold_right (fun p m => Nat.max (List.length p) m) O paths.

Definition expand_archives_in_tree (w : W) (paths : list path)
  (tmp_dir parent : path) : result (dict path path * W) :=
  expand_archives_in_tree_fuel (S (depth paths)) w paths tmp_dir parent.

(** [resolve_trackinfo_inputs(path, tmp_dir)], the file holding [lines]. *)
Definition declared_inputs (w : W) (trackinfo_path : path) (lines : list string)
  : list path :=
  fold_left
    (fun inputs line =>
       match INPUT_TRACKINFO_RE (Str.rstrip line) with
       | Some g =>
           let p := PathLib.of_string g in
           if PathLib.is_absolute p then set_add (fs_resolve fs w p) inputs
           else set_add (fs_resolve fs w (PathLib.parent trackinfo_path // p)) inputs
       | None => inputs
       end)
    lines [].

Definition resolve_trackinfo_inputs (w : W) (trackinfo_path : path)
  (lines : list string) (tmp_dir : path) : result (dict path path * W) :=
  expand_archives_in_tree w (declared_inputs w trackinfo_path lines) tmp_dir [].

End Archives.

(* ================================================================== *)
(** ** The sequential part of [main] *)

Section Main.
Context {W : Type} (fs : FileSystem W).

(** What the sequential part hands to the pipeline. *)
Record prepared : Type := mk_prepared {
  p_info : tree;
  p_disc_padding : disc_padding_t;
  p_track_padding : track_padding_t;
  p_track_map : dict album_key (dict disc_key (dict N string));
  p_cover_map : dict path path;
  p_errors : list string
}.

(** [main] from the creation of the work directory [work_path] up to
    [map_covers].  The answer pairs the world left by the last step that
    completed with the outcome. *)
Definition main (w : W) (trackinfo_path work_path : path) (lines : list string)
  : W * result prepared :=
  match resolve_trackinfo_inputs fs w trackinfo_path lines work_path with
  | Err e => (w, Err e)
  | Ok (input_map, w1) =>
      match parse_trackinfo_meta (fs_resolve fs w1) trackinfo_path input_map lines with
      | Err e => (w1, Err e)
      | Ok info =>
          match calc_padding info with
          | Err e => (w1, Err e)
          | Ok (disc_padding, track_padding) =>
              match map_tracks (fs_iterdir fs w1) info with
              | Err e => (w1, Err e)
              | Ok track_map =>
                  match map_covers fs w1 info work_path with
                  | Err e => (w1, Err e)
                  | Ok (cover_map, errors, w2) =>
                      (w2, Ok (mk_prepared info disc_padding track_padding
                                           track_map cover_map errors))
                  end
              end
          end
      end
  end.

End Main.

(* ================================================================== *)
(** ** Vocabulary of the properties *)

(** A line that the parser does not treat as a track line: it has no
    bracketed index (or is blank, or is not a manifest line at all). *)
Definition not_indexed (raw : string) : bool :=
  match TRACKINFO_RE (Str.rstrip raw) with
  | Some (_, Some _, _) => false
  | _ => true
  end.

(** No track line of the manifest has the given key. *)
Definition no_track_key (key : string) (lines : list string) : bool :=
  forallb (fun raw =>
             match TRACKINFO_RE (Str.rstrip raw) with
             | Some (g1, Some _, _) => negb (String.eqb (Str.upper g1) key)
             | _ => true
             end) lines.

(** A record's [INPUT], when it has one, is a directory the
    InputResolutionMap resolves some declared path to. *)
Definition input_resolved (input_map : dict path path) (r : record) : Prop :=
  forall v, dget "INPUT" r = Some v ->
  exists k p, v = VPath p /\ dget k input_map = Some p.


(* ================================================================== *)
(** ** The filename as the specification words it *)

(** A field read as text: its string when the record holds one. *)
Definition field_str (tags : record) (k : string) : option string :=
  match dget k tags with
  | Some (VStr s) => Some s
  | _ => None
  end.

(** A field that is absent or holds a [str]. *)
Definition text_or_absent (tags : record) (k : string) : bool :=
  match dget k tags with
  | Some (VStr _) | None => true
  | Some _ => false
  end.

(** A value an [ALBUM] field can hold: [None] or a [str]. *)
Definition album_value (v : value) : bool :=
  match v with
  | VNone | VStr _ => true
  | _ => false
  end.

(** Padded disc number and a dot when a disc is present, the padded
    track number, then artist and title as far as they are present. *)
Definition spec_filename (disc track : value) (title artist : option string)
  (disc_padding track_padding : N) : string :=
  ((match disc with
    | VNone => ""
    | _ => Str.zfill (N.to_nat disc_padding) (py_str disc) ++ "."
    end)
   ++ Str.zfill (N.to_nat track_padding) (py_str track)
   ++ match title, artist with
      | Some t, Some a => ". " ++ a ++ " - " ++ t
      | Some t, None => ". " ++ t
      | None, Some a => ". " ++ a
      | None, None => ""
      end)%string.

(** The album directory: the fixed name for an absent album, else the
    album name with its separators replaced. *)
Definition spec_album_dir (album : value) : string :=
  match album with
  | VStr s => Str.replace_char "/" "_" s
  | _ => UNKNOWN_ALBUM_NAME
  end.

(** What the parser's loop keeps true: resolved inputs everywhere, and
    every leaf carrying its own number as long as [keep] says so. *)
Definition tree_invariant (input_map : dict path path) (keep : bool)
  (st : pstate) : Prop :=
  input_resolved input_map (global_meta st)
  /\ forall a d n r, tree_get a d n (track_meta st) = Some r ->
       input_resolved input_map r
       /\ (keep = true -> dget "TRACKNUMBER" r = Some (VInt n)).

(** A line that assigns [DISCNUMBER] a value that is neither empty nor
    a run of digits. *)
Definition bad_discnumber_line (raw : string) : bool :=
  match TRACKINFO_RE (Str.rstrip raw) with
  | Some (g1, _, g3) =>
      String.eqb (Str.upper g1) "DISCNUMBER"
      && negb (String.eqb (Str.strip g3) "")
      && negb (Str.isdigit (Str.strip g3))
  | None => false
  end.


Section CoverSpec.
Context {W : Type} (fs : FileSystem W).



End CoverSpec.

Section ArchiveSpec.
Context {W : Type} (fs : FileSystem W).
Variable tmp_dir : path.

(** The effective root of a path segment as the specification words it:
    for a segment naming an archive, the sole entry of the extraction
    result when there is exactly one and it is a directory, else the
    extraction root; for any other segment, the segment itself. *)
Definition effective_root (w : W) (stub : path) : result (path * W) :=
  if fs_is_file fs w stub && str_in (Str.lower (PathLib.suffix stub)) ARCHIVE_EXTS
  then
    '(container, w1) <- expand_archive fs w stub tmp_dir ;;
    entries <- fs_iterdir fs w1 container ;;
    if (List.length entries =? 1)%nat && fs_is_dir fs w1 (hd [] entries)
    then Ok (hd [] entries, w1)
    else Ok (container, w1)
  else Ok (stub, w).

(** One declared path, walked segment by segment from [parent]: each
    segment is replaced by its effective root, under which the remaining
    segments are looked for; with no segment left, the directory reached
    is the answer. *)
Fixpoint walk (w : W) (parent : path) (p : path) : result (path * W) :=
  match p with
  | [] => Ok (parent, w)
  | h :: rest =>
      '(root, w1) <- effective_root w (parent // [h]) ;;
      walk w1 root rest
  end.

End ArchiveSpec.

(** The first exception a sequence of checks meets, in order. *)
Fixpoint first_error {A : Type} (chk : A -> option exn) (xs : list A)
  : option exn :=
  match xs with
  | [] => None
  | x :: xs' =>
      match chk x with
      | Some e => Some e
      | None => first_error chk xs'
      end
  end.

(** The exception [map_tracks] raises at one leaf, if it raises there. *)
Definition leaf_error (iterdir : path -> result (list path))
  (leaf : album_key * disc_key * N * record) : option exn :=
  let '(a, d, n, tags) := leaf in
  match map_one_track iterdir a d [] (n, tags) with
  | Ok _ => None
  | Err e => Some e
  end.

(** A track identifier without any padding: the quoted album and a
    colon when the album is truthy, a hash, the disc number and a dot
    when the disc is truthy, the track number. *)
Definition plain_track_id (album : album_key) (disc : disc_key) (num : N)
  : string :=
  ((match album with
    | Some s => if String.eqb s "" then "" else quote ++ s ++ quote ++ ":"
    | None => ""
    end)
   ++ "#"
   ++ (match disc with
       | Some n => if (n =? 0)%N then "" else Str.str_of_N n ++ "."
       | None => ""
       end)
   ++ Str.str_of_N num)%string.

(** The number of decimal digits of [n]: what the specification calls
    its digit count, 1 for 0. *)
Definition digit_count (n : N) : N :=
  N.of_nat (String.length (Str.str_of_N n)).

(* ================================================================== *)
(** ** A small concrete run, for the examples *)

Module Demo.

(** The manifest is [/m/trackinfo]; [/m/in] is a plain directory. *)
Definition manifest_path : path := ["/"; "m"; "trackinfo"].
Definition plain_dir : path := ["/"; "m"; "in"].
Definition input_map : dict path path := [(plain_dir, plain_dir)].

(** No symbolic links: [resolve] changes nothing. *)
Definition resolve (p : path) : path := p.

(** The parser state after [ALBUM=Test] and [ARTIST=Z]. *)
Definition st0 : pstate :=
  mk_pstate []
    [("ALBUM", VStr "Test"); ("DISCNUMBER", VNone); ("ARTIST", VStr "Z")] [].

(** The record [TITLE[1]=A] creates in [st0]. *)
Definition track1 : record :=
  [("ALBUM", VStr "Test"); ("DISCNUMBER", VNone); ("ARTIST", VStr "Z");
   ("TRACKNUMBER", VInt 1); ("TITLE", VStr "A")].

Definition st1 : pstate :=
  mk_pstate [(Some "Test", [(None, [(1%N, track1)])])] (global_meta st0) [].

Definition st2 : pstate :=
  mk_pstate (track_meta st1)
    [("ALBUM", VStr "Other"); ("DISCNUMBER", VNone); ("ARTIST", VStr "Y")] [].

(** The tree of the manifest [INPUT=in], [ALBUM=A], [DISCNUMBER=1],
    [TITLE[1]=x], [TITLE[10]=y]. *)
Definition two_tracks_manifest : list string :=
  ["INPUT=in"; "ALBUM=A"; "DISCNUMBER=1"; "TITLE[1]=x"; "TITLE[10]=y"].

Definition tags_of_track (n : N) (title : string) : record :=
  [("ALBUM", VStr "A"); ("DISCNUMBER", VInt 1); ("INPUT", VPath plain_dir);
   ("TRACKNUMBER", VInt n); ("TITLE", VStr title)].

Definition two_tracks : tree :=
  [(Some "A", [(Some 1%N, [(1%N, tags_of_track 1 "x"); (10%N, tags_of_track 10 "y")])])].

(** [/m/in] holds the one file [10 - y.flac]. *)
Definition iterdir (p : path) : result (list path) := Ok [p ++ ["10 - y.flac"]].

(** A world in which [/m/a.zip] is an archive whose only entry is the
    directory [album]; the state of the world is the list of the
    archives extracted so far.  The picture extractor always exits with
    status 1. *)
Definition archive : path := ["/"; "m"; "a.zip"].
Definition work_path : path := ["/"; "tmp"].
Definition container : path := ["/"; "tmp"; "x0"].

Definition fs : FileSystem (list path) :=
  mk_fs
    (fun _ p => p)
    (fun _ p => eqb_dec p archive)
    (fun _ p => eqb_dec p (container ++ ["album"]))
    (fun _ p => if eqb_dec p container then Ok [container ++ ["album"]] else Ok [])
    (fun w d => Ok (d ++ [("x" ++ Str.str_of_N (N.of_nat (List.length w)))%string], w))
    (fun w _ p _ => Ok (w ++ [p]))
    (fun w _ => Ok w)
    (fun w d => Ok (d ++ ["tmp0"], w))
    (fun w _ _ => Ok (1%N, w)).

(** The tree of the manifest [COVER[1]=/m/in/a.flac]. *)
Definition flac_cover : path := ["/"; "m"; "in"; "a.flac"].
Definition cover_tags : record :=
  [("ALBUM", VNone); ("DISCNUMBER", VNone); ("TRACKNUMBER", VInt 1);
   ("COVER", VPath flac_cover)].
Definition cover_tree : tree := [(None, [(None, [(1%N, cover_tags)])])].

(** A sanitizer for names within the byte budget: it keeps them. *)
Definition keep_name (s : string) : result path := Ok [s].

End Demo.

From Stdlib Require Import ZArith.

(* ================================================================== *)
(** * Further definitions: the rest of the module *)

(** ** Vocabulary of the tree's invariants *)

(** The value a record stores for a disc key and for an album key. *)
Definition value_of_disc (d : disc_key) : value :=
  match d with
  | None => VNone
  | Some n => VInt n
  end.

Definition value_of_album (a : album_key) : value :=
  match a with
  | None => VNone
  | Some s => VStr s
  end.

(** A leaf's grouping fields agree with the keys it is filed under: its
    [DISCNUMBER] is the disc key, and its [ALBUM] is the album key, except
    that under the empty album name the [ALBUM] entry may be missing. *)
Definition leaf_agrees (a : album_key) (d : disc_key) (r : record) : Prop :=
  dget "DISCNUMBER" r = Some (value_of_disc d)
  /\ (dget "ALBUM" r = Some (value_of_album a)
      \/ (a = Some "" /\ dget "ALBUM" r = None)).

(** Keys are unique at every level, no album is without a disc and no
    disc without a track. *)
Definition tree_wf (t : tree) : Prop :=
  NoDup (dkeys t)
  /\ forall a discs, In (a, discs) t ->
       discs <> [] /\ NoDup (dkeys discs)
       /\ forall d tracks, In (d, tracks) discs ->
            tracks <> [] /\ NoDup (dkeys tracks).

(** Every leaf of the parser's tree agrees with its keys. *)
Definition leaves_agree (st : pstate) : Prop :=
  forall a d n r, tree_get a d n (track_meta st) = Some r -> leaf_agrees a d r.


(** [track_map[album][disc][num]], when all three keys are there. *)
Definition track_map_get (a : album_key) (d : disc_key) (n : N)
  (m : dict album_key (dict disc_key (dict N string))) : option string :=
  match dget a m with
  | Some discs =>
      match dget d discs with
      | Some tracks => dget n tracks
      | None => None
      end
  | None => None
  end.

(** ** Vocabulary of the padding calculator's properties *)

(** Below this number [math.floor(math.log10(n))] is the exact integer
    logarithm: [math.log10] rounds 999999999999998 and 999999999999999
    up to 15.0. *)
Definition log10_exact_below : N := 999999999999998.

(** Every disc number and track number of the tree is below [bound]. *)
Definition numbers_below (bound : N) (info : tree) : Prop :=
  forall a discs d tracks, In (a, discs) info -> In (d, tracks) discs ->
    (forall k, d = Some k -> (k < bound)%N)
    /\ forall n, In n (dkeys tracks) -> (n < bound)%N.

(** ** Vocabulary of the archive resolver's properties *)

(** A declared path as [pathlib] builds them: it has a first part, and
    no later part is a root. *)
Definition declared_ok (p : path) : bool :=
  match p with
  | [] => false
  | _ :: rest => forallb (fun s => negb (PathLib.is_root s)) rest
  end.

(** No path is a file with an archive extension: nothing to extract. *)
Definition no_archives {W : Type} (fs : FileSystem W) : Prop :=
  forall w p,
    fs_is_file fs w p && str_in (Str.lower (PathLib.suffix p)) ARCHIVE_EXTS = false.

(** ** What the two manifest patterns share

    After the key both patterns read the same thing: an optional
    bracketed run of digits, an equals sign and the rest of the line. *)
Definition assignment_tail (rest : string) : option (option string * string) :=
  match rest with
  | String "[" r1 =>
      let (ds, r2) := Str.span Str.is_digit r1 in
      match ds, r2 with
      | String _ _, String "]" (String "=" v) =>
          if dot_star v then Some (Some ds, v) else None
      | _, _ => None
      end
  | String "=" v => if dot_star v then Some (None, v) else None
  | _ => None
  end.

(* ================================================================== *)
(** ** File-name truncation: [truncate_filename]

    The function works on the UTF-8 bytes of the name (the encoding it
    picks off Windows).  Here a [string] is read as those bytes: for
    ASCII text they are the text itself, [s.encode('utf-8')] is [s], and
    [b.decode('utf-8')] succeeds on the well-formed byte strings and
    gives the same bytes back. *)

Module Utf8.

Definition byte_in (lo hi : nat) (c : ascii) : bool :=
  let n := nat_of_ascii c in (lo <=? n)%nat && (n <=? hi)%nat.

Definition is_ascii (c : ascii) : bool := byte_in 0 127 c.

(** A continuation byte. *)
Definition cont (c : ascii) : bool := byte_in 128 191 c.

(** The first byte of a two-byte character. *)
Definition lead2 (b0 : ascii) : bool := byte_in 194 223 b0.

(** The first two bytes of a three-byte character: no overlong form and
    no surrogate. *)
Definition lead3 (b0 b1 : ascii) : bool :=
  (byte_in 224 224 b0 && byte_in 160 191 b1)
  || (byte_in 225 236 b0 && cont b1)
  || (byte_in 237 237 b0 && byte_in 128 159 b1)
  || (byte_in 238 239 b0 && cont b1).

(** The first two bytes of a four-byte character: no overlong form and
    nothing above U+10FFFF. *)
Definition lead4 (b0 b1 : ascii) : bool :=
  (byte_in 240 240 b0 && byte_in 144 191 b1)
  || (byte_in 241 243 b0 && cont b1)
  || (byte_in 244 244 b0 && byte_in 128 143 b1).

(** [b.decode('utf-8')] does not raise [UnicodeDecodeError]. *)
Fixpoint valid (s : string) : bool :=
  match s with
  | EmptyString => true
  | String b0 s1 =>
      if is_ascii b0 then valid s1
      else
        match s1 with
        | EmptyString => false
        | String b1 s2 =>
            if lead2 b0 then cont b1 && valid s2
            else
              match s2 with
              | EmptyString => false
              | String b2 s3 =>
                  if lead3 b0 b1 then cont b2 && valid s3
                  else
                    match s3 with
                    | EmptyString => false
                    | String b3 s4 =>
                        lead4 b0 b1 && cont b2 && cont b3 && valid s4
                    end
              end
        end
  end.

(** The bytes of one character. *)
Definition uchar (c : string) : bool :=
  match c with
  | String b0 EmptyString => is_ascii b0
  | String b0 (String b1 EmptyString) => lead2 b0 && cont b1
  | String b0 (String b1 (String b2 EmptyString)) => lead3 b0 b1 && cont b2
  | String b0 (String b1 (String b2 (String b3 EmptyString))) =>
      lead4 b0 b1 && cont b2 && cont b3
  | _ => false
  end.

End Utf8.

(** [b[:k]] for an integer [k] of either sign. *)
Definition py_prefix (k : Z) (s : string) : string :=
  if (k <? 0)%Z then substring 0 (String.length s - Z.to_nat (- k)) s
  else substring 0 (Z.to_nat k) s.

(** [s.endswith(suf)] *)
Definition endswith (suf s : string) : bool :=
  (String.length suf <=? String.length s)%nat
  && String.eqb (substring (String.length s - String.length suf)
                           (String.length suf) s) suf.

(** [s.removesuffix(suf)] *)
Definition removesuffix (suf s : string) : string :=
  if negb (String.eqb suf "") && endswith suf s
  then substring 0 (String.length s - String.length suf) s
  else s.

(** The [while] loop of the [except] clause, entered with
    [n = len(truncated_bytes)]: drop the last byte until the bytes
    decode; [None] is the loop's [else], reached with no byte left. *)
Fixpoint shorten_until_decodable (n : nat) (truncated_bytes : string)
  : option string :=
  match n with
  | O => None
  | S m =>
      if Utf8.valid truncated_bytes then Some truncated_bytes
      else shorten_until_decodable m (py_prefix (-1) truncated_bytes)
  end.

(** The local [base] of [truncate_filename]. *)
Definition filename_base (filename : string) : string :=
  let p := PathLib.of_string filename in
  removesuffix (PathLib.suffix p) (PathLib.name p).

Definition truncation_warning (filename : string) (ret : path) : string :=
  ("WARNING: Filename '" ++ filename ++ "' has been truncated to '"
   ++ py_str (VPath ret) ++ "'!")%string.

(** [truncate_filename(filename, max_bytes)]: the path returned and the
    lines printed. *)
Definition truncate_filename (max_bytes : Z) (filename : string)
  : result (path * list string) :=
  let p := PathLib.of_string filename in
  let extension := PathLib.suffix p in
  let base := filename_base filename in
  let max_base_bytes := (max_bytes - Z.of_nat (String.length extension))%Z in
  if (max_base_bytes <? Z.of_nat (String.length base))%Z then
    let truncated_bytes := py_prefix max_base_bytes base in
    truncated_base <-
      (if Utf8.valid truncated_bytes then Ok truncated_bytes
       else
         match shorten_until_decodable (String.length truncated_bytes)
                                       truncated_bytes with
         | Some b => Ok b
         | None =>
             Err (ValueError ("'" ++ filename ++ "' could not be truncated"))
         end) ;;
    let ret := PathLib.of_string (truncated_base ++ extension) in
    Ok (ret, [truncation_warning filename ret])
  else Ok (p, []).

(** The sanitizer as [gen_output_path] calls it: the default limit of
    255 bytes. *)
Definition truncate_default (filename : string) : result path :=
  ' (ret, _) <- truncate_filename 255 filename ;; Ok ret.

(** [c in s] *)
Fixpoint has_char (c : ascii) (s : string) : bool :=
  match s with
  | EmptyString => false
  | String a s' => Ascii.eqb a c || has_char c s'
  end.

(* ================================================================== *)
(** ** Album directories: [make_album_dirs] *)

(** [album_dir], the directory of an album under [out_dir]. *)
Definition album_dir (out_dir : path) (album : album_key) : path :=
  match album with
  | Some a => out_dir // PathLib.of_string (Str.replace_char "/" "_" a)
  | None => out_dir // PathLib.of_string UNKNOWN_ALBUM_NAME
  end.

Definition created_message (dir : path) : string :=
  ("Created album directory: " ++ py_str (VPath dir))%string.

Section AlbumDirs.
Context {W : Type} (fs : FileSystem W).

(** The body of the loop, on the world and the lines printed so far. *)
Definition make_album_dir (out_dir : path) (acc : W * list string)
  (album : album_key) : result (W * list string) :=
  let (w, out) := acc in
  w1 <- fs_mkdir fs w (album_dir out_dir album) ;;
  Ok (w1, out ++ [created_message (album_dir out_dir album)]).

Definition make_album_dirs (w : W) (out_dir : path) (info : tree)
  : result (W * list string) :=
  for_each (make_album_dir out_dir) (dkeys info) (w, []).

End AlbumDirs.

(* ================================================================== *)
(** ** The printed track map: [print_track_map] *)

(** The arrow U+2190 of the printed line, as its UTF-8 bytes. *)
Definition left_arrow : string :=
  String (ascii_of_nat 226) (String (ascii_of_nat 134)
    (String (ascii_of_nat 144) EmptyString)).

Definition track_map_line (album : album_key) (disc : disc_key) (num : N)
  (disc_width track_width : N) (filename : string) : string :=
  (track_id_to_string album disc num disc_width track_width
   ++ " " ++ left_arrow ++ " " ++ filename)%string.

(** The innermost body: one [print], after the two padding lookups. *)
Definition print_track (disc_padding : disc_padding_t)
  (track_padding : track_padding_t) (album : album_key) (disc : disc_key)
  (out : list string) (nf : N * string) : result (list string) :=
  let (num, filename) := nf in
  dw <- subscript (dget album disc_padding) ;;
  widths <- subscript (dget album track_padding) ;;
  tw <- subscript (dget disc widths) ;;
  Ok (out ++ [track_map_line album disc num dw tw filename]).

Definition print_disc (disc_padding : disc_padding_t)
  (track_padding : track_padding_t) (album : album_key)
  (out : list string) (dt : disc_key * dict N string) : result (list string) :=
  for_each (print_track disc_padding track_padding album (fst dt)) (snd dt) out.

Definition print_album (disc_padding : disc_padding_t)
  (track_padding : track_padding_t)
  (out : list string) (ad : album_key * dict disc_key (dict N string))
  : result (list string) :=
  for_each (print_disc disc_padding track_padding (fst ad)) (snd ad) out.

(** [print_track_map(track_map, disc_padding, track_padding)]: the lines
    printed. *)
Definition print_track_map (track_map : dict album_key (dict disc_key (dict N string)))
  (disc_padding : disc_padding_t) (track_padding : track_padding_t)
  : result (list string) :=
  for_each (print_album disc_padding track_padding) track_map [].

(* ================================================================== *)
(** ** Further worked examples *)

Module Demo2.

(** A world without archives: no path is a file, every path is a
    directory that holds [01 - x.flac] and [10 - y.flac], [mkdir] records
    the directory it makes, and the picture extractor exits with
    status 0. *)
Definition plain_fs : FileSystem (list path) :=
  mk_fs
    (fun _ p => p)
    (fun _ _ => false)
    (fun _ _ => true)
    (fun _ p => Ok [p ++ ["01 - x.flac"]; p ++ ["10 - y.flac"]])
    (fun w d => Ok (d ++ ["x0"], w))
    (fun w _ _ _ => Ok w)
    (fun w p => Ok (w ++ [p]))
    (fun w d => Ok (d ++ ["tmp0"], w))
    (fun w _ _ => Ok (0%N, w)).

Definition iterdir (p : path) : result (list path) := fs_iterdir plain_fs [] p.

(** The track map of [Demo.two_tracks] in that world. *)
Definition two_tracks_map : dict album_key (dict disc_key (dict N string)) :=
  [(Some "A", [(Some 1%N, [(1%N, "01 - x.flac"); (10%N, "10 - y.flac")])])].

Definition out_dir : path := ["/"; "out"].

(** U+00E9, two bytes in UTF-8. *)
Definition e_acute : string :=
  String (ascii_of_nat 195) (String (ascii_of_nat 169) EmptyString).

(** A name of 260 bytes whose bytes 250 and 251 are one character: the
    cut at 250 bytes for the base falls inside it. *)
Definition long_name : string :=
  (Str.zeros 249 ++ e_acute ++ "tail.flac")%string.

(** A track whose title alone is 300 bytes long. *)
Definition long_title_tags : record := Demo.tags_of_track 1 (Str.zeros 300).

End Demo2.

(* ================================================================== *)
(** ** Vocabulary of the parser's properties *)

(** Text within ASCII, on which [strip], [rstrip], [isdigit], [upper]
    and [lower] are the Python methods exactly. *)
Definition ascii_text (s : string) : bool :=
  Str.forallb_str (fun c => (nat_of_ascii c <? 128)%nat) s.

Definition ascii_manifest (lines : list string) : bool := forallb ascii_text lines.


(** A record with an [INPUT] that is a directory out of the
    InputResolutionMap. *)
Definition has_resolved_input (input_map : dict path path) (r : record) : Prop :=
  exists k p, dget "INPUT" r = Some (VPath p) /\ dget k input_map = Some p.

(** The global scope and every leaf have a resolved [INPUT]. *)
Definition inputs_all_resolved (input_map : dict path path) (st : pstate)
  : Prop :=
  has_resolved_input input_map (global_meta st)
  /\ forall a d n r, tree_get a d n (track_meta st) = Some r ->
       has_resolved_input input_map r.

(** A line without index that assigns [INPUT] a value that is not
    empty. *)
Definition global_input_line (raw : string) : bool :=
  match TRACKINFO_RE (Str.rstrip raw) with
  | Some (g1, None, g3) =>
      String.eqb (Str.upper g1) "INPUT" && negb (String.eqb (Str.strip g3) "")
  | _ => false
  end.

(** A line, with or without index, that assigns [INPUT] the empty
    value. *)
Definition clears_input (raw : string) : bool :=
  match TRACKINFO_RE (Str.rstrip raw) with
  | Some (g1, _, g3) =>
      String.eqb (Str.upper g1) "INPUT" && String.eqb (Str.strip g3) ""
  | None => false
  end.

Section Overrides.
Variable resolve : path -> path.
Variable trackinfo_path : path.
Variable input_map : dict path path.

(** The global scope once the line [raw] has been read in the global
    scope [g]: only an accepted line without index changes it. *)
Definition global_after_line (g : record) (raw : string) : record :=
  match TRACKINFO_RE (Str.rstrip raw) with
  | Some (g1, None, g3) =>
      match set_key_value resolve trackinfo_path input_map
                          (Str.upper g1) (Str.strip g3) g with
      | Ok g' => g'
      | Err _ => g
      end
  | _ => g
  end.

(** The overrides of one track: key and value of the lines that address
    track [n] of disc [d] of album [a], in manifest order.  Which track a
    line addresses is decided by its index, its key and value, and the
    global scope at that line. *)
Fixpoint own_assignments (a : album_key) (d : disc_key) (n : N)
  (g : record) (lines : list string) : list (string * string) :=
  match lines with
  | [] => []
  | raw :: rest =>
      (match TRACKINFO_RE (Str.rstrip raw) with
       | Some (g1, Some idx, g3) =>
           match track_location g (Str.upper g1) (Str.strip g3) with
           | Ok (a', d') =>
               if eqb_dec (a', d', Str.int idx) (a, d, n)
               then [(Str.upper g1, Str.strip g3)]
               else []
           | Err _ => []
           end
       | _ => []
       end)
      ++ own_assignments a d n (global_after_line g raw) rest
  end.

(** A record merged with overrides: each is applied as a line of the
    track would be. *)
Definition apply_overrides (r : record) (kvs : list (string * string))
  : result record :=
  for_each (fun r0 (kv : string * string) =>
              set_key_value resolve trackinfo_path input_map (fst kv) (snd kv) r0)
           kvs r.

End Overrides.

(** The error a [DISCNUMBER] line with the bad value [v] raises in the
    global scope [g]: a track line first reads the global [ALBUM]. *)
Definition bad_discnumber_error (g : record) (g2 : option string) (v : string)
  : exn :=
  match g2 with
  | Some _ =>
      if dmem "ALBUM" g
      then ValueError ("DISCNUMBER ('" ++ v ++ "') must be an integer")
      else KeyError
  | None => ValueError ("DISCNUMBER ('" ++ v ++ "') must be an integer")
  end.


Section Reaches.
Context {W : Type} (fs : FileSystem W).
Variable tmp_dir : path.

(** [reaches parent p m]: walking the declared path [p] segment by
    segment from [parent] ends at [m], each segment being replaced by the
    effective root it has in the world of the moment it is expanded. *)
Inductive reaches : path -> path -> path -> Prop :=
| reaches_last : forall parent h w root w',
    effective_root fs tmp_dir w (parent // [h]) = Ok (root, w') ->
    reaches parent [h] root
| reaches_step : forall parent h rest w root w' m,
    rest <> [] ->
    effective_root fs tmp_dir w (parent // [h]) = Ok (root, w') ->
    reaches root rest m ->
    reaches parent (h :: rest) m.

End Reaches.

(* ================================================================== *)
(** * Properties *)

(** ** Sanity checks of the text, path and pattern models *)

Example upper_example : Str.upper "DiscNumber" = "DISCNUMBER".
Proof. reflexivity. Qed.

Example strip_example : Str.strip "  a b	 " = "a b".
Proof. reflexivity. Qed.

Example str_of_N_examples :
  map Str.str_of_N [0; 7; 10; 99; 100; 12345]%N
  = ["0"; "7"; "10"; "99"; "100"; "12345"].
Proof. reflexivity. Qed.

Example zfill_examples :
  (Str.zfill 3 "7", Str.zfill 0 "12", Str.zfill 4 "-5", Str.zfill 2 "")
  = ("007", "12", "-005", "00").
Proof. reflexivity. Qed.

Example int_example : Str.int "0042" = 42%N.
Proof. reflexivity. Qed.

Example split_example : Str.split "/" "/a//b" = [""; "a"; ""; "b"].
Proof. reflexivity. Qed.

Example of_string_examples :
  map PathLib.of_string [""; "."; "a/b"; "/a//b/./c"; "//x"; "///x"; "cd/../e.zip"]
  = [ []; []; ["a"; "b"]; ["/"; "a"; "b"; "c"]; ["//"; "x"]; ["/"; "x"];
      ["cd"; ".."; "e.zip"] ].
Proof. reflexivity. Qed.

Example suffix_examples :
  map PathLib.suffix [["/"; "m"; "a.ZIP"]; ["x.tar.gz"]; [".flac"]; ["a."]; ["/"]; []]
  = [".ZIP"; ".gz"; ""; ""; ""; ""].
Proof. reflexivity. Qed.

Example join_examples :
  (["/"; "m"] // ["a"; "b"], ["/"; "m"] // ["/"; "x"], [] // ["a"])
  = (["/"; "m"; "a"; "b"], ["/"; "x"], ["a"]).
Proof. reflexivity. Qed.

Example TRACKINFO_RE_examples :
  map TRACKINFO_RE ["Title[12]=A b"; "ALBUM="; "x[]=1"; "=v"; "a b=c"; "K[3=v"; "T[1]x=v"]
  = [Some ("Title", Some "12", "A b"); Some ("ALBUM", None, ""); None; None;
     None; None; None].
Proof. reflexivity. Qed.

Example INPUT_TRACKINFO_RE_examples :
  map INPUT_TRACKINFO_RE ["input=a/b.zip"; "INPUT[2]= x"; "INPUTS=a"; "TITLE=a"]
  = [Some "a/b.zip"; Some " x"; None; None].
Proof. reflexivity. Qed.

Example TRACK_INPUT_RE_examples :
  map TRACK_INPUT_RE
    ["01 - Intro.flac"; "cd2_track07.FLAC"; "intro.flac"; "3.mp3"; "12.flac";
     "a.flac5.flac"]
  = [Some "01"; Some "2"; None; None; Some "12"; Some "5"].
Proof. reflexivity. Qed.


(* ================================================================== *)
(** ** Dictionary lemmas *)

Lemma eqb_dec_true : forall (A : Type) `{EqDec A} (x y : A),
  eqb_dec x y = true <-> x = y.
Proof.
  intros A H x y. unfold eqb_dec. destruct (eq_dec x y); split; congruence.
Qed.

Section DictFacts.
Context {K V : Type} `{EqDec K}.
Implicit Types (k : K) (v : V) (d : dict K V).

Lemma dget_dset_eq : forall k v d, dget k (dset k v d) = Some v.
Proof.
  intros k v d. induction d as [|[k' v'] d IH]; simpl.
  - destruct (eq_dec k k); congruence.
  - destruct (eq_dec k k') as [E|E]; simpl.
    + destruct (eq_dec k k'); congruence.
    + destruct (eq_dec k k'); congruence.
Qed.

Lemma dget_dset_neq : forall k k' v d, k <> k' -> dget k' (dset k v d) = dget k' d.
Proof.
  intros k k' v d Hne. induction d as [|[k0 v0] d IH]; simpl.
  - destruct (eq_dec k' k); congruence.
  - destruct (eq_dec k k0) as [E|E]; simpl.
    + subst k0. destruct (eq_dec k' k); congruence.
    + destruct (eq_dec k' k0); congruence.
Qed.

Lemma dget_ddel_eq : forall k d, dget k (ddel k d) = None.
Proof.
  intros k d. induction d as [|[k' v'] d IH]; simpl; auto.
  destruct (eq_dec k k') as [E|E]; simpl; auto.
  destruct (eq_dec k k'); congruence.
Qed.

Lemma dget_ddel_neq : forall k k' d, k <> k' -> dget k' (ddel k d) = dget k' d.
Proof.
  intros k k' d Hne. induction d as [|[k0 v0] d IH]; simpl; auto.
  destruct (eq_dec k k0) as [E|E]; simpl.
  - subst k0. destruct (eq_dec k' k); congruence.
  - destruct (eq_dec k' k0); congruence.
Qed.

Lemma dget_In : forall k v d, dget k d = Some v -> In (k, v) d.
Proof.
  intros k v d. induction d as [|[k' v'] d IH]; simpl; try discriminate.
  destruct (eq_dec k k'); intros E.
  - left. congruence.
  - right. auto.
Qed.

Lemma In_dget : forall k v d, In (k, v) d -> exists v', dget k d = Some v'.
Proof.
  intros k v d. induction d as [|[k' v'] d IH]; simpl; intros Hin.
  - contradiction.
  - destruct (eq_dec k k'); eauto.
    destruct Hin as [E|Hin]; [congruence | auto].
Qed.

End DictFacts.

(* ================================================================== *)
(** ** The result monad and [for] loops *)

Lemma bind_ok_inv : forall (A B : Type) (c : result A) (k : A -> result B) b,
  bind c k = Ok b -> exists a, c = Ok a /\ k a = Ok b.
Proof. intros A B [a|e] k b E; simpl in E; [eauto | discriminate]. Qed.

Lemma for_each_app : forall (A S : Type) (body : S -> A -> result S) xs ys s,
  for_each body (xs ++ ys) s = bind (for_each body xs s) (for_each body ys).
Proof.
  intros A S body xs. induction xs as [|x xs IH]; intros ys s; simpl; auto.
  destruct (body s x); simpl; auto.
Qed.

(** An invariant kept by every iteration that completes holds at the end
    of a loop that completes. *)
Lemma for_each_invariant : forall (A S : Type) (body : S -> A -> result S)
  (P : S -> Prop) xs s s',
  (forall s x s', In x xs -> P s -> body s x = Ok s' -> P s') ->
  P s -> for_each body xs s = Ok s' -> P s'.
Proof.
  intros A S body P xs. induction xs as [|x xs IH]; intros s s' Hstep Hs E; simpl in E.
  - congruence.
  - apply bind_ok_inv in E. destruct E as (s1 & E1 & E2).
    apply (IH s1 s'); auto.
    + intros; eapply Hstep; eauto. right; assumption.
    + eapply Hstep; eauto. left; reflexivity.
Qed.

(** A loop raises as soon as one of its items makes the body raise
    whatever the state. *)
Lemma for_each_raises : forall (A S : Type) (body : S -> A -> result S) xs x s,
  In x xs -> (forall s, is_ok (body s x) = false) ->
  is_ok (for_each body xs s) = false.
Proof.
  intros A S body xs x. induction xs as [|y ys IH]; intros s Hin Hbad; simpl.
  - contradiction.
  - destruct Hin as [->|Hin].
    + specialize (Hbad s). destruct (body s x); [discriminate | reflexivity].
    + destruct (body s y); simpl; auto.
Qed.

(* ================================================================== *)
(** ** The tree as a three-level dictionary *)

Lemma tree_get_set_eq : forall a d n r t,
  tree_get a d n (tree_set a d n r t) = Some r.
Proof.
  intros. unfold tree_get, tree_set.
  rewrite dget_dset_eq. rewrite dget_dset_eq. apply dget_dset_eq.
Qed.

Lemma tree_get_set_neq : forall a d n a' d' n' r t,
  (a, d, n) <> (a', d', n') ->
  tree_get a' d' n' (tree_set a d n r t) = tree_get a' d' n' t.
Proof.
  intros a d n a' d' n' r t Hne. unfold tree_get, tree_set.
  destruct (eq_dec a a') as [Ea|Ea].
  - subst a'. rewrite dget_dset_eq.
    destruct (eq_dec d d') as [Ed|Ed].
    + subst d'. rewrite dget_dset_eq.
      assert (Hn : n <> n') by congruence.
      rewrite (dget_dset_neq _ _ Hn).
      destruct (dget a t) as [discs|]; simpl; auto.
      destruct (dget d discs); simpl; auto.
    + rewrite (dget_dset_neq _ _ Ed).
      destruct (dget a t) as [discs|]; simpl; auto.
  - rewrite (dget_dset_neq _ _ Ea). reflexivity.
Qed.



(* ================================================================== *)
(** ** Manifest parser *)

Section ParserFacts.
Variable resolve : path -> path.
Variable trackinfo_path : path.
Variable input_map : dict path path.

Local Notation "'step'" := (process_line resolve trackinfo_path input_map).
Local Notation "'run'" := (parse_lines resolve trackinfo_path input_map).
Local Notation "'store'" := (set_key_value resolve trackinfo_path input_map).
Local Notation "'assign_in'" := (assign resolve trackinfo_path input_map).

(** What a line that matches the pattern does, spelled out. *)
Lemma process_line_matched : forall st raw g1 g2 g3,
  TRACKINFO_RE (Str.rstrip raw) = Some (g1, g2, g3) ->
  step st raw =
    (d <- select_dst (global_meta st) (Str.upper g1) (Str.strip g3) g2 ;;
     r <- store (Str.upper g1) (Str.strip g3) (dst_record st d) ;;
     Ok (write_dst st d r
           (if str_in (Str.upper g1) TRACKINFO_STANDARD_KEYS then printed st
            else printed st ++ [("WARNING: '" ++ Str.upper g1
                                 ++ "' is not a standard key.")%string]))).
Proof.
  intros st raw g1 g2 g3 E. unfold process_line.
  destruct (Str.rstrip raw) as [|c s] eqn:El.
  - discriminate E.
  - simpl String.length. simpl Nat.eqb. cbv iota. rewrite E. reflexivity.
Qed.

(** A line without index leaves the tree as it is. *)
Lemma not_indexed_keeps_tree : forall st raw st',
  not_indexed raw = true -> step st raw = Ok st' ->
  track_meta st' = track_meta st.
Proof.
  intros st raw st' Hni E. unfold not_indexed in Hni.
  destruct (TRACKINFO_RE (Str.rstrip raw)) as [[[g1 g2] g3]|] eqn:Em.
  - destruct g2 as [idx|]; [discriminate|].
    rewrite (process_line_matched _ _ Em) in E. simpl in E.
    apply bind_ok_inv in E. destruct E as (r & _ & E). inversion E. reflexivity.
  - unfold process_line in E. rewrite Em in E.
    destruct (String.length (Str.rstrip raw) =? 0)%nat; [|discriminate].
    inversion E. reflexivity.
Qed.

Lemma not_indexed_lines_keep_tree : forall later st st',
  forallb not_indexed later = true -> run later st = Ok st' ->
  track_meta st' = track_meta st.
Proof.
  intros later. induction later as [|raw later IH]; intros st st' Hall E; simpl in *.
  - inversion E. reflexivity.
  - apply andb_prop in Hall. destruct Hall as [H1 H2].
    apply bind_ok_inv in E. destruct E as (s1 & E1 & E2).
    rewrite (IH _ _ H2 E2). eapply not_indexed_keeps_tree; eauto.
Qed.

(** The empty-value test either deletes the key or hands over to the
    assignment. *)
Lemma set_key_value_empty : forall key r,
  store key "" r = if dmem key r then Ok (ddel key r) else assign_in key "" r.
Proof. intros key r. unfold set_key_value. simpl. reflexivity. Qed.

(** *** The invariant of the tree *)

Lemma input_resolved_ddel : forall key r,
  input_resolved input_map r -> input_resolved input_map (ddel key r).
Proof.
  intros key r Hr v. destruct (string_dec key "INPUT") as [->|Hne].
  - rewrite dget_ddel_eq. discriminate.
  - rewrite (dget_ddel_neq _ Hne). apply Hr.
Qed.

Lemma input_resolved_dset_other : forall key v r,
  key <> "INPUT" ->
  input_resolved input_map r -> input_resolved input_map (dset key v r).
Proof.
  intros key v r Hne Hr v'. rewrite (dget_dset_neq _ _ Hne). apply Hr.
Qed.

Lemma eqb_false_neq : forall a b : string, String.eqb a b = false -> a <> b.
Proof. intros a b E. apply String.eqb_neq. exact E. Qed.

Lemma input_resolved_set_key_value : forall key value r r',
  input_resolved input_map r -> store key value r = Ok r' ->
  input_resolved input_map r'.
Proof.
  intros key value r r' Hr E. unfold set_key_value in E.
  destruct ((String.length value =? 0)%nat && dmem key r).
  - inversion E. apply input_resolved_ddel. exact Hr.
  - unfold assign in E.
    destruct (String.eqb key "INPUT") eqn:Ki.
    + apply bind_ok_inv in E. destruct E as (p & Ep & E). inversion E.
      intros v. rewrite dget_dset_eq. intros Ev. inversion Ev.
      unfold subscript in Ep.
      destruct (dget (resolve (PathLib.parent trackinfo_path // PathLib.of_string value))
                     input_map) eqn:Eg; [|discriminate].
      inversion Ep; subst. eauto.
    + apply eqb_false_neq in Ki.
      destruct (String.eqb key "COVER") eqn:Kc.
      * assert (Hc : "COVER" <> "INPUT") by discriminate.
        destruct (PathLib.is_absolute (PathLib.of_string value)).
        { inversion E. apply input_resolved_dset_other; auto. }
        destruct (dget "INPUT" r) as [[| | |i]|]; try discriminate;
          inversion E; apply input_resolved_dset_other; auto.
      * destruct (String.eqb key "DISCNUMBER") eqn:Kd.
        { destruct (negb (Str.isdigit value)); [discriminate|].
          inversion E. apply input_resolved_dset_other; auto. discriminate. }
        inversion E. apply input_resolved_dset_other; auto.
Qed.

(** Storing under a key other than [k] leaves the entry at [k] alone. *)
Lemma set_key_value_other_key : forall k key value r r',
  key <> k -> store key value r = Ok r' -> dget k r' = dget k r.
Proof.
  intros k key value r r' Hne E. unfold set_key_value in E.
  destruct ((String.length value =? 0)%nat && dmem key r).
  - inversion E. apply dget_ddel_neq. exact Hne.
  - unfold assign in E.
    destruct (String.eqb key "INPUT") eqn:Ki.
    + apply String.eqb_eq in Ki. subst key.
      apply bind_ok_inv in E. destruct E as (p & _ & E). inversion E.
      apply dget_dset_neq. exact Hne.
    + destruct (String.eqb key "COVER") eqn:Kc.
      * apply String.eqb_eq in Kc. subst key.
        destruct (PathLib.is_absolute (PathLib.of_string value)).
        { inversion E. apply dget_dset_neq. exact Hne. }
        destruct (dget "INPUT" r) as [[| | |i]|]; try discriminate;
          inversion E; apply dget_dset_neq; exact Hne.
      * destruct (String.eqb key "DISCNUMBER") eqn:Kd.
        { apply String.eqb_eq in Kd. subst key.
          destruct (negb (Str.isdigit value)); [discriminate|].
          inversion E. apply dget_dset_neq. exact Hne. }
        inversion E. apply dget_dset_neq. exact Hne.
Qed.

Lemma tree_invariant_initial : forall keep, tree_invariant input_map keep initial_pstate.
Proof.
  intros keep. split.
  - intros v E. simpl in E. discriminate.
  - intros a d n r E. unfold tree_get in E. simpl in E. discriminate.
Qed.

Lemma tree_invariant_dst_record : forall keep st d,
  tree_invariant input_map keep st ->
  input_resolved input_map (dst_record st d)
  /\ match d with
     | DGlobal => True
     | DTrack _ _ n => dget "TRACKNUMBER" (dst_record st d) = Some (VInt n)
                      \/ keep = false
     end.
Proof.
  intros keep st [|a dk n] [Hg Ht]; simpl.
  - split; auto.
  - destruct (tree_get a dk n (track_meta st)) as [r|] eqn:Eg.
    + destruct (Ht _ _ _ _ Eg) as [H1 H2]. split; auto.
      destruct keep; auto.
    + split.
      * apply input_resolved_dset_other; [discriminate | exact Hg].
      * left. apply dget_dset_eq.
Qed.

Lemma tree_invariant_step : forall lines st raw st',
  In raw lines ->
  tree_invariant input_map (no_track_key "TRACKNUMBER" lines) st ->
  step st raw = Ok st' ->
  tree_invariant input_map (no_track_key "TRACKNUMBER" lines) st'.
Proof.
  intros lines st raw st' Hin Hinv E.
  destruct (TRACKINFO_RE (Str.rstrip raw)) as [[[g1 g2] g3]|] eqn:Em.
  2:{ unfold process_line in E. rewrite Em in E.
      destruct (String.length (Str.rstrip raw) =? 0)%nat; [|discriminate].
      inversion E; subst; exact Hinv. }
  rewrite (process_line_matched _ _ Em) in E.
  apply bind_ok_inv in E. destruct E as (d & Ed & E).
  apply bind_ok_inv in E. destruct E as (r & Er & E).
  inversion E; subst st'; clear E.
  destruct (tree_invariant_dst_record d Hinv) as [Hres Hnum].
  pose proof (input_resolved_set_key_value _ _ Hres Er) as Hres'.
  destruct Hinv as [Hg Ht].
  destruct d as [|a dk n]; simpl.
  - split; [exact Hres'|]. simpl. exact Ht.
  - split; [exact Hg|]. simpl. intros a' d' n' r' Eg.
    destruct (eq_dec (a, dk, n) (a', d', n')) as [Eq|Hne].
    + inversion Eq; subst a' d' n'. rewrite tree_get_set_eq in Eg.
      inversion Eg; subst r'. split; [exact Hres'|].
      intros Hkeep. destruct Hnum as [Hnum|Hk]; [|congruence].
      destruct g2 as [idx|]; [|discriminate Ed].
      assert (Hkey : Str.upper g1 <> "TRACKNUMBER").
      { unfold no_track_key in Hkeep. rewrite forallb_forall in Hkeep.
        specialize (Hkeep _ Hin). rewrite Em in Hkeep.
        apply eqb_false_neq. apply negb_true_iff. exact Hkeep. }
      eapply eq_trans; [eapply set_key_value_other_key; eassumption | exact Hnum].
    + rewrite tree_get_set_neq in Eg by exact Hne. exact (Ht _ _ _ _ Eg).
Qed.

End ParserFacts.

(* ================================================================== *)
(** ** Output path generator *)

Lemma sappend_assoc : forall a b c : string, ((a ++ b) ++ c = a ++ (b ++ c))%string.
Proof.
  intros a b c. induction a as [|x a IH]; simpl; [reflexivity | now rewrite IH].
Qed.

Lemma sappend_empty_r : forall a : string, (a ++ "" = a)%string.
Proof. intros a. induction a as [|x a IH]; simpl; [reflexivity | now rewrite IH]. Qed.

Section OutputPathFacts.
Variable truncate_filename : string -> result path.

Lemma text_or_absent_dmem : forall tags k,
  text_or_absent tags k = true ->
  match field_str tags k with
  | Some s => dmem k tags = true /\ dget k tags = Some (VStr s)
  | None => dmem k tags = false
  end.
Proof.
  intros tags k. unfold text_or_absent, field_str, dmem.
  destruct (dget k tags) as [[| s | n | p]|]; intros E; try discriminate; auto.
Qed.

(** The local [filename] is the name the specification describes. *)
Lemma gen_filename_spec : forall tags dp tp dv tv,
  dget "DISCNUMBER" tags = Some dv ->
  dget "TRACKNUMBER" tags = Some tv ->
  text_or_absent tags "TITLE" = true ->
  text_or_absent tags "ARTIST" = true ->
  gen_filename tags dp tp
  = Ok (spec_filename dv tv (field_str tags "TITLE") (field_str tags "ARTIST") dp tp).
Proof.
  intros tags dp tp dv tv Hd Ht Hti Har.
  unfold gen_filename, spec_filename. rewrite Hd, Ht. simpl.
  apply text_or_absent_dmem in Hti. apply text_or_absent_dmem in Har.
  destruct (field_str tags "TITLE") as [t|];
    destruct (field_str tags "ARTIST") as [a|].
  - destruct Hti as [M1 G1]. destruct Har as [M2 G2].
    rewrite M1, M2, G1, G2. simpl. rewrite !sappend_assoc. reflexivity.
  - destruct Hti as [M1 G1]. rewrite M1, Har, G1. simpl.
    rewrite !sappend_assoc. reflexivity.
  - destruct Har as [M2 G2]. rewrite Hti, M2, G2. simpl.
    rewrite !sappend_assoc. reflexivity.
  - rewrite Hti, Har. simpl. rewrite sappend_empty_r. reflexivity.
Qed.

(** C8, as the code has it: for a record with [ALBUM], [DISCNUMBER] and
    [TRACKNUMBER] entries, the name handed to the sanitizer is the
    specified filename with every slash replaced by an underscore,
    followed by the fixed extension; the path is the output directory,
    the album directory and the sanitized name. *)
Theorem C8_output_filename_layout :
  forall tags out_dir dp tp av dv tv,
  dget "ALBUM" tags = Some av ->
  album_value av = true ->
  dget "DISCNUMBER" tags = Some dv ->
  dget "TRACKNUMBER" tags = Some tv ->
  text_or_absent tags "TITLE" = true ->
  text_or_absent tags "ARTIST" = true ->
  gen_output_path truncate_filename tags out_dir dp tp
  = (file <- truncate_filename
               (Str.replace_char "/" "_"
                  (spec_filename dv tv (field_str tags "TITLE")
                                 (field_str tags "ARTIST") dp tp)
                ++ ".flac") ;;
     Ok (out_dir // PathLib.of_string (spec_album_dir av) // file)).
Proof.
  intros tags out_dir dp tp av dv tv Ha Hav Hd Ht Hti Har.
  unfold gen_output_path. rewrite Ha. simpl.
  erewrite gen_filename_spec by eassumption.
  destruct av; try discriminate; reflexivity.
Qed.

End OutputPathFacts.

(** C8 as the spec words it fails: [TRACKNUMBER[1]=] leaves a record that
    has [ALBUM] and [DISCNUMBER] entries but no track number, for which no
    filename is built. *)
Lemma C8_counterexample :
  exists t r,
    parse_trackinfo_meta Demo.resolve Demo.manifest_path Demo.input_map
                         ["TRACKNUMBER[1]="] = Ok t
    /\ tree_get None None 1 t = Some r
    /\ dmem "ALBUM" r = true
    /\ dmem "DISCNUMBER" r = true
    /\ gen_output_path Demo.keep_name r ["/"; "out"] 1 1 = Err KeyError.
Proof. eexists. eexists. repeat split; reflexivity. Qed.

Lemma C8_output_filename_layout_witness :
  gen_output_path Demo.keep_name Demo.track1 ["/"; "out"] 1 2
  = Ok ["/"; "out"; "Test"; "01. Z - A.flac"].
Proof.
  rewrite (@C8_output_filename_layout Demo.keep_name Demo.track1 ["/"; "out"] 1 2
             (VStr "Test") VNone (VInt 1));
    reflexivity.
Defined.

(** C10: the manifest [ALBUM[1]=] is accepted; its track is filed under
    the album key that is the empty string, not under the absent album;
    the [ALBUM] entry the record inherited is deleted; and
    [gen_output_path] raises [KeyError] on that record. *)
Theorem C10_empty_track_album_breaks_output_path :
  forall resolve trackinfo_path input_map truncate_filename out_dir dp tp,
  exists t r,
    parse_trackinfo_meta resolve trackinfo_path input_map ["ALBUM[1]="] = Ok t
    /\ tree_get (Some "") None 1 t = Some r
    /\ dget None t = None
    /\ dget "ALBUM" (new_track_record initial_global 1) = Some VNone
    /\ dget "ALBUM" r = None
    /\ gen_output_path truncate_filename r out_dir dp tp = Err KeyError.
Proof.
  intros. eexists. eexists. repeat split; reflexivity.
Qed.

(* ================================================================== *)
(** ** Padding calculator *)

Lemma floor_log10_fuel_bounds : forall fuel n,
  (0 < n)%N -> (n < 2 ^ N.of_nat fuel)%N ->
  (10 ^ floor_log10_fuel fuel n <= n < 10 ^ (floor_log10_fuel fuel n + 1))%N.
Proof.
  induction fuel as [|fuel IH]; intros n Hpos Hlt.
  - simpl in Hlt. lia.
  - cbn [floor_log10_fuel]. destruct (N.ltb_spec n 10) as [Hs|Hb].
    + simpl. lia.
    + assert (Hq : (0 < n / 10)%N).
      { apply N.div_str_pos. lia. }
      assert (Hq2 : (n / 10 < 2 ^ N.of_nat fuel)%N).
      { apply N.Div0.div_lt_upper_bound.
        rewrite Nat2N.inj_succ, N.pow_succ_r' in Hlt. lia. }
      specialize (IH _ Hq Hq2).
      set (k := floor_log10_fuel fuel (n / 10)) in *.
      pose proof (N.div_mod n 10 ltac:(lia)) as Hdm.
      pose proof (N.mod_lt n 10 ltac:(lia)) as Hm.
      replace (k + 1)%N with (N.succ k) in IH by lia.
      rewrite N.pow_succ_r' in IH.
      replace (1 + k)%N with (N.succ k) by lia.
      replace (N.succ k + 1)%N with (N.succ (N.succ k)) by lia.
      rewrite !N.pow_succ_r'.
      set (p := (10 ^ k)%N) in *. clearbody p. clear k Hlt Hq2.
      set (r := (n mod 10)%N) in *. clearbody r.
      set (q := (n / 10)%N) in *. clearbody q. lia.
Qed.

(** For [n >= 1] the model's logarithm is the exact one. *)
Lemma floor_log10_bounds : forall n,
  (0 < n)%N ->
  exists k, floor_log10 n = Ok k /\ (10 ^ k <= n < 10 ^ (k + 1))%N.
Proof.
  intros n Hpos. unfold floor_log10.
  destruct (N.eqb_spec n 0) as [E|_]; [lia|].
  eexists. split; [reflexivity|].
  apply floor_log10_fuel_bounds; auto.
  rewrite Nat2N.inj_succ, N2Nat.id.
  apply N.log2_spec. exact Hpos.
Qed.

Lemma str_of_N_fuel_length : forall fuel n acc,
  (n < 2 ^ N.of_nat fuel)%N -> (0 < fuel)%nat ->
  String.length (Str.str_of_N_fuel fuel n acc)
  = (String.length acc + 1 + N.to_nat (floor_log10_fuel fuel n))%nat.
Proof.
  induction fuel as [|fuel IH]; intros n acc Hlt Hf; [lia|].
  cbn [Str.str_of_N_fuel floor_log10_fuel].
  destruct (N.ltb_spec n 10) as [Hs|Hb].
  - simpl. lia.
  - assert (Hq2 : (n / 10 < 2 ^ N.of_nat fuel)%N).
    { apply N.Div0.div_lt_upper_bound.
      rewrite Nat2N.inj_succ, N.pow_succ_r' in Hlt. lia. }
    assert (Hfuel : (0 < fuel)%nat).
    { destruct fuel; [|lia]. simpl in Hq2.
      assert (0 < n / 10)%N by (apply N.div_str_pos; lia). lia. }
    rewrite (IH _ _ Hq2 Hfuel). simpl String.length. lia.
Qed.

(** For [n >= 1] the width the code computes is the digit count. *)
Lemma floor_log10_digit_count : forall n,
  (0 < n)%N ->
  (l <- floor_log10 n ;; Ok (l + 1)%N) = Ok (digit_count n).
Proof.
  intros n Hpos. unfold floor_log10, digit_count, Str.str_of_N.
  destruct (N.eqb_spec n 0) as [E|_]; [lia|]. cbn [bind].
  rewrite str_of_N_fuel_length.
  - cbn [String.length]. f_equal. lia.
  - rewrite Nat2N.inj_succ, N2Nat.id. apply N.log2_spec. exact Hpos.
  - lia.
Qed.

(** The width of a sequence whose maximum is at least 1 is the digit
    count of that maximum. *)
Lemma width_of_max_digit_count : forall xs m,
  py_max xs = Ok m -> (0 < m)%N -> width_of_max xs = Ok (digit_count m).
Proof.
  intros xs m Hm Hpos. unfold width_of_max. rewrite Hm. simpl bind.
  apply floor_log10_digit_count. exact Hpos.
Qed.

(** At 0 the logarithm is a domain error. *)
Lemma floor_log10_zero : floor_log10 0 = Err (ValueError "math domain error").
Proof. reflexivity. Qed.

(** Where C2 and the code part: the manifest [INPUT=in], [TITLE[0]=Intro]
    is accepted, its one track has number 0, whose digit count is 1, and
    [calc_padding] raises the domain error of the logarithm instead of
    returning that width; the run ends there. *)
Theorem C2_calc_padding_fails_at_zero :
  exists info,
    parse_trackinfo_meta Demo.resolve Demo.manifest_path Demo.input_map
                         ["INPUT=in"; "TITLE[0]=Intro"] = Ok info
    /\ dkeys (or_empty (dget None (or_empty (dget None info)))) = [0%N]
    /\ digit_count 0 = 1%N
    /\ calc_padding info = Err (ValueError "math domain error")
    /\ main Demo.fs [] Demo.manifest_path Demo.work_path
             ["INPUT=in"; "TITLE[0]=Intro"]
        = ([], Err (ValueError "math domain error")).
Proof. eexists. repeat split; reflexivity. Qed.

(* ================================================================== *)
(** ** Track mapper *)

Lemma first_error_app : forall (A : Type) (chk : A -> option exn) xs ys,
  first_error chk (xs ++ ys)
  = match first_error chk xs with
    | Some e => Some e
    | None => first_error chk ys
    end.
Proof.
  intros A chk xs ys. induction xs as [|x xs IH]; simpl; auto.
  destruct (chk x); auto.
Qed.

Lemma first_error_map : forall (A B : Type) (g : A -> B) (chk : B -> option exn) xs,
  first_error chk (map g xs) = first_error (fun x => chk (g x)) xs.
Proof.
  intros A B g chk xs. induction xs as [|x xs IH]; simpl; auto.
  destruct (chk (g x)); auto.
Qed.

Lemma first_error_flat_map : forall (A B : Type) (f : A -> list B)
  (chk : B -> option exn) xs,
  first_error chk (flat_map f xs) = first_error (fun x => first_error chk (f x)) xs.
Proof.
  intros A B f chk xs. induction xs as [|x xs IH]; simpl; auto.
  rewrite first_error_app, IH. destruct (first_error chk (f x)); auto.
Qed.

Lemma first_error_ext : forall (A : Type) (c1 c2 : A -> option exn) xs,
  (forall x, c1 x = c2 x) -> first_error c1 xs = first_error c2 xs.
Proof.
  intros A c1 c2 xs H. induction xs as [|x xs IH]; simpl; auto.
  rewrite H, IH. reflexivity.
Qed.

(** A loop whose body raises according to the item alone raises the
    first exception met in order, and completes when there is none. *)
Lemma for_each_first_error : forall (A S : Type) (body : S -> A -> result S)
  (chk : A -> option exn),
  (forall s x, match chk x with
               | Some e => body s x = Err e
               | None => is_ok (body s x) = true
               end) ->
  forall xs s, match first_error chk xs with
               | Some e => for_each body xs s = Err e
               | None => is_ok (for_each body xs s) = true
               end.
Proof.
  intros A S body chk Hb xs. induction xs as [|x xs IH]; intros s; simpl; auto.
  specialize (Hb s x). destruct (chk x) as [e|].
  - rewrite Hb. reflexivity.
  - destruct (body s x) as [s1|e1]; [|discriminate]. simpl. apply IH.
Qed.

(** Storing the outcome of a loop does not change whether it raised. *)
Lemma then_store_first_error : forall (S T : Type) (r : result S) (k : S -> T)
  (oe : option exn),
  match oe with
  | Some e => r = Err e
  | None => is_ok r = true
  end ->
  match oe with
  | Some e => (x <- r ;; Ok (k x)) = Err e
  | None => is_ok (x <- r ;; Ok (k x)) = true
  end.
Proof.
  intros S T r k [e|] H.
  - rewrite H. reflexivity.
  - destruct r; [reflexivity | discriminate].
Qed.

Lemma zfill_zero : forall s, Str.zfill 0 s = s.
Proof.
  intros [|c s]; unfold Str.zfill; simpl; auto.
  destruct (Ascii.eqb c "+" || Ascii.eqb c "-"); reflexivity.
Qed.

(** With the default paddings the identifier carries no padding. *)
Lemma track_id_to_string_default : forall a d n,
  track_id_to_string a d n 0 0 = plain_track_id a d n.
Proof.
  intros a d n. unfold track_id_to_string, plain_track_id, format_0d.
  simpl N.to_nat. rewrite !zfill_zero.
  destruct a as [s|]; destruct d as [m|]; simpl; auto.
  - destruct (String.eqb s ""); destruct (m =? 0)%N; reflexivity.
  - destruct (String.eqb s ""); reflexivity.
  - destruct (m =? 0)%N; reflexivity.
Qed.

Section TrackMapperFacts.
Variable iterdir : path -> result (list path).

Lemma map_one_track_error : forall a d acc nt,
  match leaf_error iterdir (a, d, fst nt, snd nt) with
  | Some e => map_one_track iterdir a d acc nt = Err e
  | None => is_ok (map_one_track iterdir a d acc nt) = true
  end.
Proof.
  intros a d acc [n tags]. unfold leaf_error, map_one_track. simpl.
  destruct (dget "INPUT" tags) as [[| s | m | dir]|]; simpl; auto.
  destruct (iterdir dir) as [entries|e]; simpl; auto.
  destruct (find_track_file n entries); simpl; auto.
Qed.

Lemma map_one_disc_error : forall a acc dt,
  match first_error (fun nt => leaf_error iterdir (a, fst dt, fst nt, snd nt)) (snd dt) with
  | Some e => map_one_disc iterdir a acc dt = Err e
  | None => is_ok (map_one_disc iterdir a acc dt) = true
  end.
Proof.
  intros a acc [d tracks]. unfold map_one_disc. cbn [fst snd].
  pose proof (for_each_first_error (map_one_track iterdir a d)
                (fun nt => leaf_error iterdir (a, d, fst nt, snd nt))
                (fun s x => map_one_track_error a d s x) tracks []) as H.
  apply then_store_first_error. exact H.
Qed.

Lemma map_one_album_error : forall acc ad,
  match first_error
          (fun dt => first_error
                       (fun nt => leaf_error iterdir (fst ad, fst dt, fst nt, snd nt))
                       (snd dt))
          (snd ad) with
  | Some e => map_one_album iterdir acc ad = Err e
  | None => is_ok (map_one_album iterdir acc ad) = true
  end.
Proof.
  intros acc [a discs]. unfold map_one_album. cbn [fst snd].
  pose proof (for_each_first_error (map_one_disc iterdir a)
                (fun dt => first_error
                             (fun nt => leaf_error iterdir (a, fst dt, fst nt, snd nt))
                             (snd dt))
                (fun s x => map_one_disc_error a s x) discs []) as H.
  apply then_store_first_error. exact H.
Qed.

(** [map_tracks] raises the exception of the first leaf, in iteration
    order, at which it raises, and returns when there is none. *)
Lemma map_tracks_first_error : forall info,
  match first_error (leaf_error iterdir) (leaves info) with
  | Some e => map_tracks iterdir info = Err e
  | None => is_ok (map_tracks iterdir info) = true
  end.
Proof.
  intros info. unfold map_tracks.
  pose proof (for_each_first_error (map_one_album iterdir)
                (fun ad : album_key * discs_of =>
                     first_error
                       (fun dt : disc_key * tracks_of =>
                          first_error
                            (fun nt : N * record =>
                               leaf_error iterdir (fst ad, fst dt, fst nt, snd nt))
                            (snd dt))
                       (snd ad))
                (fun s x => map_one_album_error s x) info []) as H.
  assert (E : first_error (leaf_error iterdir) (leaves info)
              = first_error
                  (fun ad : album_key * discs_of =>
                     first_error
                       (fun dt : disc_key * tracks_of =>
                          first_error
                            (fun nt : N * record =>
                               leaf_error iterdir (fst ad, fst dt, fst nt, snd nt))
                            (snd dt))
                       (snd ad))
                  info).
  { unfold leaves. rewrite first_error_flat_map.
    apply first_error_ext. intros ad.
    rewrite first_error_flat_map.
    apply first_error_ext. intros dt.
    rewrite first_error_map. reflexivity. }
  rewrite E. exact H.
Qed.

(** C6, as the code has it: at the first track, in iteration order, whose
    resolved [INPUT] directory has no matching entry, [map_tracks] raises
    the "could not find file" error, and the message names the track
    without any zero padding. *)
Theorem C6_missing_track_error_is_unpadded :
  forall info before a d n tags after dir entries,
  leaves info = before ++ (a, d, n, tags) :: after ->
  first_error (leaf_error iterdir) before = None ->
  dget "INPUT" tags = Some (VPath dir) ->
  iterdir dir = Ok entries ->
  find_track_file n entries = None ->
  map_tracks iterdir info
  = Err (FileNotFoundError ("Could not find file for track " ++ plain_track_id a d n)).
Proof.
  intros info before a d n tags after dir entries Hl Hb Hi Hd Hf.
  pose proof (map_tracks_first_error info) as H.
  rewrite Hl, first_error_app, Hb in H. simpl in H.
  unfold map_one_track in H. simpl in H. rewrite Hi in H. simpl in H.
  rewrite Hd in H. simpl in H. rewrite Hf in H.
  rewrite track_id_to_string_default in H. exact H.
Qed.

End TrackMapperFacts.

(** C6 as the spec words it fails: with tracks 1 and 10 on disc 1 of
    album A the computed track width is 2, yet the error for the missing
    track 1 names it [#1.1], not [#1.01]. *)
Lemma C6_counterexample :
  parse_trackinfo_meta Demo.resolve Demo.manifest_path Demo.input_map
                       Demo.two_tracks_manifest = Ok Demo.two_tracks
  /\ calc_padding Demo.two_tracks
     = Ok ([(Some "A", 1%N)], [(Some "A", [(Some 1%N, 2%N)])])
  /\ find_track_file 1 [Demo.plain_dir ++ ["10 - y.flac"]] = None
  /\ map_tracks Demo.iterdir Demo.two_tracks
     = Err (FileNotFoundError
              ("Could not find file for track " ++ quote ++ "A" ++ quote ++ ":#1.1"))
  /\ map_tracks Demo.iterdir Demo.two_tracks
     <> Err (FileNotFoundError
               ("Could not find file for track "
                ++ track_id_to_string (Some "A") (Some 1%N) 1 1 2)).
Proof.
  repeat split; try reflexivity.
  vm_compute. intros E. discriminate E.
Qed.

Lemma C6_missing_track_error_is_unpadded_witness :
  map_tracks Demo.iterdir Demo.two_tracks
  = Err (FileNotFoundError
           ("Could not find file for track " ++ plain_track_id (Some "A") (Some 1%N) 1)).
Proof.
  apply (@C6_missing_track_error_is_unpadded Demo.iterdir Demo.two_tracks
           [] (Some "A") (Some 1%N) 1%N (Demo.tags_of_track 1 "x")
           [(Some "A", Some 1%N, 10%N, Demo.tags_of_track 10 "y")]
           Demo.plain_dir [Demo.plain_dir ++ ["10 - y.flac"]]);
    reflexivity.
Defined.

(* ================================================================== *)
(** ** Invalid disc numbers *)

Section DiscNumberFacts.
Variable resolve : path -> path.
Variable trackinfo_path : path.
Variable input_map : dict path path.

(** The assignment of a non-numeric [DISCNUMBER] raises whatever the
    record. *)
Lemma set_key_value_bad_discnumber : forall value r,
  value <> "" -> Str.isdigit value = false ->
  is_ok (set_key_value resolve trackinfo_path input_map "DISCNUMBER" value r) = false.
Proof.
  intros value r Hne Hd. unfold set_key_value.
  destruct value as [|c v]; [congruence|].
  simpl String.length. simpl Nat.eqb. simpl andb.
  unfold assign. simpl String.eqb. rewrite Hd. reflexivity.
Qed.

Lemma track_location_bad_discnumber : forall g value,
  Str.isdigit value = false ->
  is_ok (track_location g "DISCNUMBER" value) = false.
Proof.
  intros g value Hd. unfold track_location. simpl String.eqb.
  destruct (dget "ALBUM" g) as [av|]; simpl; auto.
  destruct (album_of_value av); simpl; auto.
  rewrite Hd. reflexivity.
Qed.

(** A line with a bad [DISCNUMBER] makes the loop body raise in every
    state. *)
Lemma process_line_bad_discnumber : forall st raw,
  bad_discnumber_line raw = true ->
  is_ok (process_line resolve trackinfo_path input_map st raw) = false.
Proof.
  intros st raw Hbad. unfold bad_discnumber_line in Hbad.
  destruct (TRACKINFO_RE (Str.rstrip raw)) as [[[g1 g2] g3]|] eqn:Em;
    [|discriminate].
  apply andb_prop in Hbad. destruct Hbad as [Hbad Hd].
  apply andb_prop in Hbad. destruct Hbad as [Hk Hne].
  apply String.eqb_eq in Hk.
  apply negb_true_iff in Hne. apply String.eqb_neq in Hne.
  apply negb_true_iff in Hd.
  rewrite (process_line_matched _ _ _ _ _ Em). rewrite Hk.
  destruct g2 as [idx|]; simpl.
  - assert (Hl : is_ok (track_location (global_meta st) "DISCNUMBER"
                                        (Str.strip g3)) = false)
      by (apply track_location_bad_discnumber; exact Hd).
    destruct (track_location (global_meta st) "DISCNUMBER" (Str.strip g3));
      [discriminate | reflexivity].
  - assert (Hs : is_ok (set_key_value resolve trackinfo_path input_map
                           "DISCNUMBER" (Str.strip g3) (global_meta st)) = false)
      by (apply set_key_value_bad_discnumber; assumption).
    destruct (set_key_value resolve trackinfo_path input_map "DISCNUMBER"
                (Str.strip g3) (global_meta st)); [discriminate | reflexivity].
Qed.

Lemma parse_bad_discnumber : forall lines raw,
  In raw lines -> bad_discnumber_line raw = true ->
  exists e, parse_trackinfo_meta resolve trackinfo_path input_map lines = Err e.
Proof.
  intros lines raw Hin Hbad. unfold parse_trackinfo_meta, parse_lines.
  assert (H : is_ok (for_each (process_line resolve trackinfo_path input_map)
                              lines initial_pstate) = false).
  { apply for_each_raises with (x := raw); [exact Hin|].
    intros s. apply process_line_bad_discnumber. exact Hbad. }
  destruct (for_each (process_line resolve trackinfo_path input_map)
                     lines initial_pstate); [discriminate | simpl; eauto].
Qed.

End DiscNumberFacts.

(* ================================================================== *)
(** ** Cover resolver *)

Lemma existsb_eqb_dec_In : forall (x : path) s,
  existsb (eqb_dec x) s = true <-> In x s.
Proof.
  intros x s. rewrite existsb_exists. split.
  - intros (y & Hin & E). apply eqb_dec_true in E. subst. exact Hin.
  - intros Hin. exists x. split; [exact Hin|]. apply eqb_dec_true. reflexivity.
Qed.

Lemma set_add_In_same : forall x s, In x (set_add x s).
Proof.
  intros x s. unfold set_add. destruct (existsb (eqb_dec x) s) eqn:E.
  - apply existsb_eqb_dec_In. exact E.
  - apply in_or_app. right. left. reflexivity.
Qed.

Lemma set_add_In_old : forall x y s, In y s -> In y (set_add x s).
Proof.
  intros x y s Hin. unfold set_add. destruct (existsb (eqb_dec x) s); auto.
  apply in_or_app. left. exact Hin.
Qed.

Section CoverFacts.
Context {W : Type} (fs : FileSystem W).





End CoverFacts.

(* ================================================================== *)
(** ** Archive resolver *)

Section ArchiveFacts.
Context {W : Type} (fs : FileSystem W).
Variable tmp_dir : path.

(** The second loop's body appends the node with the effective root the
    specification describes. *)
Lemma expand_node_effective_root : forall parent new_nodes w head tails,
  expand_node fs tmp_dir parent (new_nodes, w) (head, tails)
  = ('(root, w1) <- effective_root fs tmp_dir w (parent // head) ;;
     Ok (new_nodes ++ [(parent // head, root, tails)], w1)).
Proof.
  intros parent new_nodes w head tails. unfold expand_node, effective_root.
  destruct (fs_is_file fs w (parent // head)
            && str_in (Str.lower (PathLib.suffix (parent // head))) ARCHIVE_EXTS);
    [|reflexivity].
  destruct (expand_archive fs w (parent // head) tmp_dir) as [[ap w1]|e];
    [|reflexivity].
  simpl. destruct (fs_iterdir fs w1 ap) as [files|e]; [|reflexivity].
  simpl. destruct files as [|only [|second more]]; simpl; try reflexivity.
  destruct (fs_is_dir fs w1 only); reflexivity.
Qed.

Lemma last_part_join : forall parent h, last_part (parent // [h]) = Ok h.
Proof.
  intros parent h. unfold PathLib.join, PathLib.is_absolute.
  destruct (PathLib.is_root h); [reflexivity|].
  unfold last_part. destruct (parent ++ [h]) eqn:E.
  - destruct parent; discriminate.
  - rewrite <- E. rewrite last_last. reflexivity.
Qed.

Lemma depth_single : forall p : path, depth [p] = List.length p.
Proof. intros p. unfold depth. simpl. apply Nat.max_0_r. Qed.

(** One level of the recursion, when the fuel allows it. *)
Lemma expand_fuel_step : forall fuel w paths parent,
  expand_archives_in_tree_fuel fs (S fuel) w paths tmp_dir parent
  = (nodes <- for_each add_node paths [] ;;
     '(new_nodes, w1) <- for_each (expand_node fs tmp_dir parent) nodes ([], w) ;;
     for_each
       (assemble_node
          (fun w2 tails real_path =>
             expand_archives_in_tree_fuel fs fuel w2 tails tmp_dir real_path))
       new_nodes ([], w1)).
Proof. reflexivity. Qed.

(** The three loops on a single path [h :: rest]. *)
Lemma expand_single_step : forall fuel w h rest parent,
  expand_archives_in_tree_fuel fs (S fuel) w [h :: rest] tmp_dir parent
  = ('(root, w1) <- effective_root fs tmp_dir w (parent // [h]) ;;
     match rest with
     | [] => Ok ([([h], root)], w1)
     | _ =>
         '(sub, w2) <- expand_archives_in_tree_fuel fs fuel w1 [rest] tmp_dir root ;;
         Ok (fold_left (fun r (bm : path * path) => dset ([h] // fst bm) (snd bm) r)
                       sub [], w2)
     end).
Proof.
  intros fuel w h rest parent. rewrite expand_fuel_step.
  simpl for_each at 1. cbn [bind].
  cbn [for_each set_add existsb app]. rewrite expand_node_effective_root.
  destruct (effective_root fs tmp_dir w (parent // [h])) as [[root w1]|e];
    [|reflexivity].
  cbn [bind app for_each].
  unfold assemble_node. unfold set_mem, set_remove.
  destruct rest as [|h2 rest'].
  - simpl. rewrite last_part_join. reflexivity.
  - simpl existsb. cbv beta iota. cbn [bind].
    set (R := expand_archives_in_tree_fuel fs fuel w1 [h2 :: rest'] tmp_dir root).
    match goal with |- bind (bind ?X _) _ = _ => change X with R end.
    destruct R as [[sub w2]|e]; [|reflexivity].
    cbn [bind]. rewrite last_part_join. reflexivity.
Qed.

(** *** The fuel is enough *)

Lemma for_each_ext : forall (A S : Type) (b1 b2 : S -> A -> result S) xs s,
  (forall s x, In x xs -> b1 s x = b2 s x) ->
  for_each b1 xs s = for_each b2 xs s.
Proof.
  intros A S b1 b2 xs. induction xs as [|x xs IH]; intros s H; simpl; auto.
  rewrite (H s x (or_introl eq_refl)).
  destruct (b2 s x); simpl; auto.
  apply IH. intros s0 y Hy. apply H. right. exact Hy.
Qed.

Lemma In_dset : forall (K V : Type) `{EqDec K} (k k' : K) (v v' : V) d,
  In (k, v) (dset k' v' d) -> v = v' \/ In (k, v) d.
Proof.
  intros K V H k k' v v' d. induction d as [|[k0 v0] d IH]; simpl.
  - intros [E|[]]. left. congruence.
  - destruct (eq_dec k' k0); simpl.
    + intros [E|Hin]; [left; congruence | right; right; exact Hin].
    + intros [E|Hin]; [right; left; exact E|].
      destruct (IH Hin); auto.
Qed.

Lemma In_set_add : forall x y s, In y (set_add x s) -> y = x \/ In y s.
Proof.
  intros x y s. unfold set_add. destruct (existsb (eqb_dec x) s); auto.
  intros Hin. apply in_app_or in Hin. destruct Hin as [Hin|[E|[]]]; auto.
Qed.

Lemma In_set_remove : forall x y s, In y (set_remove x s) -> In y s.
Proof. intros x y s Hin. unfold set_remove in Hin. apply filter_In in Hin. tauto. Qed.

Lemma depth_cons : forall q paths,
  depth (q :: paths) = Nat.max (List.length q) (depth paths).
Proof. reflexivity. Qed.

Lemma length_le_depth : forall p paths, In p paths -> (List.length p <= depth paths)%nat.
Proof.
  intros p paths. induction paths as [|q paths IH]; intros Hin.
  - contradiction.
  - rewrite depth_cons. destruct Hin as [->|Hin]; [lia|]. specialize (IH Hin). lia.
Qed.

Lemma depth_lt : forall paths n,
  (0 < n)%nat -> (forall p, In p paths -> (List.length p < n)%nat) ->
  (depth paths < n)%nat.
Proof.
  intros paths n Hn. induction paths as [|q paths IH]; intros H.
  - exact Hn.
  - assert (List.length q < n)%nat by (apply H; left; reflexivity).
    assert (depth paths < n)%nat by (apply IH; intros; apply H; right; assumption).
    rewrite depth_cons. lia.
Qed.

(** Every tail the first loop files is a declared path without its
    first part. *)
Lemma add_node_tails : forall paths nodes0 nodes,
  for_each add_node paths nodes0 = Ok nodes ->
  forall head tails t, In (head, tails) nodes -> In t tails ->
  (exists h, In (h :: t) paths)
  \/ (exists head0 tails0, In (head0, tails0) nodes0 /\ In t tails0).
Proof.
  induction paths as [|p paths IH]; intros nodes0 nodes E head tails t Hn Ht;
    simpl in E.
  - inversion E; subst. right. eauto.
  - destruct p as [|h t0]; [discriminate|]. simpl in E.
    destruct (IH _ _ E _ _ _ Hn Ht) as [(h' & Hin)|(head0 & tails0 & H0 & Ht0)].
    + left. exists h'. right. exact Hin.
    + apply In_dset in H0. destruct H0 as [Eq|Hold].
      * subst tails0. apply In_set_add in Ht0. destruct Ht0 as [->|Ht0].
        { left. exists h. left. reflexivity. }
        { destruct (dget [h] nodes0) as [s|] eqn:Eg; [|contradiction].
          right. exists [h], s. split; [apply dget_In; exact Eg | exact Ht0]. }
      * right. eauto.
Qed.

(** The second loop keeps the tails of the nodes. *)
Lemma expand_node_tails : forall parent nodes acc0 w new_nodes w1,
  for_each (expand_node fs tmp_dir parent) nodes (acc0, w) = Ok (new_nodes, w1) ->
  forall stub real tails, In (stub, real, tails) new_nodes ->
  In (stub, real, tails) acc0 \/ exists head, In (head, tails) nodes.
Proof.
  intros parent nodes. induction nodes as [|[head tails0] nodes IH];
    intros acc0 w new_nodes w1 E stub real tails Hin; cbn [for_each] in E.
  - inversion E; subst. left. exact Hin.
  - rewrite expand_node_effective_root in E.
    destruct (effective_root fs tmp_dir w (parent // head)) as [[root w0]|e];
      [|discriminate].
    cbn [bind] in E. destruct (IH _ _ _ _ E _ _ _ Hin) as [Hacc|(hd0 & Hn)].
    + apply in_app_or in Hacc. destruct Hacc as [Hacc|[Eq|[]]].
      * left. exact Hacc.
      * inversion Eq; subst. right. exists head. left. reflexivity.
    + right. exists hd0. right. exact Hn.
Qed.

(** The third loop's body does not look at how much fuel the recursive
    call has when both amounts are enough for the node's tails. *)
Lemma assemble_node_ext :
  forall (rec1 rec2 : W -> list path -> path -> result (dict path path * W))
         acc stub real tails,
  (forall w tails1, tails1 <> [] -> (forall t, In t tails1 -> In t tails) ->
     rec1 w tails1 real = rec2 w tails1 real) ->
  assemble_node rec1 acc (stub, real, tails)
  = assemble_node rec2 acc (stub, real, tails).
Proof.
  intros rec1 rec2 [ret w] stub real tails H. unfold assemble_node.
  destruct (if set_mem [] tails
            then l <- last_part stub ;; Ok (dset [l] real ret)
            else Ok ret) as [ret1|e]; [|reflexivity].
  cbn [bind].
  assert (Hsub : forall t,
             In t (if set_mem [] tails then set_remove [] tails else tails) ->
             In t tails).
  { intros t. destruct (set_mem [] tails); auto. apply In_set_remove. }
  destruct (if set_mem [] tails then set_remove [] tails else tails)
    as [|t1 ts] eqn:Et; [reflexivity|].
  rewrite (H w (t1 :: ts)); [reflexivity | discriminate | exact Hsub].
Qed.

Lemma expand_fuel_enough : forall fuel1 fuel2 w paths parent,
  (depth paths < fuel1)%nat -> (depth paths < fuel2)%nat ->
  expand_archives_in_tree_fuel fs fuel1 w paths tmp_dir parent
  = expand_archives_in_tree_fuel fs fuel2 w paths tmp_dir parent.
Proof.
  induction fuel1 as [|f1 IH]; intros fuel2 w paths parent H1 H2; [lia|].
  destruct fuel2 as [|f2]; [lia|].
  rewrite !expand_fuel_step.
  destruct (for_each add_node paths []) as [nodes|e] eqn:En; [|reflexivity].
  cbn [bind].
  destruct (for_each (expand_node fs tmp_dir parent) nodes ([], w))
    as [[new_nodes w1]|e] eqn:Ex; [|reflexivity].
  cbn [bind].
  apply for_each_ext. intros s [[stub real] tails] Hin.
  apply assemble_node_ext. intros w2 tails1 Hne Hsub.
  assert (Hlen : forall t, In t tails1 -> (S (List.length t) <= depth paths)%nat).
  { intros t Ht. apply Hsub in Ht.
    destruct (@expand_node_tails parent nodes [] w new_nodes w1 Ex
                stub real tails Hin) as [[]|(head & Hn)].
    destruct (@add_node_tails paths [] nodes En head tails t Hn Ht)
      as [(h & Hp)|(h0 & t0 & [] & _)].
    apply length_le_depth in Hp. exact Hp. }
  destruct tails1 as [|t1 ts]; [congruence|].
  pose proof (Hlen t1 (or_introl eq_refl)) as Ht1.
  apply IH; apply depth_lt; try lia;
    intros p Hp; specialize (Hlen p Hp); lia.
Qed.

(** [expand_archives_in_tree] satisfies the recursive equation of the
    source function, with no fuel in sight. *)
Lemma expand_archives_in_tree_unfold : forall w paths parent,
  expand_archives_in_tree fs w paths tmp_dir parent
  = (nodes <- for_each add_node paths [] ;;
     '(new_nodes, w1) <- for_each (expand_node fs tmp_dir parent) nodes ([], w) ;;
     for_each
       (assemble_node
          (fun w2 tails real_path =>
             expand_archives_in_tree fs w2 tails tmp_dir real_path))
       new_nodes ([], w1)).
Proof.
  intros w paths parent. unfold expand_archives_in_tree at 1.
  rewrite expand_fuel_step.
  destruct (for_each add_node paths []) as [nodes|e] eqn:En; [|reflexivity].
  cbn [bind].
  destruct (for_each (expand_node fs tmp_dir parent) nodes ([], w))
    as [[new_nodes w1]|e] eqn:Ex; [|reflexivity].
  cbn [bind].
  apply for_each_ext. intros s [[stub real] tails] Hin.
  apply assemble_node_ext. intros w2 tails1 Hne Hsub.
  unfold expand_archives_in_tree. apply expand_fuel_enough; [|lia].
  assert (Hlen : forall t, In t tails1 -> (S (List.length t) <= depth paths)%nat).
  { intros t Ht. apply Hsub in Ht.
    destruct (@expand_node_tails parent nodes [] w new_nodes w1 Ex
                stub real tails Hin) as [[]|(head & Hn)].
    destruct (@add_node_tails paths [] nodes En head tails t Hn Ht)
      as [(h & Hp)|(h0 & t0 & [] & _)].
    apply length_le_depth in Hp. exact Hp. }
  destruct tails1 as [|t1 ts]; [congruence|].
  apply depth_lt.
  - specialize (Hlen t1 (or_introl eq_refl)). lia.
  - intros p Hp. specialize (Hlen p Hp). lia.
Qed.

End ArchiveFacts.


(* ================================================================== *)
(** * Further properties *)

(** ** Dictionaries with unique keys *)

Section DictMore.
Context {K V : Type} `{EqDec K}.
Implicit Types (k : K) (v : V) (d : dict K V).

Lemma In_dset_inv : forall k k' v v' d,
  In (k, v) (dset k' v' d) -> (k = k' /\ v = v') \/ In (k, v) d.
Proof.
  intros k k' v v' d. induction d as [|[k0 v0] d IH]; simpl.
  - intros [E|[]]. left. inversion E. auto.
  - destruct (eq_dec k' k0) as [E0|N0]; simpl.
    + intros [E|Hin]; [left; inversion E; subst; auto | right; right; exact Hin].
    + intros [E|Hin]; [right; left; exact E|].
      destruct (IH Hin) as [L|R]; auto.
Qed.

Lemma dkeys_dset : forall k v d,
  dkeys (dset k v d) = if dmem k d then dkeys d else dkeys d ++ [k].
Proof.
  intros k v d. unfold dmem. induction d as [|[k0 v0] d IH]; simpl; auto.
  destruct (eq_dec k k0) as [E|N]; simpl; auto.
  rewrite IH. destruct (dget k d); reflexivity.
Qed.

Lemma dmem_In_dkeys : forall k d, dmem k d = true <-> In k (dkeys d).
Proof.
  intros k d. unfold dmem. induction d as [|[k0 v0] d IH]; simpl.
  - split; [discriminate | contradiction].
  - destruct (eq_dec k k0) as [E|N].
    + split; auto.
    + rewrite IH. split; auto. intros [E|Hin]; [congruence | exact Hin].
Qed.

Lemma NoDup_dkeys_dset : forall k v d,
  NoDup (dkeys d) -> NoDup (dkeys (dset k v d)).
Proof.
  intros k v d Hnd. rewrite dkeys_dset. destruct (dmem k d) eqn:Em; auto.
  apply NoDup_app; auto.
  - constructor; [intros [] | constructor].
  - intros x Hx [E|[]]. subst x.
    apply dmem_In_dkeys in Hx. congruence.
Qed.

Lemma dset_not_nil : forall k v d, dset k v d <> [].
Proof.
  intros k v [|[k0 v0] d]; simpl; [discriminate|].
  destruct (eq_dec k k0); discriminate.
Qed.

(** With unique keys, membership and lookup say the same. *)
Lemma In_dget_NoDup : forall k v d,
  NoDup (dkeys d) -> In (k, v) d -> dget k d = Some v.
Proof.
  intros k v d. induction d as [|[k0 v0] d IH]; simpl; intros Hnd Hin.
  - contradiction.
  - inversion Hnd as [|x l Hnot Hnd']; subst.
    destruct (eq_dec k k0) as [E|N].
    + subst k0. destruct Hin as [E|Hin]; [congruence|].
      exfalso. apply Hnot. unfold dkeys. apply in_map_iff.
      exists (k, v). auto.
    + destruct Hin as [E|Hin]; [congruence|]. auto.
Qed.

End DictMore.

(* ================================================================== *)
(** ** The parser keeps its tree well formed *)

Lemma tree_wf_empty : tree_wf [].
Proof.
  split; [constructor|]. intros a discs [].
Qed.

Lemma or_empty_dget_wf : forall (K V : Type) `{EqDec K} (k : K) (d : dict K (dict K V))
  (P : dict K V -> Prop),
  P [] -> (forall x, In (k, x) d -> P x) -> P (or_empty (dget k d)).
Proof.
  intros K V H k d P Hnil Hin. destruct (dget k d) as [x|] eqn:E; simpl; auto.
  apply Hin. apply dget_In. exact E.
Qed.

Lemma tree_set_wf : forall a d n r t, tree_wf t -> tree_wf (tree_set a d n r t).
Proof.
  intros a d n r t [Hnd Hall]. unfold tree_set. split.
  - apply NoDup_dkeys_dset. exact Hnd.
  - intros a' discs' Hin. apply In_dset_inv in Hin.
    destruct Hin as [[-> ->]|Hin]; [|exact (Hall _ _ Hin)].
    assert (Hdiscs : NoDup (dkeys (or_empty (dget a t)))
                     /\ forall d0 tracks, In (d0, tracks) (or_empty (dget a t)) ->
                          tracks <> [] /\ NoDup (dkeys tracks)).
    { destruct (dget a t) as [discs|] eqn:E; simpl.
      - apply dget_In in E. destruct (Hall _ _ E) as (_ & H1 & H2). auto.
      - split; [constructor | intros ? ? []]. }
    destruct Hdiscs as [Hd1 Hd2].
    split; [apply dset_not_nil|]. split; [apply NoDup_dkeys_dset; exact Hd1|].
    intros d0 tracks Hin. apply In_dset_inv in Hin.
    destruct Hin as [[-> ->]|Hin]; [|exact (Hd2 _ _ Hin)].
    split; [apply dset_not_nil|]. apply NoDup_dkeys_dset.
    destruct (dget d (or_empty (dget a t))) as [tracks|] eqn:E; simpl.
    + apply dget_In in E. exact (proj2 (Hd2 _ _ E)).
    + constructor.
Qed.

Section ParserMore.
Variable resolve : path -> path.
Variable trackinfo_path : path.
Variable input_map : dict path path.

Lemma process_line_wf : forall st raw st',
  tree_wf (track_meta st) ->
  process_line resolve trackinfo_path input_map st raw = Ok st' ->
  tree_wf (track_meta st').
Proof.
  intros st raw st' Hwf E.
  destruct (TRACKINFO_RE (Str.rstrip raw)) as [[[g1 g2] g3]|] eqn:Em.
  - rewrite (process_line_matched _ _ _ _ _ Em) in E.
    apply bind_ok_inv in E. destruct E as (d & Ed & E).
    apply bind_ok_inv in E. destruct E as (r & Er & E).
    inversion E; subst st'. destruct d as [|a dk n]; simpl; auto.
    apply tree_set_wf. exact Hwf.
  - unfold process_line in E. rewrite Em in E.
    destruct (String.length (Str.rstrip raw) =? 0)%nat; [|discriminate].
    inversion E; subst; exact Hwf.
Qed.

(** In the tree of an accepted manifest every album has a disc, every
    disc has a track, and no key occurs twice at any level. *)
Theorem parsed_tree_wf : forall lines t,
  parse_trackinfo_meta resolve trackinfo_path input_map lines = Ok t ->
  tree_wf t.
Proof.
  intros lines t E. unfold parse_trackinfo_meta in E.
  apply bind_ok_inv in E. destruct E as (st & Est & E). inversion E; subst t.
  apply (@for_each_invariant _ _ (process_line resolve trackinfo_path input_map)
           (fun s => tree_wf (track_meta s)) lines initial_pstate st).
  - intros s x s' _ Hs Hx. eapply process_line_wf; eauto.
  - apply tree_wf_empty.
  - exact Est.
Qed.

(** What [track_location] tells about the global record it read. *)
Lemma track_location_inv : forall g key value a dk,
  track_location g key value = Ok (a, dk) ->
  (key = "ALBUM" -> a = Some value)
  /\ (key <> "ALBUM" -> dget "ALBUM" g = Some (value_of_album a))
  /\ (key = "DISCNUMBER" ->
        dk = Some (Str.int value) /\ Str.isdigit value = true)
  /\ (key <> "DISCNUMBER" -> dget "DISCNUMBER" g = Some (value_of_disc dk)).
Proof.
  intros g key value a dk E. unfold track_location in E.
  destruct (String.eqb key "ALBUM") eqn:Ka.
  - apply String.eqb_eq in Ka. subst key.
    destruct (dget "DISCNUMBER" g) as [dv|]; [|discriminate]. simpl in E.
    destruct dv; simpl in E; try discriminate; inversion E; subst;
      repeat split; intros; try congruence; try discriminate; reflexivity.
  - apply String.eqb_neq in Ka.
    destruct (String.eqb key "DISCNUMBER") eqn:Kd.
    + apply String.eqb_eq in Kd. subst key.
      destruct (dget "ALBUM" g) as [av|]; [|discriminate]. simpl in E.
      destruct av; simpl in E; try discriminate;
        destruct (Str.isdigit value) eqn:Ed; simpl in E; try discriminate;
        inversion E; subst; repeat split; intros; try congruence; reflexivity.
    + apply String.eqb_neq in Kd.
      destruct (dget "ALBUM" g) as [av|]; [|discriminate]. simpl in E.
      destruct av; simpl in E; try discriminate;
        (destruct (dget "DISCNUMBER" g) as [dv|]; [|discriminate]);
        simpl in E; destruct dv; simpl in E; try discriminate;
        inversion E; subst; repeat split; intros; try congruence; reflexivity.
Qed.

Lemma new_track_record_other : forall g n k,
  k <> "TRACKNUMBER" -> dget k (new_track_record g n) = dget k g.
Proof.
  intros g n k Hne. unfold new_track_record. apply dget_dset_neq. congruence.
Qed.

(** What storing under [ALBUM] leaves in the [ALBUM] entry. *)
Lemma set_key_value_album : forall value r r',
  set_key_value resolve trackinfo_path input_map "ALBUM" value r = Ok r' ->
  dget "ALBUM" r' = Some (VStr value)
  \/ (value = "" /\ dget "ALBUM" r' = None).
Proof.
  intros value r r' E. unfold set_key_value in E.
  destruct ((String.length value =? 0)%nat && dmem "ALBUM" r) eqn:Ec.
  - inversion E. right. apply andb_prop in Ec. destruct Ec as [El _].
    split; [|apply dget_ddel_eq].
    destruct value; [reflexivity | discriminate].
  - unfold assign in E. simpl String.eqb in E. inversion E.
    left. apply dget_dset_eq.
Qed.

Lemma set_key_value_discnumber : forall value r r',
  Str.isdigit value = true ->
  set_key_value resolve trackinfo_path input_map "DISCNUMBER" value r = Ok r' ->
  dget "DISCNUMBER" r' = Some (VInt (Str.int value)).
Proof.
  intros value r r' Hd E. unfold set_key_value in E.
  destruct value as [|c v]; [discriminate|].
  simpl String.length in E. simpl Nat.eqb in E. simpl andb in E.
  unfold assign in E. simpl String.eqb in E. rewrite Hd in E. simpl in E.
  inversion E. apply dget_dset_eq.
Qed.

Lemma process_line_leaves_agree : forall st raw st',
  leaves_agree st ->
  process_line resolve trackinfo_path input_map st raw = Ok st' ->
  leaves_agree st'.
Proof.
  intros st raw st' Hinv E.
  destruct (TRACKINFO_RE (Str.rstrip raw)) as [[[g1 g2] g3]|] eqn:Em.
  2:{ unfold process_line in E. rewrite Em in E.
      destruct (String.length (Str.rstrip raw) =? 0)%nat; [|discriminate].
      inversion E; subst; exact Hinv. }
  rewrite (process_line_matched _ _ _ _ _ Em) in E.
  apply bind_ok_inv in E. destruct E as (d & Ed & E).
  apply bind_ok_inv in E. destruct E as (r & Er & E).
  inversion E; subst st'; clear E.
  destruct d as [|a dk n]; [exact Hinv|].
  destruct g2 as [idx|]; [|discriminate Ed]. simpl in Ed.
  apply bind_ok_inv in Ed. destruct Ed as ([a0 dk0] & Eloc & Ed).
  inversion Ed; subst a0 dk0 n; clear Ed.
  destruct (track_location_inv _ _ _ Eloc) as (La & Lna & Ld & Lnd).
  set (key := Str.upper g1) in *. set (value := Str.strip g3) in *.
  intros a' d' n' r' Eg. simpl in Eg.
  destruct (eq_dec (a, dk, Str.int idx) (a', d', n')) as [Eq|Hne].
  2:{ rewrite tree_get_set_neq in Eg by exact Hne. exact (Hinv _ _ _ _ Eg). }
  inversion Eq; subst a' d' n'. rewrite tree_get_set_eq in Eg.
  inversion Eg; subst r'; clear Eg Eq.
  (* the record [dst_dict] was bound to agrees with the keys, except for
     the field the line is about to store *)
  assert (Hr0 : (key <> "DISCNUMBER" ->
                   dget "DISCNUMBER" (dst_record st (DTrack a dk (Str.int idx)))
                   = Some (value_of_disc dk))
                /\ (key <> "ALBUM" ->
                      dget "ALBUM" (dst_record st (DTrack a dk (Str.int idx)))
                      = Some (value_of_album a)
                      \/ (a = Some ""
                          /\ dget "ALBUM" (dst_record st (DTrack a dk (Str.int idx)))
                             = None))).
  { simpl. destruct (tree_get a dk (Str.int idx) (track_meta st)) as [r0|] eqn:E0.
    - destruct (Hinv _ _ _ _ E0) as [H1 H2]. split; auto.
    - split; intros Hk.
      + rewrite new_track_record_other by discriminate. auto.
      + left. rewrite new_track_record_other by discriminate. auto. }
  destruct Hr0 as [Hd0 Ha0].
  split.
  - destruct (string_dec key "DISCNUMBER") as [Kd|Kd].
    + destruct (Ld Kd) as [-> Hdig]. rewrite Kd in Er.
      simpl. eapply set_key_value_discnumber; eauto.
    + assert (Eq : dget "DISCNUMBER" r
                   = dget "DISCNUMBER" (dst_record st (DTrack a dk (Str.int idx))))
        by (eapply set_key_value_other_key; eassumption).
      rewrite Eq. auto.
  - destruct (string_dec key "ALBUM") as [Ka|Ka].
    + rewrite (La Ka). rewrite Ka in Er.
      destruct (set_key_value_album _ _ Er) as [L|[-> R]];
        [left; exact L | right; auto].
    + assert (Eq : dget "ALBUM" r
                   = dget "ALBUM" (dst_record st (DTrack a dk (Str.int idx))))
        by (eapply set_key_value_other_key; eassumption).
      rewrite Eq. auto.
Qed.

(** In the tree of an accepted manifest, every leaf's [DISCNUMBER] is the
    disc key it is filed under and its [ALBUM] is the album key it is
    filed under; only under the empty album name may [ALBUM] be missing. *)
Theorem parsed_leaf_agrees_with_keys : forall lines t a d n r,
  parse_trackinfo_meta resolve trackinfo_path input_map lines = Ok t ->
  tree_get a d n t = Some r ->
  leaf_agrees a d r.
Proof.
  intros lines t a d n r E Eg. unfold parse_trackinfo_meta in E.
  apply bind_ok_inv in E. destruct E as (st & Est & E). inversion E; subst t.
  assert (Hinv : leaves_agree st).
  { apply (@for_each_invariant _ _ (process_line resolve trackinfo_path input_map)
             leaves_agree lines initial_pstate st).
    - intros s x s' _ Hs Hx. eapply process_line_leaves_agree; eauto.
    - intros a0 d0 n0 r0 E0. unfold tree_get in E0. simpl in E0. discriminate.
    - exact Est. }
  exact (Hinv _ _ _ _ Eg).
Qed.

End ParserMore.

(* ================================================================== *)
(** ** Fatal lines *)

Section FatalLines.
Variable resolve : path -> path.
Variable trackinfo_path : path.
Variable input_map : dict path path.

(** In an ASCII manifest, the first line that is neither blank nor of the
    manifest grammar ends the parse with a [ValueError] that quotes the
    line, stripped of its trailing blanks; whatever follows is not looked
    at. *)
Theorem first_malformed_line_is_fatal : forall before bad after st,
  ascii_manifest (before ++ [bad]) = true ->
  parse_lines resolve trackinfo_path input_map before initial_pstate = Ok st ->
  Str.rstrip bad <> "" ->
  TRACKINFO_RE (Str.rstrip bad) = None ->
  parse_trackinfo_meta resolve trackinfo_path input_map (before ++ bad :: after)
  = Err (ValueError ("'" ++ Str.rstrip bad ++ "' is not a valid trackinfo line")).
Proof.
  intros before bad after st _ Eb Hne Hm.
  unfold parse_trackinfo_meta, parse_lines in *.
  rewrite for_each_app, Eb. cbn [bind for_each].
  unfold process_line. rewrite Hm.
  destruct (Str.rstrip bad) as [|c s]; [congruence|]. reflexivity.
Qed.

(** Once the global record has lost its [ALBUM] entry, which the line
    [ALBUM=] with an empty value does, every track line with another key
    raises [KeyError]. *)
Theorem track_line_after_global_album_deleted :
  forall st st1 raw g1 idx g3,
  dmem "ALBUM" (global_meta st) = true ->
  process_line resolve trackinfo_path input_map st "ALBUM=" = Ok st1 ->
  TRACKINFO_RE (Str.rstrip raw) = Some (g1, Some idx, g3) ->
  Str.upper g1 <> "ALBUM" ->
  dget "ALBUM" (global_meta st1) = None
  /\ process_line resolve trackinfo_path input_map st1 raw = Err KeyError.
Proof.
  intros st st1 raw g1 idx g3 Hm E1 Em Hk.
  assert (Hdel : dget "ALBUM" (global_meta st1) = None).
  { rewrite (process_line_matched resolve trackinfo_path input_map st
               "ALBUM=" (g1 := "ALBUM") (g2 := None) (g3 := "") eq_refl) in E1.
    cbn [select_dst bind dst_record] in E1.
    change (Str.upper "ALBUM") with "ALBUM" in E1.
    change (Str.strip "") with "" in E1.
    rewrite set_key_value_empty, Hm in E1. cbn [bind write_dst] in E1.
    inversion E1. simpl. apply dget_ddel_eq. }
  split; [exact Hdel|].
  rewrite (process_line_matched _ _ _ _ _ Em). simpl.
  unfold track_location.
  apply String.eqb_neq in Hk. rewrite Hk. rewrite Hdel.
  destruct (String.eqb (Str.upper g1) "DISCNUMBER"); reflexivity.
Qed.

End FatalLines.

(* ================================================================== *)
(** ** Loops that fill a dictionary *)

Section LoopLookup.
Context {X S K V : Type} `{EqDec K}.
Variable body : S -> X -> result S.
Variable key : X -> K.
Variable get : S -> K -> option V.
Variable R : X -> V -> Prop.

(** Every iteration that completes stores, under the key of its item, a
    value related to the item, and touches no other key. *)
Hypothesis body_stores : forall s x s',
  body s x = Ok s' ->
  exists v, R x v /\ get s' (key x) = Some v
            /\ forall k, k <> key x -> get s' k = get s k.

Lemma for_each_untouched : forall xs s0 s k,
  for_each body xs s0 = Ok s -> ~ In k (map key xs) -> get s k = get s0 k.
Proof.
  induction xs as [|x xs IH]; intros s0 s k E Hk; simpl in E.
  - inversion E. reflexivity.
  - apply bind_ok_inv in E. destruct E as (s1 & E1 & E2).
    destruct (@body_stores _ _ _ E1) as (v & _ & _ & Hother).
    rewrite (IH _ _ _ E2).
    + apply Hother. intros Ek. apply Hk. left. congruence.
    + intros Hin. apply Hk. right. exact Hin.
Qed.

Lemma for_each_lookup : forall xs s0 s,
  NoDup (map key xs) -> for_each body xs s0 = Ok s ->
  forall x, In x xs -> exists v, R x v /\ get s (key x) = Some v.
Proof.
  induction xs as [|x0 xs IH]; intros s0 s Hnd E x Hin; simpl in E.
  - contradiction.
  - apply bind_ok_inv in E. destruct E as (s1 & E1 & E2).
    simpl in Hnd. inversion Hnd as [|y l Hnot Hnd']; subst.
    destruct Hin as [->|Hin].
    + destruct (@body_stores _ _ _ E1) as (v & Hr & Hg & _).
      exists v. split; [exact Hr|].
      rewrite (@for_each_untouched xs s1 s (key x) E2 Hnot). exact Hg.
    + eapply IH; eauto.
Qed.

End LoopLookup.

(* ================================================================== *)
(** ** Padding calculator, when it returns *)

Lemma fold_left_max_spec : forall xs x,
  (x <= fold_left N.max xs x)%N
  /\ (forall y, In y xs -> (y <= fold_left N.max xs x)%N)
  /\ (fold_left N.max xs x = x \/ In (fold_left N.max xs x) xs).
Proof.
  induction xs as [|z xs IH]; intros x; simpl.
  - split; [lia|]. split; [intros y []|]. left. reflexivity.
  - destruct (IH (N.max x z)) as (H1 & H2 & H3).
    split; [|split].
    + lia.
    + intros y [->|Hy]; [lia | auto].
    + destruct H3 as [E|Hin]; [|auto].
      rewrite E. destruct (N.max_spec x z) as [[_ ->]|[_ ->]]; auto.
Qed.

(** [max] returns a member that no member exceeds. *)
Lemma py_max_spec : forall xs m,
  py_max xs = Ok m -> In m xs /\ forall y, In y xs -> (y <= m)%N.
Proof.
  intros [|x xs] m E; simpl in E; [discriminate|]. inversion E; subst m.
  destruct (fold_left_max_spec xs x) as (H1 & H2 & H3). split.
  - destruct H3 as [->|Hin]; [left; reflexivity | right; exact Hin].
  - intros y [->|Hy]; auto.
Qed.

Lemma width_of_max_inv : forall xs w,
  width_of_max xs = Ok w ->
  exists m, py_max xs = Ok m /\ (0 < m)%N /\ w = digit_count m.
Proof.
  intros xs w E. unfold width_of_max in E.
  apply bind_ok_inv in E. destruct E as (m & Em & E).
  assert (Hpos : (0 < m)%N).
  { unfold floor_log10 in E. destruct (N.eqb_spec m 0); [discriminate | lia]. }
  exists m. split; [exact Em|]. split; [exact Hpos|].
  rewrite (@floor_log10_digit_count m Hpos) in E. inversion E. reflexivity.
Qed.

Lemma calc_track_padding_lookup : forall discs tw d tracks,
  NoDup (dkeys discs) ->
  calc_track_padding discs = Ok tw ->
  In (d, tracks) discs ->
  exists w, width_of_max (dkeys tracks) = Ok w /\ dget d tw = Some w.
Proof.
  intros discs tw d tracks Hnd E Hin. unfold calc_track_padding in E.
  refine (@for_each_lookup (disc_key * tracks_of) (dict disc_key N) disc_key N
            (fun (acc : dict disc_key N) (dt : disc_key * tracks_of) =>
               w <- width_of_max (dkeys (snd dt)) ;;
               Ok (dset (fst dt) w acc))
            fst (fun acc k => dget k acc)
            (fun dt w => width_of_max (dkeys (snd dt)) = Ok w)
            _ discs [] tw Hnd E (d, tracks) Hin).
  intros s x s' Es. apply bind_ok_inv in Es. destruct Es as (w & Ew & Es).
  inversion Es. exists w. split; [exact Ew|]. split.
  - apply dget_dset_eq.
  - intros k Hk. apply dget_dset_neq. congruence.
Qed.

Lemma calc_padding_lookup : forall info dp tp a discs,
  NoDup (dkeys info) ->
  calc_padding info = Ok (dp, tp) ->
  In (a, discs) info ->
  (exists dw,
     match discs_no_none discs with
     | [] => Ok 0%N
     | ds => width_of_max ds
     end = Ok dw /\ dget a dp = Some dw)
  /\ (exists tw, calc_track_padding discs = Ok tw /\ dget a tp = Some tw).
Proof.
  intros info dp tp a discs Hnd E Hin. unfold calc_padding in E.
  assert (Hstep : forall (s : disc_padding_t * track_padding_t)
                         (x : album_key * discs_of) s',
             calc_padding_album s x = Ok s' ->
             exists dw tw,
               match discs_no_none (snd x) with
               | [] => Ok 0%N
               | ds => width_of_max ds
               end = Ok dw
               /\ calc_track_padding (snd x) = Ok tw
               /\ s' = (dset (fst x) dw (fst s), dset (fst x) tw (snd s))).
  { intros [dr tr] [a0 discs0] s' Es. unfold calc_padding_album in Es.
    apply bind_ok_inv in Es. destruct Es as (dw & Edw & Es).
    apply bind_ok_inv in Es. destruct Es as (tw & Etw & Es).
    inversion Es. exists dw, tw. auto. }
  split.
  - refine (@for_each_lookup _ _ album_key N calc_padding_album fst
              (fun s k => dget k (fst s))
              (fun x dw => match discs_no_none (snd x) with
                           | [] => Ok 0%N
                           | ds => width_of_max ds
                           end = Ok dw)
              _ info ([], []) (dp, tp) Hnd E (a, discs) Hin).
    intros s x s' Es. destruct (Hstep _ _ _ Es) as (dw & tw & H1 & H2 & ->).
    exists dw. split; [exact H1|]. simpl. split.
    + apply dget_dset_eq.
    + intros k Hk. apply dget_dset_neq. congruence.
  - refine (@for_each_lookup _ _ album_key (dict disc_key N) calc_padding_album fst
              (fun s k => dget k (snd s))
              (fun x tw => calc_track_padding (snd x) = Ok tw)
              _ info ([], []) (dp, tp) Hnd E (a, discs) Hin).
    intros s x s' Es. destruct (Hstep _ _ _ Es) as (dw & tw & H1 & H2 & ->).
    exists tw. split; [exact H2|]. simpl. split.
    + apply dget_dset_eq.
    + intros k Hk. apply dget_dset_neq. congruence.
Qed.

(** When [calc_padding] returns on a well-formed tree whose numbers are
    in the range where the floating-point logarithm is exact, every album
    has a disc width, 0 without numbered discs and else the digit count of its
    greatest disc number, and every disc has a track width, the digit
    count of its greatest track number; those maxima are at least 1. *)
Theorem calc_padding_widths : forall info dp tp a discs,
  tree_wf info ->
  numbers_below log10_exact_below info ->
  calc_padding info = Ok (dp, tp) ->
  dget a info = Some discs ->
  (exists dw, dget a dp = Some dw
     /\ match discs_no_none discs with
        | [] => dw = 0%N
        | ds => exists m, py_max ds = Ok m /\ (0 < m)%N /\ dw = digit_count m
        end)
  /\ forall d tracks, dget d discs = Some tracks ->
       exists m tw,
         py_max (dkeys tracks) = Ok m /\ (0 < m)%N
         /\ (forall n, In n (dkeys tracks) -> (n <= m)%N)
         /\ dget a tp = Some tw /\ dget d tw = Some (digit_count m).
Proof.
  intros info dp tp a discs [Hnd Hall] _ E Ha.
  apply dget_In in Ha.
  destruct (@calc_padding_lookup info dp tp a discs Hnd E Ha)
    as ((dw & Edw & Gdw) & (tw & Etw & Gtw)).
  destruct (Hall _ _ Ha) as (_ & Hndd & _).
  split.
  - exists dw. split; [exact Gdw|].
    destruct (discs_no_none discs) as [|k ks].
    + inversion Edw. reflexivity.
    + apply width_of_max_inv. exact Edw.
  - intros d tracks Hd. apply dget_In in Hd.
    destruct (@calc_track_padding_lookup discs tw d tracks Hndd Etw Hd) as (w & Ew & Gw).
    destruct (@width_of_max_inv _ _ Ew) as (m & Em & Hpos & ->).
    exists m, tw. split; [exact Em|]. split; [exact Hpos|].
    split; [exact (proj2 (@py_max_spec _ _ Em))|]. auto.
Qed.

(* ================================================================== *)
(** ** Zero padding *)

Lemma sappend_length : forall a b : string,
  String.length (a ++ b) = (String.length a + String.length b)%nat.
Proof. intros a b. induction a as [|c a IH]; simpl; auto. Qed.

Lemma zeros_length : forall k, String.length (Str.zeros k) = k.
Proof. induction k as [|k IH]; simpl; auto. Qed.

(** [zfill] pads up to the width and never shortens. *)
Lemma zfill_length : forall w s,
  String.length (Str.zfill w s) = Nat.max w (String.length s).
Proof.
  intros w s. unfold Str.zfill. destruct s as [|c s'].
  - rewrite zeros_length. simpl. lia.
  - destruct (Ascii.eqb c "+" || Ascii.eqb c "-"); simpl;
      rewrite sappend_length, zeros_length; simpl; lia.
Qed.

Lemma digit_count_spec : forall n,
  (0 < n)%N ->
  exists k, digit_count n = (k + 1)%N /\ (10 ^ k <= n < 10 ^ (k + 1))%N.
Proof.
  intros n Hpos. destruct (floor_log10_bounds Hpos) as (k & Ek & Hk).
  exists k. split; [|exact Hk].
  pose proof (@floor_log10_digit_count n Hpos) as E. rewrite Ek in E.
  simpl in E. inversion E. reflexivity.
Qed.

Lemma digit_count_pos : forall n, (1 <= digit_count n)%N.
Proof.
  intros n. destruct (N.eq_0_gt_0_cases n) as [->|Hpos].
  - vm_compute. discriminate.
  - destruct (digit_count_spec Hpos) as (k & -> & _). lia.
Qed.

(** A greater number has at least as many digits. *)
Lemma digit_count_mono : forall n m,
  (n <= m)%N -> (digit_count n <= digit_count m)%N.
Proof.
  intros n m Hle. destruct (N.eq_0_gt_0_cases n) as [->|Hn].
  - change (digit_count 0) with 1%N. apply digit_count_pos.
  - assert (Hm : (0 < m)%N) by lia.
    destruct (digit_count_spec Hn) as (k & -> & Hk).
    destruct (digit_count_spec Hm) as (j & -> & Hj).
    destruct (N.le_gt_cases k j) as [Hkj|Hjk]; [lia|].
    exfalso.
    assert (10 ^ (j + 1) <= 10 ^ k)%N by (apply N.pow_le_mono_r; lia).
    lia.
Qed.

Lemma format_0d_length : forall w n,
  String.length (format_0d w n)
  = Nat.max (N.to_nat w) (N.to_nat (digit_count n)).
Proof.
  intros w n. unfold format_0d. rewrite zfill_length.
  unfold digit_count. rewrite Nat2N.id. reflexivity.
Qed.

(** A number not above [m], padded to the digit count of [m], is
    exactly that long. *)
Lemma format_0d_fits : forall n m,
  (n <= m)%N ->
  String.length (format_0d (digit_count m) n) = N.to_nat (digit_count m).
Proof.
  intros n m Hle. rewrite format_0d_length.
  pose proof (digit_count_mono Hle). lia.
Qed.

Lemma In_discs_no_none : forall (discs : discs_of) k,
  In (Some k) (dkeys discs) -> In k (discs_no_none discs).
Proof.
  intros discs k Hin. unfold discs_no_none. apply in_flat_map.
  exists (Some k). split; [exact Hin | left; reflexivity].
Qed.

Lemma dget_In_dkeys : forall (K V : Type) `{EqDec K} (k : K) (v : V) d,
  dget k d = Some v -> In k (dkeys d).
Proof.
  intros K V H k v d E. apply dmem_In_dkeys. unfold dmem. rewrite E. reflexivity.
Qed.

(** With the widths [calc_padding] returns for a well-formed tree whose
    numbers are in the range where the floating-point logarithm is exact,
    the padded track number of every track is exactly as long as the track
    width of its disc, and its padded disc number, if it has one, exactly
    as long as the disc width of its album: within a disc all numbers line
    up. *)
Theorem padded_numbers_have_the_computed_width :
  forall info dp tp a d n r,
  tree_wf info ->
  numbers_below log10_exact_below info ->
  calc_padding info = Ok (dp, tp) ->
  tree_get a d n info = Some r ->
  (exists tw w,
     dget a tp = Some tw /\ dget d tw = Some w
     /\ String.length (format_0d w n) = N.to_nat w)
  /\ forall k, d = Some k ->
       exists dw, dget a dp = Some dw
                  /\ String.length (format_0d dw k) = N.to_nat dw.
Proof.
  intros info dp tp a d n r [Hnd Hall] _ E Eg. unfold tree_get in Eg.
  destruct (dget a info) as [discs|] eqn:Ea; [|discriminate].
  destruct (dget d discs) as [tracks|] eqn:Ed; [|discriminate].
  pose proof Ea as Ha. apply dget_In in Ha.
  pose proof Ed as Hd. apply dget_In in Hd.
  destruct (@calc_padding_lookup info dp tp a discs Hnd E Ha)
    as ((dw & Edw & Gdw) & (tw & Etw & Gtw)).
  destruct (Hall _ _ Ha) as (_ & Hndd & _).
  split.
  - destruct (@calc_track_padding_lookup discs tw d tracks Hndd Etw Hd)
      as (w & Ew & Gw).
    destruct (@width_of_max_inv _ _ Ew) as (m & Em & Hpos & ->).
    exists tw, (digit_count m). split; [exact Gtw|]. split; [exact Gw|].
    apply format_0d_fits. apply (proj2 (@py_max_spec _ _ Em)).
    eapply dget_In_dkeys; eauto.
  - intros k ->. exists dw. split; [exact Gdw|].
    assert (Hk : In k (discs_no_none discs)).
    { apply In_discs_no_none. eapply dget_In_dkeys; eauto. }
    destruct (discs_no_none discs) as [|k0 ks]; [contradiction|].
    destruct (@width_of_max_inv _ _ Edw) as (m & Em & Hpos & ->).
    apply format_0d_fits. apply (proj2 (@py_max_spec _ _ Em)). exact Hk.
Qed.

Lemma for_each_total : forall (A S : Type) (body : S -> A -> result S) xs s,
  (forall s x, In x xs -> exists s', body s x = Ok s') ->
  exists s', for_each body xs s = Ok s'.
Proof.
  intros A S body xs. induction xs as [|x xs IH]; intros s H; simpl.
  - eauto.
  - destruct (H s x (or_introl eq_refl)) as [s1 E1]. rewrite E1. simpl.
    apply IH. intros s0 y Hy. apply H. right. exact Hy.
Qed.

Lemma width_of_max_total : forall xs,
  xs <> [] -> (forall x, In x xs -> (0 < x)%N) ->
  exists w, width_of_max xs = Ok w.
Proof.
  intros xs Hne Hpos. unfold width_of_max.
  destruct (py_max xs) as [m|e] eqn:Em.
  - cbn [bind]. destruct (@py_max_spec xs m Em) as [Hin _].
    specialize (Hpos m Hin). unfold floor_log10.
    destruct (N.eqb_spec m 0); [lia|]. cbn [bind]. eauto.
  - destruct xs; [congruence | discriminate].
Qed.

(** A tree whose tracks and discs are numbered from 1 upwards never
    makes [calc_padding] raise. *)
Theorem calc_padding_returns_on_positive_numbers : forall info,
  tree_wf info ->
  (forall a discs d tracks, In (a, discs) info -> In (d, tracks) discs ->
     (forall k, d = Some k -> (0 < k)%N)
     /\ forall n, In n (dkeys tracks) -> (0 < n)%N) ->
  exists dp tp, calc_padding info = Ok (dp, tp).
Proof.
  intros info [_ Hall] Hpos.
  assert (H : exists s, calc_padding info = Ok s).
  { unfold calc_padding. apply for_each_total.
    intros [dr tr] [a discs] Hin. unfold calc_padding_album.
    destruct (Hall _ _ Hin) as (Hne & _ & Htr).
    assert (Hd : exists dw,
               match discs_no_none discs with
               | [] => Ok 0%N
               | ds => width_of_max ds
               end = Ok dw).
    { destruct (discs_no_none discs) as [|k ks] eqn:Ek; [eauto|].
      apply width_of_max_total; [discriminate|].
      intros x Hx. rewrite <- Ek in Hx. unfold discs_no_none in Hx.
      apply in_flat_map in Hx. destruct Hx as ([k'|] & Hk & Hx);
        [|contradiction].
      destruct Hx as [->|[]]. unfold dkeys in Hk. apply in_map_iff in Hk.
      destruct Hk as ([d tracks] & Ed & Hdt). simpl in Ed. subst d.
      exact (proj1 (Hpos _ _ _ _ Hin Hdt) x eq_refl). }
    destruct Hd as [dw ->]. cbn [bind].
    assert (Ht : exists tw, calc_track_padding discs = Ok tw).
    { unfold calc_track_padding. apply for_each_total.
      intros acc [d tracks] Hdt. cbn [fst snd].
      destruct (@width_of_max_total (dkeys tracks)) as [w ->].
      - destruct (Htr _ _ Hdt) as [Hnt _]. destruct tracks; [congruence|discriminate].
      - exact (proj2 (Hpos _ _ _ _ Hin Hdt)).
      - cbn [bind]. eauto. }
    destruct Ht as [tw ->]. cbn [bind]. eauto. }
  destruct H as [[dp tp] E]. eauto.
Qed.

(* ================================================================== *)
(** ** Track mapper, when it returns *)


Section TrackMapperMore.
Variable iterdir : path -> result (list path).



End TrackMapperMore.

(* ================================================================== *)
(** ** Cover resolver, when it returns *)

Lemma set_add_inv : forall x y s, In y (set_add x s) -> y = x \/ In y s.
Proof.
  intros x y s. unfold set_add. destruct (existsb (eqb_dec x) s); auto.
  intros Hin. apply in_app_or in Hin. destruct Hin as [Hin|[E|[]]]; auto.
Qed.

(** The first loop: identity entries for the covers that are not source
    audio, membership in the set for those that are. *)
Lemma collect_cover_loop : forall tags_list ret set0 ret' set',
  for_each collect_cover tags_list (ret, set0) = Ok (ret', set') ->
  (forall c, dget c ret = Some c -> dget c ret' = Some c)
  /\ (forall c, In c set0 -> In c set')
  /\ (forall c, In c set' ->
        In c set0 \/ Str.lower (PathLib.suffix c) = ".flac")
  /\ (forall tags c, In tags tags_list -> dget "COVER" tags = Some (VPath c) ->
        if String.eqb (Str.lower (PathLib.suffix c)) ".flac"
        then In c set' else dget c ret' = Some c).
Proof.
  induction tags_list as [|tags rest IH]; intros ret set0 ret' set' E.
  - inversion E; subst. repeat split; auto. intros tags c [].
  - cbn [for_each] in E. apply bind_ok_inv in E.
    destruct E as ([ret1 set1] & E1 & E2).
    destruct (IH _ _ _ _ E2) as (Ha & Hb & Hc & Hd).
    unfold collect_cover in E1.
    destruct (dget "COVER" tags) as [[| s | n | p]|] eqn:Ec; try discriminate.
    + destruct (String.eqb (Str.lower (PathLib.suffix p)) ".flac") eqn:Es;
        inversion E1; subst ret1 set1; clear E1.
      * split; [exact Ha|]. split; [|split].
        { intros c Hin. apply Hb. apply set_add_In_old. exact Hin. }
        { intros c Hin. destruct (Hc c Hin) as [Hs|Hf]; [|auto].
          apply set_add_inv in Hs. destruct Hs as [->|Hs]; [|auto].
          right. apply String.eqb_eq. exact Es. }
        { intros t c [->|Hin] Hcov; [|eapply Hd; eauto].
          rewrite Ec in Hcov. inversion Hcov; subst c. rewrite Es.
          apply Hb. apply set_add_In_same. }
      * split; [|split; [exact Hb|split; [exact Hc|]]].
        { intros c Hg. apply Ha. destruct (eq_dec p c) as [->|Hne].
          - apply dget_dset_eq.
          - rewrite (dget_dset_neq _ _ Hne). exact Hg. }
        { intros t c [->|Hin] Hcov; [|eapply Hd; eauto].
          rewrite Ec in Hcov. inversion Hcov; subst c. rewrite Es.
          apply Ha. apply dget_dset_eq. }
    + inversion E1; subst ret1 set1; clear E1.
      split; [exact Ha|]. split; [exact Hb|]. split; [exact Hc|].
      intros t c [->|Hin] Hcov; [|eapply Hd; eauto].
      rewrite Ec in Hcov. discriminate.
Qed.

Section CoverMore.
Context {W : Type} (fs : FileSystem W).

(** The second loop: an entry for every member, nothing else touched,
    and nothing reported unless an extraction exits non-zero. *)
Lemma extract_cover_loop : forall cover_dir covers ret err w ret' err' w',
  for_each (extract_cover fs cover_dir) covers (ret, err, w) = Ok (ret', err', w') ->
  (forall c, In c covers -> exists f, dget c ret' = Some f)
  /\ (forall c, ~ In c covers -> dget c ret' = dget c ret)
  /\ ((forall w0 c f n w1, fs_export_picture fs w0 c f = Ok (n, w1) -> n = 0%N) ->
      err' = err).
Proof.
  intros cover_dir covers. induction covers as [|x rest IH];
    intros ret err w ret' err' w' E.
  - inversion E; subst. repeat split; auto. intros c [].
  - cbn [for_each] in E. apply bind_ok_inv in E.
    destruct E as ([[ret1 err1] w1] & E1 & E2).
    destruct (IH _ _ _ _ _ _ E2) as (Ha & Hb & Hc).
    unfold extract_cover in E1.
    destruct (fs_mktemp_file fs w cover_dir) as [[f wa]|]; [|discriminate].
    cbn [bind] in E1.
    destruct (fs_export_picture fs wa x f) as [[n wb]|] eqn:Ex; [|discriminate].
    cbn [bind] in E1. inversion E1; subst ret1 err1 w1; clear E1.
    split; [|split].
    + intros c [->|Hin]; [|auto].
      destruct (in_dec eq_dec c rest) as [Hr|Hr]; [auto|].
      rewrite (Hb c Hr). exists f. apply dget_dset_eq.
    + intros c Hc0. rewrite Hb by (intros H; apply Hc0; right; exact H).
      apply dget_dset_neq. intros ->. apply Hc0. left. reflexivity.
    + intros Hall. rewrite (Hc Hall). rewrite (Hall _ _ _ _ _ Ex). reflexivity.
Qed.

(** When [map_covers] returns, the map has an entry for the [COVER] of
    every track, so no later lookup misses, and a cover that is not a
    source-audio file is mapped to itself. *)
Theorem map_covers_maps_every_cover : forall w info tmp_dir ret err w' tags c,
  map_covers fs w info tmp_dir = Ok (ret, err, w') ->
  In tags (all_tags info) ->
  dget "COVER" tags = Some (VPath c) ->
  (exists f, dget c ret = Some f)
  /\ (Str.lower (PathLib.suffix c) <> ".flac" -> dget c ret = Some c).
Proof.
  intros w info tmp_dir ret err w' tags c E Hin Hc. unfold map_covers in E.
  apply bind_ok_inv in E. destruct E as ([ret0 set0] & E0 & E).
  apply bind_ok_inv in E. destruct E as (w1 & _ & E).
  destruct (@collect_cover_loop _ _ _ _ _ E0) as (_ & _ & Hset & Hall).
  destruct (@extract_cover_loop _ _ _ _ _ _ _ _ E) as (Hin2 & Hout & _).
  specialize (Hall tags c Hin Hc).
  destruct (String.eqb (Str.lower (PathLib.suffix c)) ".flac") eqn:Es.
  - split; [apply Hin2; exact Hall|].
    intros Hne. apply String.eqb_eq in Es. contradiction.
  - assert (Hnot : ~ In c set0).
    { intros Hs. destruct (Hset c Hs) as [[]|Hf].
      apply String.eqb_neq in Es. contradiction. }
    rewrite (Hout c Hnot). split; [eauto | auto].
Qed.

(** When every extraction exits with status 0, [map_covers] reports no
    error. *)
Theorem map_covers_silent_when_extractions_succeed :
  forall w info tmp_dir ret err w',
  (forall w0 c f n w1, fs_export_picture fs w0 c f = Ok (n, w1) -> n = 0%N) ->
  map_covers fs w info tmp_dir = Ok (ret, err, w') ->
  err = [].
Proof.
  intros w info tmp_dir ret err w' Hall E. unfold map_covers in E.
  apply bind_ok_inv in E. destruct E as ([ret0 set0] & E0 & E).
  apply bind_ok_inv in E. destruct E as (w1 & _ & E).
  destruct (@extract_cover_loop _ _ _ _ _ _ _ _ E) as (_ & _ & Herr).
  exact (Herr Hall).
Qed.

End CoverMore.

(* ================================================================== *)
(** ** Archive resolver: what the returned map holds *)

Lemma add_node_has : forall paths nodes0 nodes,
  for_each add_node paths nodes0 = Ok nodes ->
  (forall k tails0 t, dget k nodes0 = Some tails0 -> In t tails0 ->
     exists tails, dget k nodes = Some tails /\ In t tails)
  /\ (forall h t, In (h :: t) paths ->
        exists tails, dget [h] nodes = Some tails /\ In t tails).
Proof.
  induction paths as [|p paths IH]; intros nodes0 nodes E; cbn [for_each] in E.
  - inversion E; subst. split; [eauto | intros h t []].
  - destruct p as [|h0 t0]; [discriminate|]. cbn [add_node bind] in E.
    destruct (IH _ _ E) as [Hmono Hnew].
    assert (Hstep : forall k tails0 t, dget k nodes0 = Some tails0 -> In t tails0 ->
              exists tails,
                dget k (dset [h0]
                          (set_add t0 match dget [h0] nodes0 with
                                      | Some s => s
                                      | None => []
                                      end) nodes0) = Some tails
                /\ In t tails).
    { intros k tails0 t Hg Hin. destruct (eq_dec [h0] k) as [<-|Hne].
      - rewrite dget_dset_eq. eexists. split; [reflexivity|].
        apply set_add_In_old.
        assert (G : In t match dget [h0] nodes0 with
                         | Some s => s
                         | None => []
                         end).
        { exact (@eq_ind_r _ (Some tails0)
                             (fun o : option (list path) =>
                                In t match o with Some s => s | None => [] end)
                             Hin _ Hg). }
        exact G.
      - rewrite (dget_dset_neq _ _ Hne). eauto. }
    split.
    + intros k tails0 t Hg Hin.
      destruct (Hstep _ _ _ Hg Hin) as (tails1 & Hg1 & Hin1). eauto.
    + intros h t [Eq|Hin]; [|auto].
      inversion Eq; subst h0 t0. eapply (Hmono [h]).
      * apply dget_dset_eq.
      * apply set_add_In_same.
Qed.

Section ArchiveMore.
Context {W : Type} (fs : FileSystem W).
Variable tmp_dir : path.

Lemma expand_node_has : forall parent nodes acc0 w new_nodes w1,
  for_each (expand_node fs tmp_dir parent) nodes (acc0, w) = Ok (new_nodes, w1) ->
  (forall x, In x acc0 -> In x new_nodes)
  /\ forall head tails, In (head, tails) nodes ->
       exists real, In (parent // head, real, tails) new_nodes.
Proof.
  intros parent nodes. induction nodes as [|[head0 tails0] nodes IH];
    intros acc0 w new_nodes w1 E; cbn [for_each] in E.
  - inversion E; subst. split; [auto | intros ? ? []].
  - rewrite expand_node_effective_root in E.
    destruct (effective_root fs tmp_dir w (parent // head0)) as [[root w0]|e];
      [|discriminate].
    cbn [bind] in E. destruct (IH _ _ _ _ E) as [Hacc Hnew]. split.
    + intros x Hx. apply Hacc. apply in_or_app. left. exact Hx.
    + intros head tails [Eq|Hin]; [|auto].
      inversion Eq; subst. exists root. apply Hacc.
      apply in_or_app. right. left. reflexivity.
Qed.

Lemma dmem_dset_any : forall (k k' v : path) (d : dict path path),
  dmem k d = true -> dmem k (dset k' v d) = true.
Proof.
  intros k k' v d H. unfold dmem in *. destruct (eq_dec k' k) as [->|Hne].
  - rewrite dget_dset_eq. reflexivity.
  - rewrite (dget_dset_neq _ _ Hne). exact H.
Qed.

Lemma fold_left_dset_prefix : forall (l : string) (sub : dict path path) r0,
  (forall k, dmem k r0 = true ->
     dmem k (fold_left (fun r (bm : path * path) => dset ([l] // fst bm) (snd bm) r)
                       sub r0) = true)
  /\ (forall b m, In (b, m) sub ->
        dmem ([l] // b)
             (fold_left (fun r (bm : path * path) => dset ([l] // fst bm) (snd bm) r)
                        sub r0) = true).
Proof.
  intros l sub. induction sub as [|[b0 m0] sub IH]; intros r0; cbn [fold_left fst snd].
  - split; [auto | intros b m []].
  - destruct (IH (dset ([l] // b0) m0 r0)) as [Hk Hb]. split.
    + intros k Hm. apply Hk. apply dmem_dset_any. exact Hm.
    + intros b m [Eq|Hin]; [|exact (Hb b m Hin)].
      inversion Eq; subst. apply Hk. unfold dmem. rewrite dget_dset_eq. reflexivity.
Qed.

(** The key under which the third loop files the tail [t] of a node
    whose last part is [l]. *)
Lemma assemble_node_has :
  forall (rec : W -> list path -> path -> result (dict path path * W))
         ret w stub real tails ret' w',
  (forall w0 tails1 sub w2, rec w0 tails1 real = Ok (sub, w2) ->
     (forall t, In t tails1 -> declared_ok t = true) ->
     forall t, In t tails1 -> dmem t sub = true) ->
  (forall t, In t tails -> t <> [] -> declared_ok t = true) ->
  assemble_node rec (ret, w) (stub, real, tails) = Ok (ret', w') ->
  (forall k, dmem k ret = true -> dmem k ret' = true)
  /\ forall t, In t tails ->
       exists l, last_part stub = Ok l
                 /\ dmem match t with [] => [l] | _ => [l] // t end ret' = true.
Proof.
  intros rec ret w stub real tails ret' w' Hrec Hok E.
  unfold assemble_node in E.
  apply bind_ok_inv in E. destruct E as (ret1 & E1 & E).
  assert (H1 : (forall k, dmem k ret = true -> dmem k ret1 = true)
               /\ (In [] tails ->
                     exists l, last_part stub = Ok l /\ dmem [l] ret1 = true)).
  { unfold set_mem in E1.
    match type of E1 with
    | (if ?c then _ else _) = _ => destruct c eqn:Em
    end.
    - apply bind_ok_inv in E1. destruct E1 as (l & El & E1). inversion E1.
      split.
      + intros k Hk. apply dmem_dset_any. exact Hk.
      + intros _. exists l. split; [exact El|].
        unfold dmem. rewrite dget_dset_eq. reflexivity.
    - inversion E1; subst. split; [auto|].
      intros Hin. apply existsb_eqb_dec_In in Hin. congruence. }
  destruct H1 as [Hmono1 Hnil].
  set (tails1 := if set_mem [] tails then set_remove [] tails else tails) in *.
  assert (Ht1 : forall t, In t tails -> t <> [] -> In t tails1).
  { intros t Hin Hne. unfold tails1, set_mem.
    match goal with
    | |- In _ (if ?c then _ else _) => destruct c
    end; [|exact Hin].
    unfold set_remove. apply filter_In. split; [exact Hin|].
    unfold eqb_dec.
    match goal with
    | |- context [@eq_dec ?A ?I ?x ?y] => destruct (@eq_dec A I x y)
    end; [congruence | reflexivity]. }
  assert (Ht2 : forall t, In t tails1 -> In t tails /\ t <> []).
  { intros t Hin. unfold tails1, set_mem in Hin.
    match type of Hin with
    | In _ (if ?c then _ else _) => destruct c eqn:Em
    end.
    - unfold set_remove in Hin. apply filter_In in Hin. destruct Hin as [Hin Hb].
      split; [exact Hin|]. intros ->. unfold eqb_dec in Hb.
      match type of Hb with
      | context [@eq_dec ?A ?I ?x ?y] => destruct (@eq_dec A I x y)
      end; [discriminate | congruence].
    - split; [exact Hin|]. intros ->.
      apply existsb_eqb_dec_In in Hin. congruence. }
  destruct tails1 as [|t1 ts] eqn:Et.
  - inversion E; subst ret' w'. split; [exact Hmono1|].
    intros t Hin. destruct t as [|h t'].
    + apply Hnil. exact Hin.
    + exfalso. exact (Ht1 _ Hin ltac:(discriminate)).
  - apply bind_ok_inv in E. destruct E as ([sub w2] & Er & E).
    apply bind_ok_inv in E. destruct E as (l & El & E). inversion E; subst ret' w'.
    destruct (fold_left_dset_prefix l sub ret1) as [Hk Hb].
    assert (Hsub : forall t, In t (t1 :: ts) -> dmem t sub = true).
    { apply (Hrec _ _ _ _ Er).
      intros t Hin. destruct (Ht2 t Hin) as [Hin' Hne]. auto. }
    split.
    + intros k Hm. apply Hk. apply Hmono1. exact Hm.
    + intros t Hin. destruct t as [|h t'].
      * destruct (Hnil Hin) as (l' & El' & Hm). exists l'. split; [exact El'|].
        assert (l' = l) by congruence. subst l'. apply Hk. exact Hm.
      * exists l. split; [exact El|].
        assert (Hm : dmem (h :: t') sub = true)
          by (apply Hsub; apply Ht1; [exact Hin | discriminate]).
        unfold dmem in Hm. destruct (dget (h :: t') sub) as [m|] eqn:Eg;
          [|discriminate].
        apply (Hb _ m). apply dget_In. exact Eg.
Qed.

Lemma assemble_loop_has :
  forall (rec : W -> list path -> path -> result (dict path path * W))
         new_nodes ret0 w ret w',
  (forall real w0 tails1 sub w2, rec w0 tails1 real = Ok (sub, w2) ->
     (forall t, In t tails1 -> declared_ok t = true) ->
     forall t, In t tails1 -> dmem t sub = true) ->
  (forall stub real tails t, In (stub, real, tails) new_nodes ->
     In t tails -> t <> [] -> declared_ok t = true) ->
  for_each (assemble_node rec) new_nodes (ret0, w) = Ok (ret, w') ->
  (forall k, dmem k ret0 = true -> dmem k ret = true)
  /\ forall stub real tails t, In (stub, real, tails) new_nodes -> In t tails ->
       exists l, last_part stub = Ok l
                 /\ dmem match t with [] => [l] | _ => [l] // t end ret = true.
Proof.
  intros rec new_nodes. induction new_nodes as [|[[stub0 real0] tails0] nn IH];
    intros ret0 w ret w' Hrec Hok E; cbn [for_each] in E.
  - inversion E; subst. split; [auto | intros ? ? ? ? []].
  - apply bind_ok_inv in E. destruct E as ([ret1 w1] & E1 & E2).
    destruct (@assemble_node_has rec ret0 w stub0 real0 tails0 ret1 w1
                (Hrec real0)
                (fun t Hin Hne => Hok stub0 real0 tails0 t (or_introl eq_refl) Hin Hne)
                E1) as [Hm1 Hn1].
    destruct (IH ret1 w1 ret w' Hrec
                (fun s r ts t Hin => Hok s r ts t (or_intror Hin)) E2)
      as [Hm2 Hn2].
    split.
    + intros k Hk. auto.
    + intros stub real tails t [Eq|Hin] Ht.
      * inversion Eq; subst. destruct (Hn1 t Ht) as (l & El & Hm).
        exists l. auto.
      * eapply Hn2; eauto.
Qed.

Lemma declared_ok_tail : forall h t,
  declared_ok (h :: t) = true -> t <> [] ->
  declared_ok t = true /\ PathLib.is_absolute t = false.
Proof.
  intros h [|h2 t'] Hok Hne; [congruence|]. simpl in Hok.
  apply andb_prop in Hok. destruct Hok as [H2 Hr]. split; [exact Hr|].
  simpl. apply negb_true_iff. exact H2.
Qed.

Lemma expand_fuel_maps_every_path : forall fuel w paths parent ret w',
  (forall p, In p paths -> declared_ok p = true) ->
  expand_archives_in_tree_fuel fs fuel w paths tmp_dir parent = Ok (ret, w') ->
  forall p, In p paths -> dmem p ret = true.
Proof.
  induction fuel as [|fuel IH]; intros w paths parent ret w' Hok E p Hp;
    [discriminate|].
  rewrite expand_fuel_step in E.
  apply bind_ok_inv in E. destruct E as (nodes & En & E).
  apply bind_ok_inv in E. destruct E as ([new_nodes w1] & Ex & E).
  destruct (add_node_has _ _ En) as [_ Hnodes].
  destruct (@expand_node_has _ _ _ _ _ _ Ex) as [_ Hnew].
  assert (Htails : forall stub real tails t, In (stub, real, tails) new_nodes ->
             In t tails -> exists h, In (h :: t) paths).
  { intros stub real tails t Hin Ht.
    destruct (@expand_node_tails W fs tmp_dir parent nodes [] w new_nodes w1 Ex
                stub real tails Hin) as [[]|(head & Hn)].
    destruct (@add_node_tails paths [] nodes En head tails t Hn Ht)
      as [Hh|(h0 & t0 & [] & _)].
    exact Hh. }
  destruct (@assemble_loop_has
              (fun w2 tails real_path =>
                 expand_archives_in_tree_fuel fs fuel w2 tails tmp_dir real_path)
              new_nodes [] w1 ret w') as [_ Hall].
  - intros real w0 tails1 sub w2 Er Hok1 t Ht. eapply IH; eauto.
  - intros stub real tails t Hin Ht Hne.
    destruct (Htails _ _ _ _ Hin Ht) as [h Hh].
    exact (proj1 (@declared_ok_tail h t (Hok _ Hh) Hne)).
  - exact E.
  - destruct p as [|h t]; [specialize (Hok _ Hp); discriminate|].
    destruct (Hnodes h t Hp) as (tails & Hg & Ht).
    apply dget_In in Hg.
    destruct (Hnew _ _ Hg) as [real Hin].
    destruct (Hall _ _ _ _ Hin Ht) as (l & El & Hm).
    rewrite last_part_join in El. inversion El; subst l.
    destruct t as [|h2 t']; [exact Hm|].
    destruct (@declared_ok_tail h (h2 :: t') (Hok _ Hp) ltac:(discriminate))
      as [_ Habs].
    unfold PathLib.join in Hm. rewrite Habs in Hm. exact Hm.
Qed.

(** When [expand_archives_in_tree] returns, the map has an entry for
    every declared path. *)
Theorem expand_maps_every_declared_path : forall w paths parent ret w' p,
  (forall q, In q paths -> declared_ok q = true) ->
  expand_archives_in_tree fs w paths tmp_dir parent = Ok (ret, w') ->
  In p paths ->
  exists r, dget p ret = Some r.
Proof.
  intros w paths parent ret w' p Hok E Hp. unfold expand_archives_in_tree in E.
  pose proof (@expand_fuel_maps_every_path _ _ _ _ _ _ Hok E p Hp) as Hm.
  unfold dmem in Hm. destruct (dget p ret) as [r|]; [eauto | discriminate].
Qed.

End ArchiveMore.

(* ================================================================== *)
(** ** Archive resolver: plain directories *)



Lemma add_node_keys : forall paths nodes0 nodes,
  for_each add_node paths nodes0 = Ok nodes ->
  (forall k tails, In (k, tails) nodes0 -> exists h, k = [h]) ->
  forall k tails, In (k, tails) nodes -> exists h, k = [h].
Proof.
  induction paths as [|p paths IH]; intros nodes0 nodes E H0; cbn [for_each] in E.
  - inversion E; subst. exact H0.
  - destruct p as [|h t]; [discriminate|]. cbn [add_node bind] in E.
    apply (IH _ _ E). intros k tails Hin. apply In_dset_inv in Hin.
    destruct Hin as [[-> _]|Hin]; [eauto | eapply H0; eauto].
Qed.

Section PlainDirectories.
Context {W : Type} (fs : FileSystem W).
Variable tmp_dir : path.
Hypothesis plain : no_archives fs.



Lemma fold_left_dset_prefix_inv : forall (l : string) (sub : dict path path) r0 k v,
  In (k, v) (fold_left (fun r (bm : path * path) => dset ([l] // fst bm) (snd bm) r)
                       sub r0) ->
  In (k, v) r0 \/ exists b, In (b, v) sub /\ k = [l] // b.
Proof.
  intros l sub. induction sub as [|[b0 m0] sub IH]; intros r0 k v Hin;
    cbn [fold_left fst snd] in Hin.
  - left. exact Hin.
  - destruct (IH _ _ _ Hin) as [H0|(b & Hb & Ek)].
    + apply In_dset_inv in H0. destruct H0 as [[-> ->]|H0]; [|left; exact H0].
      right. exists b0. split; [left; reflexivity | reflexivity].
    + right. exists b. split; [right; exact Hb | exact Ek].
Qed.







End PlainDirectories.

(* ================================================================== *)
(** ** The pre-scan for inputs and the parser read the same lines *)

Ltac ascii_cases c :=
  destruct c as [[] [] [] [] [] [] [] []]; try reflexivity; try discriminate.

Lemma TRACKINFO_RE_tail : forall line,
  TRACKINFO_RE line
  = let (key, rest) := Str.span Str.is_alpha line in
    match key with
    | EmptyString => None
    | _ => match assignment_tail rest with
           | Some (g2, v) => Some (key, g2, v)
           | None => None
           end
    end.
Proof.
  intros line. unfold TRACKINFO_RE, assignment_tail.
  destruct (Str.span Str.is_alpha line) as [key rest].
  destruct key as [|k0 key]; [reflexivity|].
  destruct rest as [|c r]; [reflexivity|].
  ascii_cases c.
  - destruct (Str.span Str.is_digit r) as [ds r2].
    destruct ds as [|d0 ds]; [reflexivity|].
    destruct r2 as [|c2 r2]; [reflexivity|].
    ascii_cases c2.
    destruct r2 as [|c3 r3]; [reflexivity|].
    ascii_cases c3.
    destruct (dot_star r3); reflexivity.
  - destruct (dot_star r); reflexivity.
Qed.

Lemma INPUT_TRACKINFO_RE_tail : forall line,
  INPUT_TRACKINFO_RE line
  = if String.eqb (Str.upper (substring 0 5 line)) "INPUT"
    then match assignment_tail (substring 5 (String.length line - 5) line) with
         | Some (_, v) => Some v
         | None => None
         end
    else None.
Proof.
  intros line. unfold INPUT_TRACKINFO_RE, assignment_tail.
  destruct (String.eqb (Str.upper (substring 0 5 line)) "INPUT"); [|reflexivity].
  destruct (substring 5 (String.length line - 5) line) as [|c r]; [reflexivity|].
  ascii_cases c.
  - destruct (Str.span Str.is_digit r) as [ds r2].
    destruct ds as [|d0 ds]; [reflexivity|].
    destruct r2 as [|c2 r2]; [reflexivity|].
    ascii_cases c2.
    destruct r2 as [|c3 r3]; [reflexivity|].
    ascii_cases c3.
    destruct (dot_star r3); reflexivity.
  - destruct (dot_star r); reflexivity.
Qed.

Lemma span_app : forall p s a b,
  Str.span p s = (a, b) -> s = (a ++ b)%string.
Proof.
  intros p s. induction s as [|c s IH]; intros a b E; simpl in E.
  - inversion E. reflexivity.
  - destruct (p c).
    + destruct (Str.span p s) as [a' b']. inversion E; subst.
      simpl. f_equal. apply IH. reflexivity.
    + inversion E. reflexivity.
Qed.

Lemma upper_char_letter : forall c,
  Str.is_upper (Str.upper_char c) = true -> Str.is_alpha c = true.
Proof. intros c. ascii_cases c. Qed.

Lemma assignment_tail_not_alpha : forall rest x,
  assignment_tail rest = Some x -> Str.span Str.is_alpha rest = (EmptyString, rest).
Proof.
  intros rest x E. destruct rest as [|c r]; [discriminate|].
  unfold assignment_tail in E. revert E. ascii_cases c.
Qed.

Lemma substring_all : forall s, substring 0 (String.length s) s = s.
Proof. induction s as [|c s IH]; simpl; [reflexivity | now rewrite IH]. Qed.

Lemma substring_zero : forall s, substring 0 0 s = EmptyString.
Proof. destruct s; reflexivity. Qed.

(** The strings that [upper] sends to the word INPUT. *)
Lemma upper_INPUT_inv : forall s,
  Str.upper s = "INPUT" ->
  exists c1 c2 c3 c4 c5,
    s = String c1 (String c2 (String c3 (String c4 (String c5 EmptyString))))
    /\ Str.is_alpha c1 = true /\ Str.is_alpha c2 = true /\ Str.is_alpha c3 = true
    /\ Str.is_alpha c4 = true /\ Str.is_alpha c5 = true.
Proof.
  intros s E.
  destruct s as [|c1 [|c2 [|c3 [|c4 [|c5 [|c6 s]]]]]]; try discriminate E.
  simpl in E. inversion E as [[E1 E2 E3 E4 E5]].
  exists c1, c2, c3, c4, c5. split; [reflexivity|].
  repeat split; apply upper_char_letter;
    [rewrite E1 | rewrite E2 | rewrite E3 | rewrite E4 | rewrite E5]; reflexivity.
Qed.

Lemma prescan_match_is_parser_match : forall line v,
  INPUT_TRACKINFO_RE line = Some v ->
  exists g1 g2, TRACKINFO_RE line = Some (g1, g2, v) /\ Str.upper g1 = "INPUT".
Proof.
  intros line v. rewrite INPUT_TRACKINFO_RE_tail, TRACKINFO_RE_tail.
  intros E.
  destruct (String.eqb (Str.upper (substring 0 5 line)) "INPUT") eqn:Eu;
    [|discriminate].
  apply String.eqb_eq in Eu.
  destruct (upper_INPUT_inv _ Eu) as (c1 & c2 & c3 & c4 & c5 & Es & A1 & A2 & A3 & A4 & A5).
  destruct line as [|d1 [|d2 [|d3 [|d4 [|d5 rest]]]]]; try discriminate Es.
  simpl in Es. rewrite substring_zero in Es.
  inversion Es; subst d1 d2 d3 d4 d5. clear Es.
  simpl String.length in E. simpl Nat.sub in E.
  replace (String.length rest - 0)%nat with (String.length rest) in E by lia.
  simpl substring in E. rewrite substring_all in E.
  destruct (assignment_tail rest) as [[g2 v']|] eqn:Et; [|discriminate].
  inversion E; subst v'.
  simpl Str.span. rewrite A1, A2, A3, A4, A5.
  rewrite (assignment_tail_not_alpha _ Et). rewrite Et.
  simpl substring in Eu. rewrite substring_zero in Eu.
  eexists. exists g2. split; [reflexivity | exact Eu].
Qed.

Lemma parser_match_is_prescan_match : forall line g1 g2 v,
  TRACKINFO_RE line = Some (g1, g2, v) -> Str.upper g1 = "INPUT" ->
  INPUT_TRACKINFO_RE line = Some v.
Proof.
  intros line g1 g2 v. rewrite INPUT_TRACKINFO_RE_tail, TRACKINFO_RE_tail.
  intros E Eu.
  destruct (Str.span Str.is_alpha line) as [key rest] eqn:Esp.
  destruct key as [|k0 key]; [discriminate|].
  destruct (assignment_tail rest) as [[g2' v']|] eqn:Et; [|discriminate].
  inversion E; subst g1 g2' v'. clear E.
  apply span_app in Esp.
  destruct (upper_INPUT_inv _ Eu) as (c1 & c2 & c3 & c4 & c5 & Es & _).
  rewrite Es in Esp. simpl in Esp. subst line.
  simpl substring. rewrite substring_zero.
  rewrite Es in Eu. rewrite Eu. simpl String.eqb.
  simpl String.length. simpl Nat.sub.
  replace (String.length rest - 0)%nat with (String.length rest) by lia.
  rewrite substring_all, Et. reflexivity.
Qed.

(** On ASCII lines the pre-scan that collects the inputs matches exactly
    the lines the parser reads as assignments to [INPUT], and hands over
    the same raw value. *)
Theorem input_prescan_agrees_with_parser : forall line v,
  ascii_text line = true ->
  (INPUT_TRACKINFO_RE line = Some v
   <-> exists g1 g2, TRACKINFO_RE line = Some (g1, g2, v)
                     /\ Str.upper g1 = "INPUT").
Proof.
  intros line v _. split.
  - apply prescan_match_is_parser_match.
  - intros (g1 & g2 & E & Eu). exact (parser_match_is_prescan_match _ E Eu).
Qed.

(* ================================================================== *)
(** ** Declared inputs are found by the parser *)

Section InputLookup.
Context {W : Type} (fs : FileSystem W).



End InputLookup.

(* ================================================================== *)
(** * File-name truncation *)

(** ** Strings as byte sequences *)

Lemma substring_0_length : forall k s,
  String.length (substring 0 k s) = Nat.min k (String.length s).
Proof.
  induction k as [|k IH]; intros [|c s]; simpl; try reflexivity.
  now rewrite IH.
Qed.

Lemma substring_0_all : forall s k,
  String.length s <= k -> substring 0 k s = s.
Proof.
  induction s as [|c s IH]; intros [|k] Hk; simpl in *; try reflexivity; try lia.
  f_equal. apply IH. lia.
Qed.

Lemma substring_0_substring_0 : forall j k s,
  substring 0 j (substring 0 k s) = substring 0 (Nat.min j k) s.
Proof.
  induction j as [|j IH]; intros [|k] [|c s]; simpl; try reflexivity.
  now rewrite IH.
Qed.

Lemma substring_0_app : forall a b,
  substring 0 (String.length a) (a ++ b) = a.
Proof.
  induction a as [|c a IH]; intros b; simpl.
  - destruct b; reflexivity.
  - now rewrite IH.
Qed.

Lemma substring_skip_app : forall a b n,
  substring (String.length a) n (a ++ b) = substring 0 n b.
Proof.
  induction a as [|c a IH]; intros b n; simpl; [reflexivity|apply IH].
Qed.

Lemma py_prefix_is_prefix : forall k s,
  exists j, py_prefix k s = substring 0 j s
            /\ (0 <= k -> j = Z.to_nat k)%Z.
Proof.
  intros k s. unfold py_prefix. destruct (k <? 0)%Z eqn:E.
  - eexists; split; [reflexivity|]. intros. apply Z.ltb_lt in E. lia.
  - eexists; split; [reflexivity|]. reflexivity.
Qed.

Lemma py_prefix_drop_last : forall s,
  py_prefix (-1) s = substring 0 (String.length s - 1) s.
Proof. reflexivity. Qed.

(** The loop gives back a non-empty prefix of the bytes it was given. *)
Lemma shorten_until_decodable_prefix : forall n tb b,
  n = String.length tb ->
  shorten_until_decodable n tb = Some b ->
  exists j, b = substring 0 j tb /\ 0 < j <= String.length tb
            /\ Utf8.valid b = true.
Proof.
  induction n as [|n IH]; intros tb b Hn E; simpl in E; [discriminate|].
  destruct (Utf8.valid tb) eqn:Ev.
  - injection E as <-. exists (String.length tb). split; [|split; [lia|exact Ev]].
    symmetry. apply substring_0_all. lia.
  - rewrite py_prefix_drop_last in E.
    apply IH in E.
    + destruct E as [j [-> [Hj Hv]]].
      rewrite substring_0_length in Hj.
      rewrite substring_0_substring_0 in Hv |- *.
      exists (Nat.min j (String.length tb - 1)). split; [reflexivity|].
      split; [lia|exact Hv].
    + rewrite substring_0_length. lia.
Qed.

Lemma removesuffix_length : forall suf s,
  String.length s <= String.length (removesuffix suf s) + String.length suf.
Proof.
  intros suf s. unfold removesuffix.
  destruct (negb (suf =? "")%string && endswith suf s); [|lia].
  rewrite substring_0_length. lia.
Qed.

(** ** [pathlib] on a name *)

Lemma split_parts_length : forall c s x,
  In x (Str.split c s) -> String.length x <= String.length s.
Proof.
  intros c. induction s as [|a s IH]; intros x Hin; simpl in Hin.
  - destruct Hin as [<-|[]]. simpl. lia.
  - destruct (Str.split c s) as [|w ws] eqn:Es.
    + destruct Hin as [<-|[]]. simpl. lia.
    + destruct (Ascii.eqb a c).
      * destruct Hin as [<-|Hin]; [simpl; lia|].
        specialize (IH x Hin). simpl. lia.
      * destruct Hin as [<-|Hin].
        -- specialize (IH w (or_introl eq_refl)). simpl. lia.
        -- specialize (IH x (or_intror Hin)). simpl. lia.
Qed.

Lemma of_string_parts_length : forall s x,
  In x (PathLib.of_string s) -> String.length x <= String.length s.
Proof.
  intros s x Hin. unfold PathLib.of_string in Hin.
  assert (Hc : forall y, In y (filter PathLib.is_component (Str.split "/" s)) ->
                         String.length y <= String.length s).
  { intros y Hy. apply filter_In in Hy. eapply split_parts_length, Hy. }
  destruct s as [|c0 s]; [simpl in Hin; contradiction|].
  destruct (PathLib.count_slashes (String c0 s)) as [|[|[|k]]] eqn:Ek.
  - apply Hc, Hin.
  - destruct Hin as [<-|Hin]; [simpl; lia|apply Hc, Hin].
  - destruct Hin as [<-|Hin]; [|apply Hc, Hin].
    simpl in Ek. destruct (Ascii.eqb_spec c0 "/") as [->|Hn].
    + destruct s as [|c1 s]; [discriminate|]. simpl. lia.
    + destruct c0 as [[] [] [] [] [] [] [] []]; try discriminate.
      now contradiction Hn.
  - destruct Hin as [<-|Hin]; [simpl; lia|apply Hc, Hin].
Qed.

Lemma last_In : forall (A : Type) (l : list A) (d : A),
  l <> [] -> In (last l d) l.
Proof.
  induction l as [|a [|b l] IH]; intros d Hne; [contradiction| left; reflexivity|].
  right. apply IH. discriminate.
Qed.

Lemma name_empty_or_part : forall p,
  PathLib.name p = "" \/ In (PathLib.name p) p.
Proof.
  intros [|r [|q p]].
  - left. reflexivity.
  - simpl. destruct (PathLib.is_root r); [left|right; left]; reflexivity.
  - right. unfold PathLib.name.
    apply last_In. discriminate.
Qed.

Lemma name_length_le : forall s,
  String.length (PathLib.name (PathLib.of_string s)) <= String.length s.
Proof.
  intros s. destruct (name_empty_or_part (PathLib.of_string s)) as [->|Hin].
  - simpl. lia.
  - apply of_string_parts_length, Hin.
Qed.

(** ** The result fits *)

(** Whenever [truncate_filename] returns, the name of the path it returns
    takes at most [max_bytes] bytes, provided the extension alone does. *)
Theorem truncated_name_fits : forall max_bytes filename ret out,
  (Z.of_nat (String.length (PathLib.suffix (PathLib.of_string filename)))
   <= max_bytes)%Z ->
  truncate_filename max_bytes filename = Ok (ret, out) ->
  (Z.of_nat (String.length (PathLib.name ret)) <= max_bytes)%Z.
Proof.
  intros max_bytes filename ret out Hext E.
  unfold truncate_filename in E.
  set (ext := PathLib.suffix (PathLib.of_string filename)) in *.
  set (base := filename_base filename) in *.
  destruct (max_bytes - Z.of_nat (String.length ext) <? Z.of_nat (String.length base))%Z
    eqn:Ecmp.
  - assert (Htb : exists tb,
      ret = PathLib.of_string (tb ++ ext)
      /\ String.length tb
         <= String.length (py_prefix (max_bytes - Z.of_nat (String.length ext)) base)).
    { destruct (Utf8.valid (py_prefix (max_bytes - Z.of_nat (String.length ext)) base)).
      - cbn [bind] in E. injection E as <- _. eexists; split; [reflexivity|lia].
      - destruct (shorten_until_decodable _ _) as [b|] eqn:Es; [|discriminate].
        cbn [bind] in E. injection E as <- _. exists b. split; [reflexivity|].
        apply shorten_until_decodable_prefix in Es; [|reflexivity].
        destruct Es as [j [-> [Hj _]]]. rewrite substring_0_length. lia. }
    destruct Htb as [tb [-> Hlen]].
    destruct (py_prefix_is_prefix (max_bytes - Z.of_nat (String.length ext)) base)
      as [j [Ep Hj]].
    rewrite Ep, substring_0_length in Hlen.
    specialize (Hj ltac:(lia)).
    pose proof (name_length_le (tb ++ ext)) as Hn.
    rewrite sappend_length in Hn. lia.
  - injection E as <- _. apply Z.ltb_ge in Ecmp.
    pose proof (removesuffix_length ext (PathLib.name (PathLib.of_string filename))) as Hr.
    change (String.length (PathLib.name (PathLib.of_string filename))
            <= String.length base + String.length ext) in Hr.
    lia.
Qed.

(** ** Well-formed UTF-8 *)

Ltac bytes_to_prop :=
  unfold Utf8.lead4, Utf8.lead3, Utf8.lead2, Utf8.cont, Utf8.is_ascii,
         Utf8.byte_in in *;
  cbv zeta in *;
  repeat match goal with
         | H : _ = false |- _ => apply not_true_iff_false in H
         | |- _ = false => apply not_true_iff_false; intro
         end;
  repeat match goal with
         | H : _ && _ = true |- _ => apply andb_true_iff in H; destruct H
         | H : _ || _ = true |- _ => apply orb_true_iff in H; destruct H
         | H : (_ <=? _)%nat = true |- _ => apply Nat.leb_le in H
         end.

Ltac bytes := bytes_to_prop; lia.

Lemma lead2_not_ascii : forall b0, Utf8.lead2 b0 = true -> Utf8.is_ascii b0 = false.
Proof. intros. bytes. Qed.

Lemma lead3_not_shorter : forall b0 b1,
  Utf8.lead3 b0 b1 = true -> Utf8.is_ascii b0 = false /\ Utf8.lead2 b0 = false.
Proof. intros. split; bytes. Qed.

Lemma lead4_not_shorter : forall b0 b1,
  Utf8.lead4 b0 b1 = true ->
  Utf8.is_ascii b0 = false /\ Utf8.lead2 b0 = false /\ Utf8.lead3 b0 b1 = false.
Proof. intros. repeat split; bytes. Qed.

Lemma ascii_not_cont : forall c, Utf8.is_ascii c = true -> Utf8.cont c = false.
Proof. intros. bytes. Qed.

Lemma ascii_not_second : forall b0 c,
  Utf8.is_ascii c = true -> Utf8.lead3 b0 c = false /\ Utf8.lead4 b0 c = false.
Proof. intros. split; bytes. Qed.

(** A character in front does not change whether the rest decodes. *)
Lemma valid_uchar_app : forall c t,
  Utf8.uchar c = true -> Utf8.valid (c ++ t)%string = Utf8.valid t.
Proof.
  intros c t Hc.
  destruct c as [|b0 [|b1 [|b2 [|b3 [|b4 c]]]]]; simpl in Hc; try discriminate.
  - simpl. now rewrite Hc.
  - apply andb_true_iff in Hc as [H0 H1].
    simpl. rewrite (lead2_not_ascii _ H0), H0, H1. reflexivity.
  - apply andb_true_iff in Hc as [H0 H2].
    destruct (lead3_not_shorter _ _ H0) as [Ha Hb].
    simpl. rewrite Ha, Hb, H0, H2. reflexivity.
  - apply andb_true_iff in Hc as [Hc H3]. apply andb_true_iff in Hc as [H0 H2].
    destruct (lead4_not_shorter _ _ H0) as [Ha [Hb Hd]].
    simpl. rewrite Ha, Hb, Hd, H0, H2, H3. reflexivity.
Qed.

(** A well-formed non-empty byte string starts with a character. *)
Lemma valid_decompose : forall s,
  Utf8.valid s = true -> s <> "" ->
  exists c rest, s = (c ++ rest)%string /\ Utf8.uchar c = true
                 /\ Utf8.valid rest = true.
Proof.
  intros s Hv Hne. destruct s as [|b0 s1]; [contradiction|]. simpl in Hv.
  destruct (Utf8.is_ascii b0) eqn:E0.
  { exists (String b0 ""), s1. simpl. rewrite E0. auto. }
  destruct s1 as [|b1 s2]; [discriminate|].
  destruct (Utf8.lead2 b0) eqn:E2.
  { apply andb_true_iff in Hv as [H1 Hv].
    exists (String b0 (String b1 "")), s2. simpl. rewrite E2, H1. auto. }
  destruct s2 as [|b2 s3]; [discriminate|].
  destruct (Utf8.lead3 b0 b1) eqn:E3.
  { apply andb_true_iff in Hv as [H2 Hv].
    exists (String b0 (String b1 (String b2 ""))), s3. simpl. rewrite E3, H2. auto. }
  destruct s3 as [|b3 s4]; [discriminate|].
  apply andb_true_iff in Hv as [Hv H4]. apply andb_true_iff in Hv as [Hv H3].
  apply andb_true_iff in Hv as [H0 H2].
  exists (String b0 (String b1 (String b2 (String b3 "")))), s4.
  simpl. rewrite H0, H2, H3. auto.
Qed.

Lemma uchar_length : forall c,
  Utf8.uchar c = true -> 1 <= String.length c <= 4.
Proof.
  intros c Hc.
  destruct c as [|b0 [|b1 [|b2 [|b3 [|b4 c]]]]]; simpl in *; try discriminate; lia.
Qed.

Lemma substring_0_app_more : forall a b j,
  substring 0 (String.length a + j) (a ++ b)%string
  = (a ++ substring 0 j b)%string.
Proof.
  induction a as [|c a IH]; intros b j; simpl; [reflexivity|].
  now rewrite IH.
Qed.

(** Cutting a well-formed byte string at any point splits at most one
    character: a well-formed prefix ends less than four bytes before the
    cut. *)
Lemma valid_prefix_near : forall n s k,
  String.length s <= n ->
  Utf8.valid s = true ->
  k <= String.length s ->
  exists j, j <= k /\ k <= j + 3 /\ Utf8.valid (substring 0 j s) = true.
Proof.
  induction n as [|n IH]; intros s k Hn Hv Hk.
  - destruct s; simpl in *; [|lia]. exists 0. repeat split; try lia.
  - destruct s as [|b s'] eqn:Es.
    { simpl in Hk. exists 0. repeat split; try lia. }
    rewrite <- Es in *.
    destruct (@valid_decompose s Hv) as [c [rest [-> [Hc Hr]]]].
    { rewrite Es. discriminate. }
    pose proof (@uchar_length c Hc) as Hl.
    rewrite sappend_length in Hn, Hk.
    destruct (Nat.lt_ge_cases k (String.length c)) as [Hlt|Hge].
    + exists 0. repeat split; try lia.
      destruct (c ++ rest)%string; reflexivity.
    + destruct (IH rest (k - String.length c)) as [j [Hj1 [Hj2 Hj3]]];
        try lia; try assumption.
      exists (String.length c + j). repeat split; try lia.
      rewrite substring_0_app_more, valid_uchar_app; assumption.
Qed.

(** The loop stops at the longest well-formed prefix, when one of at
    least one byte exists. *)
Lemma shorten_until_decodable_finds : forall n tb j,
  n = String.length tb ->
  0 < j <= n ->
  Utf8.valid (substring 0 j tb) = true ->
  exists j', j <= j' <= n
             /\ shorten_until_decodable n tb = Some (substring 0 j' tb).
Proof.
  induction n as [|n IH]; intros tb j Hn Hj Hv; [lia|].
  simpl. destruct (Utf8.valid tb) eqn:Ev.
  - exists (S n). split; [lia|]. rewrite substring_0_all; [reflexivity|lia].
  - destruct (Nat.eq_dec j (S n)) as [->|Hne].
    { rewrite substring_0_all in Hv by lia. congruence. }
    rewrite py_prefix_drop_last.
    destruct (IH (substring 0 (String.length tb - 1) tb) j) as [j' [Hj' E]].
    + rewrite substring_0_length. lia.
    + lia.
    + rewrite substring_0_substring_0. replace (Nat.min j _) with j by lia. exact Hv.
    + exists j'. split; [lia|]. rewrite E, substring_0_substring_0.
      do 2 f_equal. lia.
Qed.

(** ** ASCII separators and well-formedness *)

(** A character of several bytes has no ASCII byte, so an ASCII byte in a
    well-formed byte string is never inside a character. *)
Lemma uchar_before_ascii : forall ch rest a c b,
  Utf8.uchar ch = true ->
  Utf8.is_ascii c = true ->
  (ch ++ rest)%string = (a ++ String c b)%string ->
  a <> "" ->
  exists a', a = (ch ++ a')%string /\ rest = (a' ++ String c b)%string.
Proof.
  intros ch rest a c b Hch Hc E Hne.
  pose proof (ascii_not_cont c Hc) as Hnc.
  destruct a as [|a0 a]; [contradiction|]. clear Hne.
  destruct ch as [|b0 [|b1 [|b2 [|b3 [|b4 ch]]]]]; simpl in Hch; try discriminate;
    simpl in E; injection E as -> E.
  - exists a. split; [reflexivity|exact E].
  - apply andb_true_iff in Hch as [H0 H1].
    destruct a as [|a1 a]; simpl in E; injection E as -> E.
    + congruence.
    + exists a. split; [reflexivity|exact E].
  - apply andb_true_iff in Hch as [H0 H2].
    destruct a as [|a1 a]; simpl in E; injection E as -> E.
    + destruct (ascii_not_second a0 c Hc). congruence.
    + destruct a as [|a2 a]; simpl in E; injection E as -> E.
      * congruence.
      * exists a. split; [reflexivity|exact E].
  - apply andb_true_iff in Hch as [Hch H3]. apply andb_true_iff in Hch as [H0 H2].
    destruct a as [|a1 a]; simpl in E; injection E as -> E.
    + destruct (ascii_not_second a0 c Hc). congruence.
    + destruct a as [|a2 a]; simpl in E; injection E as -> E.
      * congruence.
      * destruct a as [|a3 a]; simpl in E; injection E as -> E.
        -- congruence.
        -- exists a. split; [reflexivity|exact E].
Qed.

Lemma valid_split_at_ascii : forall n a c b,
  String.length a <= n ->
  Utf8.is_ascii c = true ->
  Utf8.valid (a ++ String c b)%string = true ->
  Utf8.valid a = true /\ Utf8.valid b = true.
Proof.
  induction n as [|n IH]; intros a c b Hn Hc Hv.
  - destruct a; simpl in Hn; [|lia]. simpl in Hv. rewrite Hc in Hv. auto.
  - destruct a as [|a0 a1] eqn:Ea.
    { simpl in Hv. rewrite Hc in Hv. auto. }
    rewrite <- Ea in *.
    destruct (@valid_decompose (a ++ String c b)%string Hv)
      as [ch [rest [E [Hch Hr]]]].
    { rewrite Ea. discriminate. }
    symmetry in E.
    destruct (@uchar_before_ascii ch rest a c b Hch Hc E) as [a' [-> ->]].
    { rewrite Ea. discriminate. }
    pose proof (@uchar_length ch Hch) as Hl.
    rewrite sappend_length in Hn.
    destruct (IH a' c b ltac:(lia) Hc Hr) as [Ha Hb].
    split; [|exact Hb]. rewrite valid_uchar_app; assumption.
Qed.

(** ** [split] and [rfind] *)

Lemma split_not_nil : forall c s, Str.split c s <> [].
Proof.
  intros c [|a s]; simpl; [discriminate|].
  destruct (Str.split c s); [discriminate|].
  destruct (Ascii.eqb a c); discriminate.
Qed.

Lemma split_without_separator : forall c s,
  has_char c s = false -> Str.split c s = [s].
Proof.
  intros c. induction s as [|a s IH]; intros Hs; simpl in *; [reflexivity|].
  apply orb_false_iff in Hs as [Ha Hs]. rewrite (IH Hs), Ha. reflexivity.
Qed.

Lemma split_at_first_separator : forall c a b,
  has_char c a = false ->
  Str.split c (a ++ String c b)%string = a :: Str.split c b.
Proof.
  intros c. induction a as [|x a IH]; intros b Ha; simpl in *.
  - rewrite Ascii.eqb_refl.
    destruct (Str.split c b) eqn:E; [now apply split_not_nil in E|reflexivity].
  - apply orb_false_iff in Ha as [Hx Ha]. rewrite (IH b Ha), Hx. reflexivity.
Qed.

Lemma first_separator : forall c s,
  has_char c s = true ->
  exists a b, s = (a ++ String c b)%string /\ has_char c a = false.
Proof.
  intros c. induction s as [|x s IH]; intros Hs; simpl in Hs; [discriminate|].
  destruct (Ascii.eqb_spec x c) as [->|Hne].
  - exists "", s. split; reflexivity.
  - simpl in Hs. destruct (IH Hs) as [a [b [-> Ha]]].
    exists (String x a), b. split; [reflexivity|].
    simpl. rewrite Ha. destruct (Ascii.eqb_spec x c); [contradiction|reflexivity].
Qed.

Lemma valid_split_parts : forall c n s x,
  String.length s <= n ->
  Utf8.is_ascii c = true ->
  Utf8.valid s = true ->
  In x (Str.split c s) -> Utf8.valid x = true.
Proof.
  intros c. induction n as [|n IH]; intros s x Hn Hc Hv Hin.
  - destruct s; simpl in Hn; [|lia]. destruct Hin as [<-|[]]. reflexivity.
  - destruct (has_char c s) eqn:Eh.
    + destruct (first_separator c s Eh) as [a [b [-> Ha]]].
      rewrite (split_at_first_separator c a b Ha) in Hin.
      destruct (@valid_split_at_ascii (String.length a) a c b (le_n _) Hc Hv)
        as [Hva Hvb].
      destruct Hin as [<-|Hin]; [exact Hva|].
      rewrite sappend_length in Hn. simpl in Hn.
      apply (IH b x); try assumption. lia.
    + rewrite (split_without_separator c s Eh) in Hin.
      destruct Hin as [<-|[]]. exact Hv.
Qed.

Lemma rfind_splits : forall c s i,
  Str.rfind c s = Some i ->
  exists rest, s = (substring 0 i s ++ String c rest)%string
               /\ Str.rfind c rest = None.
Proof.
  intros c. induction s as [|a s IH]; intros i E; simpl in E; [discriminate|].
  destruct (Str.rfind c s) as [j|] eqn:Er.
  - injection E as <-. destruct (IH j eq_refl) as [rest [Hs Hr]].
    exists rest. split; [|exact Hr]. simpl. now rewrite <- Hs.
  - destruct (Ascii.eqb_spec a c) as [->|Hne]; [|discriminate].
    injection E as <-. exists s. split; [reflexivity|exact Er].
Qed.

Lemma substring_length : forall i m s,
  String.length (substring i m s) = Nat.min m (String.length s - i).
Proof.
  induction i as [|i IH]; intros m s.
  - rewrite substring_0_length. f_equal. lia.
  - destruct s as [|c s]; simpl; [destruct m; reflexivity|apply IH].
Qed.

(** ** The base of a well-formed name is well-formed *)

Lemma of_string_parts : forall s x,
  In x (PathLib.of_string s) ->
  In x (Str.split "/" s) \/ x = "/" \/ x = "//".
Proof.
  intros s x Hin. unfold PathLib.of_string in Hin.
  destruct (PathLib.count_slashes s) as [|[|[|k]]];
    try (destruct Hin as [<-|Hin]; [auto|]);
    left; apply filter_In in Hin; apply Hin.
Qed.

Lemma valid_name : forall s,
  Utf8.valid s = true -> Utf8.valid (PathLib.name (PathLib.of_string s)) = true.
Proof.
  intros s Hv. destruct (name_empty_or_part (PathLib.of_string s)) as [->|Hin];
    [reflexivity|].
  apply of_string_parts in Hin. destruct Hin as [Hin|[->| ->]]; try reflexivity.
  eapply (@valid_split_parts "/"); [apply le_n|reflexivity|exact Hv|exact Hin].
Qed.

Lemma valid_substring_before_dot : forall s i,
  Utf8.valid s = true -> Str.rfind "." s = Some i ->
  Utf8.valid (substring 0 i s) = true.
Proof.
  intros s i Hv Hr. destruct (rfind_splits _ _ Hr) as [rest [Hs _]].
  rewrite Hs in Hv.
  destruct (@valid_split_at_ascii _ _ "." _ (le_n _) eq_refl Hv) as [H _].
  exact H.
Qed.

Lemma valid_filename_base : forall filename,
  Utf8.valid filename = true -> Utf8.valid (filename_base filename) = true.
Proof.
  intros filename Hv. pose proof (valid_name filename Hv) as Hn.
  unfold filename_base. cbv zeta. unfold removesuffix.
  destruct (negb _ && _) eqn:Ec; [|exact Hn].
  unfold PathLib.suffix in *. cbv zeta in *.
  set (name := PathLib.name (PathLib.of_string filename)) in *.
  destruct (Str.rfind "." name) as [i|] eqn:Er; [|discriminate].
  destruct ((0 <? i)%nat && (i <? String.length name - 1)%nat) eqn:Ei;
    [|discriminate].
  apply andb_true_iff in Ei as [_ Hi]. apply Nat.ltb_lt in Hi.
  rewrite substring_length.
  replace (String.length name - Nat.min _ _) with i by lia.
  apply valid_substring_before_dot; assumption.
Qed.

(** ** Truncation of a name that is too long *)

(** A name that is too long is cut inside its base, never inside a
    character: when at least four bytes are left for the base, the call
    succeeds, the extension is kept, and the base that is kept is a
    well-formed prefix of the old one, at most three bytes shorter than
    the room there is. *)
Theorem truncation_keeps_a_well_formed_prefix : forall max_bytes filename,
  Utf8.valid filename = true ->
  (4 <= max_bytes
        - Z.of_nat (String.length (PathLib.suffix (PathLib.of_string filename))))%Z ->
  (max_bytes - Z.of_nat (String.length (PathLib.suffix (PathLib.of_string filename)))
   < Z.of_nat (String.length (filename_base filename)))%Z ->
  exists j,
    truncate_filename max_bytes filename
    = Ok (PathLib.of_string
            (substring 0 j (filename_base filename)
             ++ PathLib.suffix (PathLib.of_string filename)),
          [truncation_warning filename
             (PathLib.of_string
                (substring 0 j (filename_base filename)
                 ++ PathLib.suffix (PathLib.of_string filename)))])
    /\ (max_bytes
        - Z.of_nat (String.length (PathLib.suffix (PathLib.of_string filename)))
        - 3 <= Z.of_nat j
        <= max_bytes
           - Z.of_nat (String.length (PathLib.suffix (PathLib.of_string filename))))%Z
    /\ Utf8.valid (substring 0 j (filename_base filename)) = true.
Proof.
  intros max_bytes filename Hv Hroom Hlong.
  pose proof (valid_filename_base filename Hv) as Hb.
  unfold truncate_filename.
  set (ext := PathLib.suffix (PathLib.of_string filename)) in *.
  set (base := filename_base filename) in *.
  set (room := (max_bytes - Z.of_nat (String.length ext))%Z) in *.
  apply Z.ltb_lt in Hlong as Hcmp. rewrite Hcmp.
  assert (Hp : py_prefix room base = substring 0 (Z.to_nat room) base).
  { unfold py_prefix. destruct (room <? 0)%Z eqn:En; [|reflexivity].
    apply Z.ltb_lt in En. lia. }
  rewrite Hp.
  destruct (Utf8.valid (substring 0 (Z.to_nat room) base)) eqn:Ev.
  - exists (Z.to_nat room). cbn [bind]. split; [reflexivity|]. split; [lia|exact Ev].
  - destruct (@valid_prefix_near (String.length base) base (Z.to_nat room)
                (le_n _) Hb ltac:(lia)) as [j0 [Hj1 [Hj2 Hj3]]].
    destruct (@shorten_until_decodable_finds
                (String.length (substring 0 (Z.to_nat room) base))
                (substring 0 (Z.to_nat room) base) j0 eq_refl)
      as [j' [Hj' E]].
    + rewrite substring_0_length. lia.
    + rewrite substring_0_substring_0. replace (Nat.min j0 _) with j0 by lia.
      exact Hj3.
    + rewrite substring_0_length in Hj'.
      rewrite E. cbn [bind].
      apply shorten_until_decodable_prefix in E; [|reflexivity].
      destruct E as [_ [_ [_ Hv']]].
      rewrite substring_0_substring_0 in Hv' |- *.
      replace (Nat.min j' (Z.to_nat room)) with j' in * by lia.
      exists j'. split; [reflexivity|]. split; [lia|exact Hv'].
Qed.

Lemma uchar_proper_prefix_invalid : forall ch rest k,
  Utf8.uchar ch = true -> 0 < k < String.length ch ->
  Utf8.valid (substring 0 k (ch ++ rest)%string) = false.
Proof.
  intros ch rest k Hch Hk.
  destruct ch as [|b0 [|b1 [|b2 [|b3 [|b4 ch]]]]]; simpl in Hch; try discriminate;
    simpl in Hk; try lia.
  - apply andb_true_iff in Hch as [H0 H1].
    assert (k = 1) as -> by lia. simpl. now rewrite (lead2_not_ascii _ H0).
  - apply andb_true_iff in Hch as [H0 H2].
    destruct (lead3_not_shorter _ _ H0) as [Ha Hb].
    assert (k = 1 \/ k = 2) as [-> | ->] by lia; simpl; rewrite Ha; try reflexivity.
    now rewrite Hb.
  - apply andb_true_iff in Hch as [Hch H3]. apply andb_true_iff in Hch as [H0 H2].
    destruct (lead4_not_shorter _ _ H0) as [Ha [Hb Hd]].
    assert (k = 1 \/ k = 2 \/ k = 3) as [-> | [-> | ->]] by lia;
      simpl; rewrite Ha; try reflexivity; rewrite Hb; try reflexivity.
    now rewrite Hd.
Qed.

Lemma shorten_inside_first_character : forall ch rest n,
  Utf8.uchar ch = true -> n < String.length ch ->
  shorten_until_decodable n (substring 0 n (ch ++ rest)%string) = None.
Proof.
  intros ch rest n Hch. induction n as [|n IH]; intros Hn; [reflexivity|].
  cbn [shorten_until_decodable].
  rewrite uchar_proper_prefix_invalid by (assumption || lia).
  rewrite py_prefix_drop_last, substring_0_substring_0, substring_0_length,
    sappend_length.
  replace (Nat.min _ (S n)) with n by lia.
  apply IH. lia.
Qed.

(** With room for fewer bytes than the first character of the base
    takes, but for at least one, no prefix decodes and the call raises
    [ValueError]. *)
Theorem truncation_fails_inside_the_first_character :
  forall max_bytes filename ch rest,
  filename_base filename = (ch ++ rest)%string ->
  Utf8.uchar ch = true ->
  (0 < max_bytes
       - Z.of_nat (String.length (PathLib.suffix (PathLib.of_string filename)))
     < Z.of_nat (String.length ch))%Z ->
  truncate_filename max_bytes filename
  = Err (ValueError ("'" ++ filename ++ "' could not be truncated")).
Proof.
  intros max_bytes filename ch rest Hbase Hch Hroom.
  unfold truncate_filename.
  set (ext := PathLib.suffix (PathLib.of_string filename)) in *.
  rewrite Hbase.
  set (room := (max_bytes - Z.of_nat (String.length ext))%Z) in *.
  assert (Hcmp : (room <? Z.of_nat (String.length (ch ++ rest)))%Z = true).
  { apply Z.ltb_lt. rewrite sappend_length. lia. }
  rewrite Hcmp.
  assert (Hp : py_prefix room (ch ++ rest)
               = substring 0 (Z.to_nat room) (ch ++ rest)%string).
  { unfold py_prefix. destruct (room <? 0)%Z eqn:En; [|reflexivity].
    apply Z.ltb_lt in En. lia. }
  rewrite Hp, uchar_proper_prefix_invalid by (assumption || lia).
  rewrite substring_0_length, sappend_length.
  replace (Nat.min (Z.to_nat room) _) with (Z.to_nat room) by lia.
  rewrite shorten_inside_first_character by (assumption || lia).
  reflexivity.
Qed.

(** ** Names that fit *)

Lemma base_and_extension_lengths : forall filename,
  String.length (filename_base filename)
  + String.length (PathLib.suffix (PathLib.of_string filename))
  = String.length (PathLib.name (PathLib.of_string filename)).
Proof.
  intros filename. unfold filename_base. cbv zeta.
  unfold PathLib.suffix. cbv zeta.
  set (name := PathLib.name (PathLib.of_string filename)).
  destruct (Str.rfind "." name) as [i|] eqn:Er;
    [|unfold removesuffix; simpl; lia].
  destruct ((0 <? i)%nat && (i <? String.length name - 1)%nat) eqn:Ei;
    [|unfold removesuffix; simpl; lia].
  apply andb_true_iff in Ei as [_ Hi]. apply Nat.ltb_lt in Hi.
  unfold removesuffix, endswith.
  rewrite substring_length.
  replace (Nat.min (String.length name - i) (String.length name - i))
    with (String.length name - i) by lia.
  replace (String.length name - (String.length name - i)) with i by lia.
  rewrite String.eqb_refl.
  assert (Hle : (String.length name - i <=? String.length name)%nat = true)
    by (apply Nat.leb_le; lia).
  rewrite Hle.
  destruct (substring i (String.length name - i) name =? "")%string eqn:Ee.
  - apply String.eqb_eq in Ee.
    pose proof (substring_length i (String.length name - i) name) as Hl.
    rewrite Ee in Hl. simpl in Hl. lia.
  - cbn [negb andb]. rewrite substring_0_length. lia.
Qed.

(** A name of at most [max_bytes] bytes is returned as the path it was
    given, directories included, and nothing is printed. *)
Theorem short_names_pass_unchanged : forall max_bytes filename,
  (Z.of_nat (String.length (PathLib.name (PathLib.of_string filename)))
   <= max_bytes)%Z ->
  truncate_filename max_bytes filename = Ok (PathLib.of_string filename, []).
Proof.
  intros max_bytes filename Hfit. unfold truncate_filename.
  pose proof (base_and_extension_lengths filename) as Hl.
  destruct (_ <? _)%Z eqn:Ecmp; [|reflexivity].
  apply Z.ltb_lt in Ecmp. lia.
Qed.

(** ** The file names [gen_output_path] produces *)

Lemma has_char_app : forall c a b,
  has_char c (a ++ b)%string = has_char c a || has_char c b.
Proof.
  intros c a b. induction a as [|x a IH]; simpl; [reflexivity|].
  now rewrite IH, orb_assoc.
Qed.

Lemma has_char_substring_0 : forall c s j,
  has_char c s = false -> has_char c (substring 0 j s) = false.
Proof.
  intros c. induction s as [|x s IH]; intros [|j] Hs; simpl in *; try reflexivity.
  apply orb_false_iff in Hs as [Hx Hs]. now rewrite Hx, IH.
Qed.

Lemma replace_char_removes : forall a b s,
  a <> b -> has_char a (Str.replace_char a b s) = false.
Proof.
  intros a b s Hab. induction s as [|x s IH]; simpl; [reflexivity|].
  fold (Str.replace_char a b s). rewrite IH, orb_false_r.
  destruct (Ascii.eqb_spec x a) as [->|Hx].
  - destruct (Ascii.eqb_spec b a); [congruence|reflexivity].
  - destruct (Ascii.eqb_spec x a); [contradiction|reflexivity].
Qed.

Lemma slash_free_not_root : forall s,
  has_char "/" s = false -> PathLib.is_root s = false.
Proof.
  intros [|c s] Hs; [reflexivity|]. simpl in Hs.
  apply orb_false_iff in Hs as [Hc _]. apply Ascii.eqb_neq in Hc.
  unfold PathLib.is_root.
  destruct c as [[] [] [] [] [] [] [] []]; try reflexivity. now contradiction Hc.
Qed.

Lemma slash_free_count : forall s,
  has_char "/" s = false -> PathLib.count_slashes s = 0.
Proof.
  intros [|c s] Hs; [reflexivity|]. simpl in Hs.
  apply orb_false_iff in Hs as [Hc _]. apply Ascii.eqb_neq in Hc.
  unfold PathLib.count_slashes.
  destruct c as [[] [] [] [] [] [] [] []]; try reflexivity. now contradiction Hc.
Qed.

(** [Path(s)] for a name that ends in [.flac] and has no slash is the
    one-part path of that name. *)
Lemma of_string_flac_name : forall stem,
  has_char "/" stem = false ->
  PathLib.of_string (stem ++ ".flac") = [(stem ++ ".flac")%string].
Proof.
  intros stem Hs.
  assert (Hf : has_char "/" (stem ++ ".flac") = false).
  { rewrite has_char_app, Hs. reflexivity. }
  unfold PathLib.of_string. rewrite (slash_free_count _ Hf).
  rewrite (split_without_separator _ _ Hf). cbn [filter].
  assert (Hc : PathLib.is_component (stem ++ ".flac") = true).
  { unfold PathLib.is_component.
    destruct stem as [|c [|c' stem]]; try reflexivity.
    - simpl. destruct (Ascii.eqb c "."); reflexivity.
    - simpl. destruct (Ascii.eqb c "."); reflexivity. }
  now rewrite Hc.
Qed.

Lemma rfind_last_occurrence : forall c a b,
  Str.rfind c b = None ->
  Str.rfind c (a ++ String c b)%string = Some (String.length a).
Proof.
  intros c a b Hb. induction a as [|x a IH]; simpl.
  - now rewrite Hb, Ascii.eqb_refl.
  - now rewrite IH.
Qed.

Lemma name_of_flac_name : forall stem,
  has_char "/" stem = false ->
  PathLib.name [(stem ++ ".flac")%string] = (stem ++ ".flac")%string.
Proof.
  intros stem Hs. unfold PathLib.name.
  rewrite slash_free_not_root; [reflexivity|].
  rewrite has_char_app, Hs. reflexivity.
Qed.

Lemma suffix_of_flac_name : forall stem,
  has_char "/" stem = false -> stem <> "" ->
  PathLib.suffix [(stem ++ ".flac")%string] = ".flac".
Proof.
  intros stem Hs Hne. unfold PathLib.suffix. cbv zeta.
  rewrite (name_of_flac_name _ Hs).
  rewrite (rfind_last_occurrence "." stem "flac" eq_refl).
  rewrite sappend_length. simpl String.length.
  assert (Hpos : 0 < String.length stem) by (destruct stem; [contradiction|simpl; lia]).
  assert (H1 : (0 <? String.length stem)%nat = true) by (apply Nat.ltb_lt; lia).
  assert (H2 : (String.length stem <? String.length stem + 5 - 1)%nat = true)
    by (apply Nat.ltb_lt; lia).
  rewrite H1, H2. cbn [andb].
  replace (String.length stem + 5 - String.length stem) with 5 by lia.
  rewrite substring_skip_app. reflexivity.
Qed.

Lemma base_of_flac_name : forall stem,
  has_char "/" stem = false -> stem <> "" ->
  filename_base (stem ++ ".flac") = stem.
Proof.
  intros stem Hs Hne. unfold filename_base. cbv zeta.
  rewrite (of_string_flac_name _ Hs), (suffix_of_flac_name Hs Hne),
    (name_of_flac_name _ Hs).
  unfold removesuffix, endswith. rewrite sappend_length. simpl String.length.
  replace (String.length stem + 5 - 5) with (String.length stem) by lia.
  rewrite substring_skip_app, substring_0_app.
  assert (Hle : (5 <=? String.length stem + 5)%nat = true) by (apply Nat.leb_le; lia).
  rewrite Hle. reflexivity.
Qed.

(** What the sanitizer returns for a slash-free name that ends in
    [.flac]: one part, still ending in [.flac], of at most 255 bytes. *)
Lemma truncate_default_flac : forall stem file,
  has_char "/" stem = false ->
  truncate_default (stem ++ ".flac") = Ok file ->
  exists stem', file = [(stem' ++ ".flac")%string]
                /\ has_char "/" stem' = false
                /\ String.length (stem' ++ ".flac") <= 255.
Proof.
  intros stem file Hs E. unfold truncate_default in E.
  destruct (truncate_filename 255 (stem ++ ".flac")) as [[ret out]|e] eqn:Et;
    [|discriminate].
  cbn [bind] in E. injection E as <-.
  destruct (String.eqb_spec stem "") as [->|Hne].
  { vm_compute in Et. injection Et as <- _. exists "". auto with arith.
    repeat split. vm_compute. lia. }
  unfold truncate_filename in Et.
  rewrite (of_string_flac_name _ Hs), (suffix_of_flac_name Hs Hne),
    (base_of_flac_name Hs Hne) in Et.
  simpl String.length in Et.
  destruct (255 - Z.of_nat 5 <? Z.of_nat (String.length stem))%Z eqn:Hcmp.
  2:{ injection Et as <- _. apply Z.ltb_ge in Hcmp. exists stem.
      split; [reflexivity|]. split; [exact Hs|].
      rewrite sappend_length. simpl String.length. lia. }
  apply Z.ltb_lt in Hcmp.
    change (py_prefix (255 - Z.of_nat 5) stem) with (substring 0 250 stem) in Et.
    assert (Hj : exists j, j <= 250
                 /\ ret = PathLib.of_string (substring 0 j stem ++ ".flac")).
    { destruct (Utf8.valid (substring 0 250 stem)).
      - cbn [bind] in Et. injection Et as <- _. exists 250. auto.
      - destruct (shorten_until_decodable _ _) as [b|] eqn:Eb; [|discriminate].
        cbn [bind] in Et. injection Et as <- _.
        apply shorten_until_decodable_prefix in Eb; [|reflexivity].
        destruct Eb as [j [-> [Hj _]]].
        rewrite substring_0_length in Hj. rewrite substring_0_substring_0.
        exists (Nat.min j 250). split; [lia|reflexivity]. }
    destruct Hj as [j [Hj ->]].
    pose proof (has_char_substring_0 "/" stem j Hs) as Hs'.
    exists (substring 0 j stem). rewrite (of_string_flac_name _ Hs').
    split; [reflexivity|]. split; [exact Hs'|].
    rewrite sappend_length, substring_0_length. simpl String.length. lia.
Qed.

Lemma name_of_last_part : forall (l : path) x,
  PathLib.is_root x = false -> PathLib.name (l ++ [x]) = x.
Proof.
  intros l x Hx. destruct l as [|a [|b l]].
  - simpl. now rewrite Hx.
  - reflexivity.
  - exact (last_last (a :: b :: l) x "").
Qed.

(** Whatever the tags hold, the file [gen_output_path] names ends in
    [.flac] and its name takes at most 255 bytes. *)
Theorem output_file_name_is_short : forall tags out_dir disc_padding track_padding p,
  gen_output_path truncate_default tags out_dir disc_padding track_padding = Ok p ->
  exists stem, PathLib.name p = (stem ++ ".flac")%string
               /\ String.length (PathLib.name p) <= 255.
Proof.
  intros tags out_dir dp tp p E. unfold gen_output_path in E.
  apply bind_ok_inv in E as [av [_ E]].
  apply bind_ok_inv in E as [album_dir [_ E]].
  apply bind_ok_inv in E as [filename [_ E]].
  apply bind_ok_inv in E as [file [Ef E]].
  injection E as <-.
  apply truncate_default_flac in Ef.
  - destruct Ef as [stem [-> [Hs Hl]]].
    assert (Hr : PathLib.is_root (stem ++ ".flac") = false).
    { apply slash_free_not_root. rewrite has_char_app, Hs. reflexivity. }
    assert (Hn : PathLib.name (out_dir // PathLib.of_string album_dir
                               // [(stem ++ ".flac")%string])
                 = (stem ++ ".flac")%string).
    { unfold PathLib.join at 1. cbn [PathLib.is_absolute].
      rewrite Hr. apply name_of_last_part, Hr. }
    exists stem. rewrite Hn. auto.
  - apply replace_char_removes. discriminate.
Qed.

(* ================================================================== *)
(** * Album directories *)

Lemma parent_of_last_part : forall (l : path) x,
  PathLib.is_root x = false -> PathLib.parent (l ++ [x]) = l.
Proof.
  intros l x Hx. destruct l as [|a [|b l]].
  - simpl. now rewrite Hx.
  - reflexivity.
  - exact (removelast_last (a :: b :: l) x).
Qed.

Section AlbumDirsFacts.
Context {W : Type} (fs : FileSystem W).

(** Every album of the loop has its line in the output, and no line is
    lost. *)
Lemma make_album_dir_loop : forall out_dir albums w out0 w' out,
  for_each (make_album_dir fs out_dir) albums (w, out0) = Ok (w', out) ->
  (forall m, In m out0 -> In m out)
  /\ forall a, In a albums -> In (created_message (album_dir out_dir a)) out.
Proof.
  intros out_dir. induction albums as [|a0 albums IH]; intros w out0 w' out E.
  - simpl in E. injection E as <- <-. split; [auto|contradiction].
  - cbn [for_each] in E. apply bind_ok_inv in E as [[w1 out1] [E1 E]].
    unfold make_album_dir in E1. apply bind_ok_inv in E1 as [w2 [_ E1]].
    injection E1 as <- <-.
    destruct (IH _ _ _ _ E) as [Hkeep Hall]. split.
    + intros m Hm. apply Hkeep, in_or_app. left. exact Hm.
    + intros a [<-|Ha]; [|exact (Hall a Ha)].
      apply Hkeep, in_or_app. right. left. reflexivity.
Qed.

(** The output path of every track of an accepted manifest lies directly
    in the directory [make_album_dirs] made, and announced, for the album
    the track is filed under. *)
Theorem output_lands_in_its_album_directory :
  forall resolve trackinfo_path input_map lines info a d n tags
         out_dir disc_padding track_padding p w w' out,
  parse_trackinfo_meta resolve trackinfo_path input_map lines = Ok info ->
  tree_get a d n info = Some tags ->
  gen_output_path truncate_default tags out_dir disc_padding track_padding = Ok p ->
  make_album_dirs fs w out_dir info = Ok (w', out) ->
  PathLib.parent p = album_dir out_dir a
  /\ In (created_message (album_dir out_dir a)) out.
Proof.
  intros resolve tpath im lines info a d n tags out_dir dp tp p w w' out
         Ep Eg Eo Em.
  assert (Hleaf : leaf_agrees a d tags).
  { unfold parse_trackinfo_meta in Ep.
    apply bind_ok_inv in Ep as (st & Est & Ep). inversion Ep; subst info.
    assert (Hinv : leaves_agree st).
    { apply (@for_each_invariant _ _ (process_line resolve tpath im)
               leaves_agree lines initial_pstate st).
      - intros s x s' _ Hs Hx. eapply process_line_leaves_agree; eauto.
      - intros a0 d0 n0 r0 E0. unfold tree_get in E0. simpl in E0. discriminate.
      - exact Est. }
    exact (Hinv _ _ _ _ Eg). }
  split.
  - unfold gen_output_path in Eo.
    apply bind_ok_inv in Eo as [av [Eav Eo]].
    apply bind_ok_inv in Eo as [dir [Edir Eo]].
    apply bind_ok_inv in Eo as [filename [_ Eo]].
    apply bind_ok_inv in Eo as [file [Ef Eo]].
    injection Eo as <-.
    apply truncate_default_flac in Ef; [|apply replace_char_removes; discriminate].
    destruct Ef as [stem [-> [Hs _]]].
    assert (Hr : PathLib.is_root (stem ++ ".flac") = false).
    { apply slash_free_not_root. rewrite has_char_app, Hs. reflexivity. }
    assert (Hdir : out_dir // PathLib.of_string dir = album_dir out_dir a).
    { destruct Hleaf as [_ [Ha|[_ Ha]]]; rewrite Ha in Eav; [|discriminate].
      injection Eav as <-. destruct a as [s|]; simpl in Edir;
        injection Edir as <-; reflexivity. }
    rewrite Hdir. unfold PathLib.join at 1. cbn [PathLib.is_absolute].
    rewrite Hr. apply parent_of_last_part, Hr.
  - unfold make_album_dirs in Em.
    apply make_album_dir_loop in Em as [_ Hall]. apply Hall.
    unfold tree_get in Eg. destruct (dget a info) as [discs|] eqn:Ea; [|discriminate].
    eapply dget_In_dkeys; eauto.
Qed.

End AlbumDirsFacts.

(* ================================================================== *)
(** * The printed track map *)

(** A loop whose body stores one entry per item returns only entries it
    was given or stored. *)
Lemma for_each_entries_from :
  forall (X K V : Type) `{EqDec K}
         (body : dict K V -> X -> result (dict K V))
         (key : X -> K) (R : X -> V -> Prop),
  (forall s x s', body s x = Ok s' -> exists v, R x v /\ s' = dset (key x) v s) ->
  forall xs s0 s, for_each body xs s0 = Ok s ->
  forall k v, In (k, v) s ->
    In (k, v) s0 \/ exists x, In x xs /\ key x = k /\ R x v.
Proof.
  intros X K V HK body key R Hbody.
  induction xs as [|x xs IH]; intros s0 s E k v Hin.
  - simpl in E. injection E as <-. left. exact Hin.
  - cbn [for_each] in E. apply bind_ok_inv in E as [s1 [E1 E]].
    destruct (Hbody _ _ _ E1) as [v1 [Hr ->]].
    destruct (IH _ _ E k v Hin) as [H1|[y [Hy [Hk Hv]]]].
    + apply In_dset_inv in H1. destruct H1 as [[-> ->]|H0]; [|left; exact H0].
      right. exists x. split; [left; reflexivity|]. auto.
    + right. exists y. split; [right; exact Hy|]. auto.
Qed.

(** A loop that only adds lines: every item leaves what its body
    guarantees. *)
Lemma for_each_emits :
  forall (A : Type) (body : list string -> A -> result (list string))
         (Q : A -> list string -> Prop),
  (forall out x out', body out x = Ok out' -> incl out out' /\ Q x out') ->
  (forall x out out', Q x out -> incl out out' -> Q x out') ->
  forall xs out0 out, for_each body xs out0 = Ok out ->
  incl out0 out /\ forall x, In x xs -> Q x out.
Proof.
  intros A body Q Hbody Hup. induction xs as [|x xs IH]; intros out0 out E.
  - simpl in E. injection E as <-. split; [apply incl_refl|contradiction].
  - cbn [for_each] in E. apply bind_ok_inv in E as [out1 [E1 E]].
    destruct (Hbody _ _ _ E1) as [Hi Hq].
    destruct (IH _ _ E) as [Hi' Hall]. split.
    + eapply incl_tran; eassumption.
    + intros y [<-|Hy]; [eapply Hup; eassumption|exact (Hall y Hy)].
Qed.

Section TrackMapPrinted.
Variable iterdir : path -> result (list path).

(** What [print_track_map] prints for the results of [calc_padding] and
    [map_tracks] on the same well-formed tree: it raises no [KeyError],
    and every entry of the track map has its line, padded with the disc
    width of its album and the track width of its disc. *)
Theorem track_map_is_printed_in_full : forall info dp tp m,
  tree_wf info ->
  calc_padding info = Ok (dp, tp) ->
  map_tracks iterdir info = Ok m ->
  exists out,
    print_track_map m dp tp = Ok out
    /\ forall a d n name, track_map_get a d n m = Some name ->
         exists dw widths w,
           dget a dp = Some dw /\ dget a tp = Some widths
           /\ dget d widths = Some w
           /\ In (track_map_line a d n dw w name) out.
Proof.
  intros info dp tp m [Hnd Hall] Ec Em.
  (* the padding of every disc the track map mentions *)
  assert (Hpad : forall a md d mt, In (a, md) m -> In (d, mt) md ->
            exists dw widths w,
              dget a dp = Some dw /\ dget a tp = Some widths
              /\ dget d widths = Some w).
  { intros a md d mt Ha Hd.
    destruct (@for_each_entries_from _ _ _ _ (map_one_album iterdir) fst
                (fun ad md => for_each (map_one_disc iterdir (fst ad)) (snd ad) []
                              = Ok md)) with (xs := info) (s0 := @nil (album_key * dict disc_key (dict N string))) (s := m) (k := a) (v := md)
      as [[]|[[a' discs] [Hin [Hk Hr]]]]; try assumption.
    { intros s x s' Es. unfold map_one_album in Es.
      apply bind_ok_inv in Es as [v [Ev Es]]. injection Es as <-. eauto. }
    cbn [fst snd] in Hk, Hr. subst a'.
    destruct (@for_each_entries_from _ _ _ _ (map_one_disc iterdir a) fst
                (fun dt mt => for_each (map_one_track iterdir a (fst dt)) (snd dt) []
                              = Ok mt)) with (xs := discs) (s0 := @nil (disc_key * dict N string)) (s := md) (k := d) (v := mt)
      as [[]|[[d' tracks] [Hind [Hkd _]]]]; try assumption.
    { intros s x s' Es. unfold map_one_disc in Es.
      apply bind_ok_inv in Es as [v [Ev Es]]. injection Es as <-. eauto. }
    cbn [fst] in Hkd. subst d'.
    destruct (@calc_padding_lookup info dp tp a discs Hnd Ec Hin)
      as ((dw & _ & Gdw) & (tw & Etw & Gtw)).
    destruct (Hall _ _ Hin) as (_ & Hndd & _).
    destruct (@calc_track_padding_lookup discs tw d tracks Hndd Etw Hind)
      as (w & _ & Gw).
    exists dw, tw, w. auto. }
  (* the loops *)
  assert (Hrun : exists out, print_track_map m dp tp = Ok out).
  { unfold print_track_map. apply for_each_total.
    intros out [a md] Ha. unfold print_album. cbn [fst snd].
    apply for_each_total. intros out1 [d mt] Hd. unfold print_disc. cbn [fst snd].
    apply for_each_total. intros out2 [n name] _. unfold print_track.
    destruct (Hpad a md d mt Ha Hd) as (dw & widths & w & G1 & G2 & G3).
    rewrite G1, G2. cbn [subscript bind]. rewrite G3. cbn [subscript bind]. eauto. }
  destruct Hrun as [out Eout]. exists out. split; [exact Eout|].
  intros a d n name Hg. unfold track_map_get in Hg.
  destruct (dget a m) as [md|] eqn:Ga; [|discriminate].
  destruct (dget d md) as [mt|] eqn:Gd; [|discriminate].
  apply dget_In in Ga. apply dget_In in Gd. apply dget_In in Hg.
  unfold print_track_map in Eout.
  destruct (@for_each_emits _ (print_album dp tp)
              (fun ad out => forall d mt n name,
                 In (d, mt) (snd ad) -> In (n, name) mt ->
                 exists dw widths w,
                   dget (fst ad) dp = Some dw /\ dget (fst ad) tp = Some widths
                   /\ dget d widths = Some w
                   /\ In (track_map_line (fst ad) d n dw w name) out))
    with (xs := m) (out0 := @nil string) (out := out) as [_ Hlines];
    try assumption.
  - intros out0 [a0 md0] out' E0. unfold print_album in E0. cbn [fst snd] in *.
    destruct (@for_each_emits _ (print_disc dp tp a0)
                (fun dt out => forall n name, In (n, name) (snd dt) ->
                   exists dw widths w,
                     dget a0 dp = Some dw /\ dget a0 tp = Some widths
                     /\ dget (fst dt) widths = Some w
                     /\ In (track_map_line a0 (fst dt) n dw w name) out))
      with (xs := md0) (out0 := out0) (out := out') as [Hi Hq]; try assumption.
    + intros out1 [d1 mt1] out1' E1. unfold print_disc in E1. cbn [fst snd] in *.
      destruct (@for_each_emits _ (print_track dp tp a0 d1)
                  (fun nf out => exists dw widths w,
                     dget a0 dp = Some dw /\ dget a0 tp = Some widths
                     /\ dget d1 widths = Some w
                     /\ In (track_map_line a0 d1 (fst nf) dw w (snd nf)) out))
        with (xs := mt1) (out0 := out1) (out := out1') as [Hi1 Hq1];
        try assumption.
      * intros out2 [n2 name2] out2' E2. unfold print_track in E2.
        apply bind_ok_inv in E2 as [dw [G1 E2]].
        apply bind_ok_inv in E2 as [widths [G2 E2]].
        apply bind_ok_inv in E2 as [w [G3 E2]]. injection E2 as <-.
        split; [apply incl_appl, incl_refl|].
        exists dw, widths, w. cbn [fst snd].
        destruct (dget a0 dp); [|discriminate]. injection G1 as ->.
        destruct (dget a0 tp); [|discriminate]. injection G2 as ->.
        destruct (dget d1 widths); [|discriminate]. injection G3 as ->.
        repeat split. apply in_or_app. right. left. reflexivity.
      * intros x o o' (dw & widths & w & G1 & G2 & G3 & Hin) Hinc.
        exists dw, widths, w. auto.
      * split; [exact Hi1|]. intros n0 name0 Hn. exact (Hq1 (n0, name0) Hn).
    + intros x o o' Hq' Hinc n0 name0 Hn.
      destruct (Hq' n0 name0 Hn) as (dw & widths & w & G1 & G2 & G3 & Hin).
      exists dw, widths, w. auto.
    + split; [exact Hi|]. intros d0 mt0 n0 name0 Hd0 Hn0.
      exact (Hq (d0, mt0) Hd0 n0 name0 Hn0).
  - intros x o o' Hq' Hinc d0 mt0 n0 name0 Hd0 Hn0.
    destruct (Hq' d0 mt0 n0 name0 Hd0 Hn0) as (dw & widths & w & G1 & G2 & G3 & Hin).
    exists dw, widths, w. auto.
  - exact (Hlines (a, md) Ga d mt n name Gd Hg).
Qed.

End TrackMapPrinted.

(* ================================================================== *)
(** * The track number in a file name *)

Lemma smap_length : forall f s, String.length (Str.smap f s) = String.length s.
Proof. intros f s. induction s as [|c s IH]; simpl; [reflexivity|now rewrite IH]. Qed.

Lemma forallb_str_app : forall p a b,
  Str.forallb_str p (a ++ b)%string = Str.forallb_str p a && Str.forallb_str p b.
Proof.
  intros p a b. induction a as [|c a IH]; simpl; [reflexivity|].
  now rewrite IH, andb_assoc.
Qed.

(** The tail of the pattern accepts anything without a newline that is
    followed by the extension, in any case. *)
Lemma rest_matches_tail : forall mid ext,
  dot_star mid = true -> Str.lower ext = ".flac" ->
  rest_matches (mid ++ ext) = true.
Proof.
  intros mid ext Hmid Hext. unfold rest_matches. cbv zeta.
  assert (Hl : String.length ext = 5).
  { unfold Str.lower in Hext. rewrite <- (smap_length Str.lower_char), Hext.
    reflexivity. }
  rewrite sappend_length, Hl.
  replace (String.length mid + 5 - 5) with (String.length mid) by lia.
  rewrite substring_skip_app, substring_0_app.
  rewrite <- Hl, substring_all. unfold is_dot_flac. rewrite Hext, Hmid.
  assert (Hle : (String.length ext <=? String.length mid + String.length ext)%nat
                = true) by (apply Nat.leb_le; lia).
  rewrite Hle. reflexivity.
Qed.

Lemma span_digits_app : forall ds rest,
  Str.forallb_str Str.is_digit ds = true ->
  (forall c r, rest = String c r -> Str.is_digit c = false) ->
  Str.span Str.is_digit (ds ++ rest) = (ds, rest).
Proof.
  induction ds as [|d ds IH]; intros rest Hds Hrest.
  - destruct rest as [|c r]; [reflexivity|].
    cbn [append Str.span]. now rewrite (Hrest c r eq_refl).
  - cbn [Str.forallb_str] in Hds. apply andb_true_iff in Hds as [Hd Hds].
    change (String d ds ++ rest)%string with (String d (ds ++ rest)).
    cbn [Str.span]. rewrite Hd, (IH rest Hds Hrest). reflexivity.
Qed.

(** [TRACK_INPUT_RE] reads the track number off the first run of digits
    of the file name, all of it: a name made of a prefix without digits, a
    run of digits, something that does not go on with a digit, and the
    extension in any case, matches with that run as its group. *)
Theorem track_number_is_the_first_digit_run : forall pre ds mid ext,
  Str.forallb_str (fun c => negb (Str.is_digit c)
                            && negb (Ascii.eqb c Str.newline)) pre = true ->
  Str.isdigit ds = true ->
  (forall c r, mid = String c r -> Str.is_digit c = false) ->
  dot_star mid = true ->
  Str.lower ext = ".flac" ->
  TRACK_INPUT_RE (pre ++ ds ++ mid ++ ext) = Some ds.
Proof.
  intros pre ds mid ext Hpre Hds Hmid Hdot Hext.
  assert (Hrest : forall c r, (mid ++ ext)%string = String c r ->
                              Str.is_digit c = false).
  { intros c r E. destruct mid as [|m mid'].
    - simpl in E. subst ext. simpl in Hext. injection Hext as Hc _.
      unfold Str.lower_char in Hc.
      destruct (Str.is_upper c) eqn:Eu.
      + unfold Str.is_upper, Str.is_digit in *. cbv zeta in *.
        apply andb_true_iff in Eu as [E1 E2].
        apply Nat.leb_le in E1. apply not_true_iff_false. intros Ed.
        apply andb_true_iff in Ed as [E3 E4]. apply Nat.leb_le in E4. lia.
      + subst c. reflexivity.
    - simpl in E. injection E as <- _. exact (Hmid m mid' eq_refl). }
  induction pre as [|p pre IH].
  - cbn [append]. destruct ds as [|d ds']; [discriminate|].
    unfold Str.isdigit in Hds.
    change (String d ds' ++ mid ++ ext)%string
      with (String d (ds' ++ mid ++ ext))%string.
    cbn [TRACK_INPUT_RE].
    change (String d (ds' ++ mid ++ ext))%string
      with (String d ds' ++ (mid ++ ext))%string.
    rewrite (@span_digits_app _ _ Hds Hrest).
    set (name := (String d ds' ++ (mid ++ ext))%string).
    change (String.length (String d ds')) with (S (String.length ds')).
    cbn [digits_then_rest].
    change (S (String.length ds')) with (String.length (String d ds')).
    unfold name. rewrite substring_skip_app, substring_0_app.
    rewrite sappend_length.
    replace (String.length (String d ds') + String.length (mid ++ ext)
             - String.length (String d ds'))
      with (String.length (mid ++ ext)) by lia.
    rewrite substring_all, (@rest_matches_tail _ _ Hdot Hext). reflexivity.
  - simpl in Hpre. apply andb_true_iff in Hpre as [Hp Hpre].
    apply andb_true_iff in Hp as [Hp1 Hp2].
    apply negb_true_iff in Hp1. apply negb_true_iff in Hp2.
    change (String p pre ++ ds ++ mid ++ ext)%string
      with (String p (pre ++ ds ++ mid ++ ext))%string.
    cbn [TRACK_INPUT_RE]. cbn [Str.span]. rewrite Hp1.
    cbn [String.length digits_then_rest]. rewrite Hp2. exact (IH Hpre).
Qed.

(* ================================================================== *)
(** * The manifest parser, line by line and as a whole *)

Section ParserClaims.
Variable resolve : path -> path.
Variable trackinfo_path : path.
Variable input_map : dict path path.

Local Notation "'step'" := (process_line resolve trackinfo_path input_map).
Local Notation "'run'" := (parse_lines resolve trackinfo_path input_map).
Local Notation "'store'" := (set_key_value resolve trackinfo_path input_map).
Local Notation "'assign_in'" := (assign resolve trackinfo_path input_map).
Local Notation "'merge'" := (apply_overrides resolve trackinfo_path input_map).
Local Notation "'own'" := (own_assignments resolve trackinfo_path input_map).

(** ** Snapshot and overrides *)

(** A blank line changes nothing. *)
Lemma process_line_unmatched : forall st raw st',
  TRACKINFO_RE (Str.rstrip raw) = None -> step st raw = Ok st' -> st' = st.
Proof.
  intros st raw st' Em E. unfold process_line in E. rewrite Em in E.
  destruct (String.length (Str.rstrip raw) =? 0)%nat; [|discriminate].
  now inversion E.
Qed.

(** From a state in which the track has a record on, the record at the
    end is the one at the start merged with the track's own later
    assignments. *)
Lemma stored_record_follows_own_assignments : forall a d n lines st st' r,
  run lines st = Ok st' ->
  tree_get a d n (track_meta st) = Some r ->
  exists r',
    merge r (own a d n (global_meta st) lines) = Ok r'
    /\ tree_get a d n (track_meta st') = Some r'.
Proof.
  intros a d n. induction lines as [|raw lines IH]; intros st st' r E Hr.
  - simpl in E. injection E as <-. exists r. split; [reflexivity|exact Hr].
  - unfold parse_lines in E. cbn [for_each] in E.
    apply bind_ok_inv in E as [s1 [E1 E]]. fold (run lines s1) in E.
    cbn [own_assignments]. unfold global_after_line.
    destruct (TRACKINFO_RE (Str.rstrip raw)) as [[[g1 g2] g3]|] eqn:Em.
    2:{ apply (process_line_unmatched _ _ Em) in E1. subst s1.
        cbn [app]. exact (IH _ _ _ E Hr). }
    rewrite (process_line_matched _ _ _ _ _ Em) in E1.
    destruct g2 as [idx|].
    + cbn [select_dst] in E1.
      apply bind_ok_inv in E1 as [d0 [Ed E1]].
      apply bind_ok_inv in Ed as [[a' d'] [El Ed]]. injection Ed as <-.
      apply bind_ok_inv in E1 as [r1 [Er E1]]. injection E1 as <-.
      rewrite El. cbn [dst_record] in Er. unfold eqb_dec.
      destruct (eq_dec (a', d', Str.int idx) (a, d, n)) as [Eq|Hne].
      * injection Eq as -> -> Hn. rewrite Hn in *. rewrite Hr in Er.
        destruct (IH (write_dst st (DTrack a d n) r1
                        (if str_in (Str.upper g1) TRACKINFO_STANDARD_KEYS
                         then printed st
                         else printed st ++
                              [("WARNING: '" ++ Str.upper g1
                                ++ "' is not a standard key.")%string]))
                     st' r1 E) as [r' [Hm Hg]].
        { cbn [write_dst track_meta]. apply tree_get_set_eq. }
        exists r'. split; [|exact Hg].
        unfold apply_overrides. cbn [app for_each fst snd]. rewrite Er.
        cbn [bind]. exact Hm.
      * cbn [app].
        apply (IH _ _ r E). cbn [write_dst track_meta].
        rewrite tree_get_set_neq by exact Hne. exact Hr.
    + cbn [select_dst bind dst_record] in E1.
      apply bind_ok_inv in E1 as [g' [Eg E1]]. injection E1 as <-.
      rewrite Eg. cbn [app]. apply (IH _ _ r E). exact Hr.
Qed.

(** C7: the record stored for a track is the copy of the global scope
    taken when the track's first line is read (with the track number
    added), merged with the track's own assignments, that line's and the
    later ones', in order; the lines without index that come later change
    the global scope only, so that a manifest that goes on with such
    lines alone leaves the whole tree as it is. *)
Theorem C7_track_record_is_snapshot_plus_overrides :
  forall st raw g1 idx g3 album disc st1 later st2,
  TRACKINFO_RE (Str.rstrip raw) = Some (g1, Some idx, g3) ->
  track_location (global_meta st) (Str.upper g1) (Str.strip g3) = Ok (album, disc) ->
  tree_get album disc (Str.int idx) (track_meta st) = None ->
  step st raw = Ok st1 ->
  run later st1 = Ok st2 ->
  exists r,
    merge (new_track_record (global_meta st) (Str.int idx))
          ((Str.upper g1, Str.strip g3)
           :: own album disc (Str.int idx) (global_meta st) later) = Ok r
    /\ tree_get album disc (Str.int idx) (track_meta st2) = Some r
    /\ (forallb not_indexed later = true ->
        track_meta st2 = track_meta st1
        /\ store (Str.upper g1) (Str.strip g3)
                 (new_track_record (global_meta st) (Str.int idx)) = Ok r).
Proof.
  intros st raw g1 idx g3 album disc st1 later st2 Em Hloc Hnew E1 E2.
  rewrite (process_line_matched _ _ _ _ _ Em) in E1. cbn [select_dst] in E1.
  rewrite Hloc in E1. cbn [bind dst_record] in E1. rewrite Hnew in E1.
  apply bind_ok_inv in E1 as [r0 [Er E1]]. injection E1 as <-.
  destruct (@stored_record_follows_own_assignments album disc (Str.int idx)
              later _ st2 r0 E2) as [r [Hm Hg]].
  { cbn [write_dst track_meta]. apply tree_get_set_eq. }
  cbn [write_dst global_meta] in Hm.
  exists r. split; [|split; [exact Hg|]].
  - unfold apply_overrides. cbn [for_each fst snd]. rewrite Er. cbn [bind].
    exact Hm.
  - intros Hlater.
    pose proof (not_indexed_lines_keep_tree _ _ _ _ _ Hlater E2) as Hsame.
    split; [exact Hsame|].
    rewrite Hsame in Hg. cbn [write_dst track_meta] in Hg.
    rewrite tree_get_set_eq in Hg. congruence.
Qed.

(** ** Lines with an empty value *)




(** ** Every leaf has its input *)

Lemma has_resolved_input_dset_other : forall key v r,
  key <> "INPUT" ->
  has_resolved_input input_map r -> has_resolved_input input_map (dset key v r).
Proof.
  intros key v r Hne (k & p & Hg & Hm). exists k, p.
  rewrite (dget_dset_neq _ _ Hne). auto.
Qed.

(** An assignment keeps a resolved [INPUT] unless it is the one that
    clears it. *)
Lemma has_resolved_input_set_key_value : forall key value r r',
  (String.eqb key "INPUT" && String.eqb value "") = false ->
  has_resolved_input input_map r ->
  store key value r = Ok r' ->
  has_resolved_input input_map r'.
Proof.
  intros key value r r' Hnc Hr E. unfold set_key_value in E.
  destruct ((String.length value =? 0)%nat && dmem key r) eqn:Edel.
  - injection E as <-. apply andb_true_iff in Edel as [Hl _].
    assert (Hv : value = "") by (destruct value; [reflexivity|discriminate]).
    subst value. rewrite String.eqb_refl, andb_true_r in Hnc.
    apply String.eqb_neq in Hnc.
    destruct Hr as (k & p & Hg & Hm). exists k, p.
    rewrite (dget_ddel_neq _ Hnc). auto.
  - unfold assign in E.
    destruct (String.eqb key "INPUT") eqn:Ki.
    + apply bind_ok_inv in E as (p & Ep & E). injection E as <-.
      unfold subscript in Ep.
      destruct (dget (resolve (PathLib.parent trackinfo_path // PathLib.of_string value))
                     input_map) as [p0|] eqn:Eg; [|discriminate].
      injection Ep as ->.
      eexists. exists p. rewrite dget_dset_eq. split; [reflexivity|exact Eg].
    + apply String.eqb_neq in Ki.
      destruct (String.eqb key "COVER") eqn:Kc.
      * assert (Hc : "COVER" <> "INPUT") by discriminate.
        destruct (PathLib.is_absolute (PathLib.of_string value)).
        { injection E as <-. apply has_resolved_input_dset_other; assumption. }
        destruct (dget "INPUT" r) as [[| | |i]|]; try discriminate;
          injection E as <-; apply has_resolved_input_dset_other; assumption.
      * destruct (String.eqb key "DISCNUMBER") eqn:Kd.
        { destruct (negb (Str.isdigit value)); [discriminate|].
          injection E as <-. apply has_resolved_input_dset_other;
            [discriminate|assumption]. }
        injection E as <-. apply has_resolved_input_dset_other; assumption.
Qed.

Local Notation "'inputs_everywhere'" := (inputs_all_resolved input_map).

Lemma inputs_everywhere_step : forall st raw st',
  clears_input raw = false ->
  inputs_everywhere st -> step st raw = Ok st' -> inputs_everywhere st'.
Proof.
  intros st raw st' Hnc [Hg Ht] E. unfold clears_input in Hnc.
  unfold inputs_all_resolved.
  destruct (TRACKINFO_RE (Str.rstrip raw)) as [[[g1 g2] g3]|] eqn:Em.
  2:{ apply (process_line_unmatched _ _ Em) in E. subst st'. split; assumption. }
  rewrite (process_line_matched _ _ _ _ _ Em) in E.
  apply bind_ok_inv in E as (d & Ed & E).
  apply bind_ok_inv in E as (r & Er & E). injection E as <-.
  assert (Hrec : has_resolved_input input_map (dst_record st d)).
  { destruct d as [|a dk n]; cbn [dst_record]; [exact Hg|].
    destruct (tree_get a dk n (track_meta st)) as [r0|] eqn:Eg.
    - exact (Ht _ _ _ _ Eg).
    - apply has_resolved_input_dset_other; [discriminate|exact Hg]. }
  pose proof (@has_resolved_input_set_key_value _ _ _ _ Hnc Hrec Er) as Hr.
  destruct d as [|a dk n]; cbn [write_dst]; split; cbn [global_meta track_meta];
    try assumption.
  intros a' d' n' r' Eg.
  destruct (eq_dec (a, dk, n) (a', d', n')) as [Eq|Hne].
  - injection Eq as <- <- <-. rewrite tree_get_set_eq in Eg.
    injection Eg as <-. exact Hr.
  - rewrite tree_get_set_neq in Eg by exact Hne. exact (Ht _ _ _ _ Eg).
Qed.

Lemma inputs_everywhere_run : forall lines st st',
  forallb (fun raw => negb (clears_input raw)) lines = true ->
  inputs_everywhere st -> run lines st = Ok st' -> inputs_everywhere st'.
Proof.
  induction lines as [|raw lines IH]; intros st st' Hall Hinv E.
  - simpl in E. injection E as <-. exact Hinv.
  - cbn [forallb] in Hall. apply andb_true_iff in Hall as [H1 H2].
    apply negb_true_iff in H1.
    unfold parse_lines in E. cbn [for_each] in E.
    apply bind_ok_inv in E as (s1 & E1 & E).
    exact (IH _ _ H2 (@inputs_everywhere_step _ _ _ H1 Hinv E1) E).
Qed.

(** A global [INPUT] line read before any track line leaves a state with
    inputs everywhere. *)
Lemma inputs_everywhere_after_global_input : forall st raw st',
  track_meta st = [] ->
  global_input_line raw = true ->
  step st raw = Ok st' -> inputs_everywhere st'.
Proof.
  intros st raw st' Hempty Hgi E. unfold global_input_line in Hgi.
  destruct (TRACKINFO_RE (Str.rstrip raw)) as [[[g1 [idx|]] g3]|] eqn:Em;
    try discriminate.
  apply andb_true_iff in Hgi as [Hk Hv].
  apply String.eqb_eq in Hk. apply negb_true_iff in Hv.
  rewrite (process_line_matched _ _ _ _ _ Em) in E. rewrite Hk in E.
  cbn [select_dst bind dst_record] in E.
  apply bind_ok_inv in E as (r & Er & E). injection E as <-.
  cbn [write_dst]. split; cbn [global_meta track_meta].
  - unfold set_key_value in Er.
    assert (Hl : (String.length (Str.strip g3) =? 0)%nat = false).
    { destruct (Str.strip g3); [discriminate|reflexivity]. }
    rewrite Hl in Er. cbn [andb] in Er. unfold assign in Er.
    cbn [String.eqb Ascii.eqb Bool.eqb] in Er.
    apply bind_ok_inv in Er as (p & Ep & Er). injection Er as <-.
    unfold subscript in Ep.
    destruct (dget (resolve (PathLib.parent trackinfo_path
                             // PathLib.of_string (Str.strip g3))) input_map)
      as [p0|] eqn:Eg; [|discriminate].
    injection Ep as ->.
    eexists. exists p. rewrite dget_dset_eq. split; [reflexivity|exact Eg].
  - intros a d n r0 Eg. rewrite Hempty in Eg. discriminate.
Qed.

(** C1, as the code has it: in the tree of a manifest that was accepted,
    a leaf's [INPUT], if it has one, is a directory out of the
    InputResolutionMap; every leaf has one when a global [INPUT] line
    with a value comes before the first track line and no line after it
    assigns [INPUT] the empty value; and a leaf carries the track number
    it is filed under when no track line of the manifest assigns
    [TRACKNUMBER]. *)
Theorem C1_leaf_input_resolved_and_number_kept :
  forall lines t a d n r,
  parse_trackinfo_meta resolve trackinfo_path input_map lines = Ok t ->
  tree_get a d n t = Some r ->
  input_resolved input_map r
  /\ (forall pre first rest,
        lines = pre ++ first :: rest ->
        ascii_manifest lines = true ->
        forallb not_indexed pre = true ->
        global_input_line first = true ->
        forallb (fun raw => negb (clears_input raw)) rest = true ->
        has_resolved_input input_map r)
  /\ (no_track_key "TRACKNUMBER" lines = true ->
      dget "TRACKNUMBER" r = Some (VInt n)).
Proof.
  intros lines t a d n r E Eg.
  unfold parse_trackinfo_meta in E.
  apply bind_ok_inv in E as (st & Est & E). injection E as <-.
  assert (Hinv : tree_invariant input_map (no_track_key "TRACKNUMBER" lines) st).
  { unfold parse_lines in Est.
    apply (@for_each_invariant _ _ (process_line resolve trackinfo_path input_map)
             (tree_invariant input_map (no_track_key "TRACKNUMBER" lines))
             lines initial_pstate st).
    - intros s x s' Hin Hs Hx. eapply tree_invariant_step; eauto.
    - apply tree_invariant_initial.
    - exact Est. }
  destruct Hinv as [_ Ht]. destruct (Ht _ _ _ _ Eg) as [Hres Hnum].
  split; [exact Hres|]. split; [|exact Hnum].
  intros pre first rest -> _ Hpre Hfirst Hrest.
  unfold parse_lines in Est. rewrite for_each_app in Est.
  apply bind_ok_inv in Est as (s0 & E0 & Est).
  cbn [for_each] in Est. apply bind_ok_inv in Est as (s1 & E1 & Est).
  assert (Hempty : track_meta s0 = track_meta initial_pstate)
    by (eapply not_indexed_lines_keep_tree; eassumption).
  cbn [initial_pstate track_meta] in Hempty.
  pose proof (@inputs_everywhere_after_global_input _ _ _ Hempty Hfirst E1) as H1.
  destruct (@inputs_everywhere_run _ _ _ Hrest H1 Est) as [_ Hall].
  exact (Hall _ _ _ _ Eg).
Qed.

End ParserClaims.

(* ================================================================== *)
(** * Invalid disc numbers *)

Section DiscNumberClaims.
Variable resolve : path -> path.
Variable trackinfo_path : path.
Variable input_map : dict path path.

(** The global [ALBUM], while it is there, is [None] or a string. *)
Lemma global_album_typed_step : forall st raw st',
  (forall v, dget "ALBUM" (global_meta st) = Some v -> album_value v = true) ->
  process_line resolve trackinfo_path input_map st raw = Ok st' ->
  forall v, dget "ALBUM" (global_meta st') = Some v -> album_value v = true.
Proof.
  intros st raw st' Hst E.
  destruct (TRACKINFO_RE (Str.rstrip raw)) as [[[g1 g2] g3]|] eqn:Em.
  2:{ apply (process_line_unmatched _ _ _ _ _ Em) in E. subst st'. exact Hst. }
  rewrite (process_line_matched _ _ _ _ _ Em) in E.
  apply bind_ok_inv in E as (d & Ed & E).
  apply bind_ok_inv in E as (r & Er & E). injection E as <-.
  destruct d as [|a dk n]; cbn [write_dst global_meta]; [|exact Hst].
  cbn [dst_record] in Er.
  destruct (string_dec (Str.upper g1) "ALBUM") as [Hk|Hk].
  - rewrite Hk in Er. unfold set_key_value in Er.
    destruct ((String.length (Str.strip g3) =? 0)%nat
              && dmem "ALBUM" (global_meta st)).
    + injection Er as <-. intros v Hv. rewrite dget_ddel_eq in Hv. discriminate.
    + unfold assign in Er. cbn [String.eqb Ascii.eqb Bool.eqb] in Er.
      injection Er as <-. intros v Hv. rewrite dget_dset_eq in Hv.
      injection Hv as <-. reflexivity.
  - intros v Hv.
    assert (Hsame : dget "ALBUM" r = dget "ALBUM" (global_meta st))
      by (eapply set_key_value_other_key; eassumption).
    rewrite Hsame in Hv. exact (Hst v Hv).
Qed.

Lemma global_album_typed : forall lines st,
  parse_lines resolve trackinfo_path input_map lines initial_pstate = Ok st ->
  forall v, dget "ALBUM" (global_meta st) = Some v -> album_value v = true.
Proof.
  intros lines st E.
  apply (@for_each_invariant _ _ (process_line resolve trackinfo_path input_map)
           (fun s => forall v, dget "ALBUM" (global_meta s) = Some v ->
                               album_value v = true)
           lines initial_pstate st).
  - intros s x s' _ Hs Hx. exact (@global_album_typed_step _ _ _ Hs Hx).
  - intros v Hv. cbn in Hv. injection Hv as <-. reflexivity.
  - exact E.
Qed.

(** The error a line with a bad [DISCNUMBER] raises. *)
Lemma process_line_bad_discnumber_error : forall st raw g1 g2 g3,
  (forall v, dget "ALBUM" (global_meta st) = Some v -> album_value v = true) ->
  TRACKINFO_RE (Str.rstrip raw) = Some (g1, g2, g3) ->
  bad_discnumber_line raw = true ->
  process_line resolve trackinfo_path input_map st raw
  = Err (bad_discnumber_error (global_meta st) g2 (Str.strip g3)).
Proof.
  intros st raw g1 g2 g3 Hst Em Hbad. unfold bad_discnumber_line in Hbad.
  rewrite Em in Hbad.
  apply andb_true_iff in Hbad as [Hbad Hd].
  apply andb_true_iff in Hbad as [Hk Hne].
  apply String.eqb_eq in Hk. apply negb_true_iff in Hne.
  rewrite (process_line_matched _ _ _ _ _ Em). rewrite Hk.
  unfold bad_discnumber_error. destruct g2 as [idx|].
  - cbn [select_dst]. unfold track_location.
    cbn [String.eqb Ascii.eqb Bool.eqb]. unfold dmem.
    destruct (dget "ALBUM" (global_meta st)) as [av|] eqn:Ea;
      cbn [subscript bind]; [|reflexivity].
    specialize (Hst av eq_refl).
    destruct av as [|s|k|p]; try discriminate; cbn [album_of_value bind];
      rewrite Hd; reflexivity.
  - cbn [select_dst bind dst_record]. unfold set_key_value.
    assert (Hl : (String.length (Str.strip g3) =? 0)%nat = false).
    { destruct (Str.strip g3); [discriminate|reflexivity]. }
    rewrite Hl. cbn [andb]. unfold assign.
    cbn [String.eqb Ascii.eqb Bool.eqb]. rewrite Hd. reflexivity.
Qed.

Lemma parse_bad_discnumber_error : forall before raw after g1 g2 g3 st,
  TRACKINFO_RE (Str.rstrip raw) = Some (g1, g2, g3) ->
  bad_discnumber_line raw = true ->
  parse_lines resolve trackinfo_path input_map before initial_pstate = Ok st ->
  parse_trackinfo_meta resolve trackinfo_path input_map (before ++ raw :: after)
  = Err (bad_discnumber_error (global_meta st) g2 (Str.strip g3)).
Proof.
  intros before raw after g1 g2 g3 st Em Hbad E.
  unfold parse_trackinfo_meta, parse_lines. rewrite for_each_app.
  unfold parse_lines in E. rewrite E. cbn [bind for_each].
  rewrite (@process_line_bad_discnumber_error st raw g1 g2 g3
             (@global_album_typed _ _ E) Em Hbad).
  reflexivity.
Qed.

End DiscNumberClaims.

(** C5, as the code has it: a manifest with a [DISCNUMBER] assignment
    whose value is neither empty nor a run of digits makes the run fail,
    and it fails after the inputs were resolved, in the world the
    resolution left.  If the lines before the bad one are accepted, the
    parser raises on it the validation error that quotes the value, or,
    for a track line read when the global scope has no [ALBUM],
    [KeyError]. *)
Theorem C5_bad_discnumber_raises_after_resolution :
  forall (W : Type) (fs : FileSystem W) w trackinfo_path work_path lines,
  ascii_manifest lines = true ->
  (forall raw, In raw lines -> bad_discnumber_line raw = true ->
     match resolve_trackinfo_inputs fs w trackinfo_path lines work_path with
     | Ok (input_map, w1) =>
         exists e,
           parse_trackinfo_meta (fs_resolve fs w1) trackinfo_path input_map lines
           = Err e
           /\ main fs w trackinfo_path work_path lines = (w1, Err e)
     | Err e => main fs w trackinfo_path work_path lines = (w, Err e)
     end)
  /\ (forall before raw after g1 g2 g3 input_map w1 st,
        lines = before ++ raw :: after ->
        TRACKINFO_RE (Str.rstrip raw) = Some (g1, g2, g3) ->
        bad_discnumber_line raw = true ->
        resolve_trackinfo_inputs fs w trackinfo_path lines work_path
        = Ok (input_map, w1) ->
        parse_lines (fs_resolve fs w1) trackinfo_path input_map before
                    initial_pstate = Ok st ->
        main fs w trackinfo_path work_path lines
        = (w1, Err (bad_discnumber_error (global_meta st) g2 (Str.strip g3)))).
Proof.
  intros W fs w tp work lines _. split.
  - intros raw Hin Hbad. unfold main.
    destruct (resolve_trackinfo_inputs fs w tp lines work) as [[im w1]|e];
      [|reflexivity].
    destruct (@parse_bad_discnumber (fs_resolve fs w1) tp im lines raw Hin Hbad)
      as [e He].
    exists e. rewrite He. split; reflexivity.
  - intros before raw after g1 g2 g3 im w1 st -> Em Hbad Er Ep.
    unfold main. rewrite Er.
    rewrite (@parse_bad_discnumber_error (fs_resolve fs w1) tp im
               before raw after g1 g2 g3 st Em Hbad Ep).
    reflexivity.
Qed.

(* ================================================================== *)
(** * Covers whose extraction fails *)

Section CoverClaims.
Context {W : Type} (fs : FileSystem W).



End CoverClaims.

(* ================================================================== *)
(** * Archive resolver: every declared path *)

(** The heads the first loop files are first parts of declared paths,
    and every tail filed under a head completes it to a declared path. *)
Lemma add_node_heads : forall paths nodes0 nodes,
  for_each add_node paths nodes0 = Ok nodes ->
  forall head tails t, In (head, tails) nodes -> In t tails ->
  (exists h, head = [h] /\ In (h :: t) paths)
  \/ (exists tails0, In (head, tails0) nodes0 /\ In t tails0).
Proof.
  induction paths as [|p paths IH]; intros nodes0 nodes E head tails t Hn Ht;
    cbn [for_each] in E.
  - injection E as <-. right. eauto.
  - destruct p as [|h t0]; [discriminate|]. cbn [add_node bind] in E.
    destruct (IH _ _ E _ _ _ Hn Ht) as [(h' & Eh & Hin)|(tails0 & H0 & Ht0)].
    + left. exists h'. split; [exact Eh|right; exact Hin].
    + apply In_dset_inv in H0. destruct H0 as [[-> ->]|Hold].
      * apply In_set_add in Ht0. destruct Ht0 as [->|Ht0].
        { left. exists h. split; [reflexivity|left; reflexivity]. }
        { destruct (dget [h] nodes0) as [s|] eqn:Eg; [|contradiction].
          right. exists s. split; [apply dget_In; exact Eg | exact Ht0]. }
      * right. eauto.
Qed.

Section ArchiveClaims.
Context {W : Type} (fs : FileSystem W).
Variable tmp_dir : path.

(** The second loop pairs every node with the effective root of its
    stub, computed in the world of that moment. *)
Lemma expand_node_roots : forall parent nodes acc0 w new_nodes w1,
  for_each (expand_node fs tmp_dir parent) nodes (acc0, w) = Ok (new_nodes, w1) ->
  forall stub real tails, In (stub, real, tails) new_nodes ->
  In (stub, real, tails) acc0
  \/ exists head wa wb,
       In (head, tails) nodes /\ stub = parent // head
       /\ effective_root fs tmp_dir wa stub = Ok (real, wb).
Proof.
  intros parent nodes. induction nodes as [|[head tails0] nodes IH];
    intros acc0 w new_nodes w1 E stub real tails Hin; cbn [for_each] in E.
  - injection E as <- _. left. exact Hin.
  - rewrite expand_node_effective_root in E.
    destruct (effective_root fs tmp_dir w (parent // head)) as [[root w0]|e] eqn:Er;
      [|discriminate].
    cbn [bind] in E.
    destruct (IH _ _ _ _ E _ _ _ Hin) as [Hacc|(hd0 & wa & wb & Hn & Hs & He)].
    + apply in_app_or in Hacc. destruct Hacc as [Hacc|[Eq|[]]].
      * left. exact Hacc.
      * injection Eq as <- <- <-. right. exists head, w, w0.
        split; [left; reflexivity|]. split; [reflexivity|exact Er].
    + right. exists hd0, wa, wb. split; [right; exact Hn|]. auto.
Qed.

(** Where an entry of the map comes from, after the third loop's body
    has run on one node. *)
Lemma assemble_node_entries :
  forall (rec : W -> list path -> path -> result (dict path path * W))
         ret w stub real tails ret' w',
  assemble_node rec (ret, w) (stub, real, tails) = Ok (ret', w') ->
  forall k m, In (k, m) ret' ->
  In (k, m) ret
  \/ exists l, last_part stub = Ok l
       /\ ((k = [l] /\ m = real /\ In [] tails)
           \/ exists tails1 w0 sub w2 b,
                rec w0 tails1 real = Ok (sub, w2)
                /\ (forall t, In t tails1 -> In t tails /\ t <> [])
                /\ In (b, m) sub /\ k = [l] // b).
Proof.
  intros rec ret w stub real tails ret' w' E k m Hin.
  unfold assemble_node in E.
  apply bind_ok_inv in E as (ret1 & E1 & E).
  assert (H1 : forall k m, In (k, m) ret1 ->
             In (k, m) ret
             \/ exists l, last_part stub = Ok l /\ k = [l] /\ m = real
                          /\ In [] tails).
  { intros k0 m0 H0. unfold set_mem in E1.
    match type of E1 with
    | (if ?c then _ else _) = _ => destruct c eqn:Em
    end.
    - apply bind_ok_inv in E1 as (l & El & E1). injection E1 as <-.
      apply In_dset_inv in H0. destruct H0 as [[-> ->]|H0]; [|left; exact H0].
      right. exists l. apply existsb_eqb_dec_In in Em. auto.
    - injection E1 as <-. left. exact H0. }
  set (tails1 := if set_mem [] tails then set_remove [] tails else tails) in *.
  assert (Ht2 : forall t, In t tails1 -> In t tails /\ t <> []).
  { intros t Ht. unfold tails1, set_mem in Ht.
    match type of Ht with
    | In _ (if ?c then _ else _) => destruct c eqn:Em
    end.
    - unfold set_remove in Ht. apply filter_In in Ht. destruct Ht as [Ht Hb].
      split; [exact Ht|]. intros ->. unfold eqb_dec in Hb.
      match type of Hb with
      | context [@eq_dec ?A ?I ?x ?y] => destruct (@eq_dec A I x y)
      end; [discriminate | congruence].
    - split; [exact Ht|]. intros ->.
      apply existsb_eqb_dec_In in Ht. congruence. }
  destruct tails1 as [|t1 ts] eqn:Et.
  - injection E as <- _. destruct (H1 _ _ Hin) as [H0|(l & El & -> & -> & Hn)].
    + left. exact H0.
    + right. exists l. split; [exact El|]. left. auto.
  - apply bind_ok_inv in E as ([sub w2] & Er & E).
    apply bind_ok_inv in E as (l & El & E). injection E as <- _.
    apply fold_left_dset_prefix_inv in Hin.
    destruct Hin as [H0|(b & Hb & Ek)].
    + destruct (H1 _ _ H0) as [H0'|(l' & El' & -> & -> & Hn)].
      * left. exact H0'.
      * right. exists l'. split; [exact El'|]. left. auto.
    + right. exists l. split; [exact El|]. right.
      exists (t1 :: ts), w, sub, w2, b. auto.
Qed.

(** Every entry of the returned map belongs to a declared path and
    holds what the walk over effective roots reaches for it. *)
Lemma expand_fuel_sound : forall fuel w paths parent ret w',
  (forall p, In p paths -> declared_ok p = true) ->
  expand_archives_in_tree_fuel fs fuel w paths tmp_dir parent = Ok (ret, w') ->
  forall k m, In (k, m) ret -> In k paths /\ reaches fs tmp_dir parent k m.
Proof.
  induction fuel as [|fuel IH]; intros w paths parent ret w' Hok E;
    [discriminate|].
  rewrite expand_fuel_step in E.
  apply bind_ok_inv in E as (nodes & En & E).
  apply bind_ok_inv in E as ([new_nodes w1] & Ex & E).
  assert (Hnode : forall stub real tails, In (stub, real, tails) new_nodes ->
            exists h wa wb,
              stub = parent // [h]
              /\ effective_root fs tmp_dir wa (parent // [h]) = Ok (real, wb)
              /\ forall t, In t tails -> In (h :: t) paths).
  { intros stub real tails Hin.
    destruct (@expand_node_roots parent nodes [] w new_nodes w1 Ex
                stub real tails Hin) as [[]|(head & wa & wb & Hn & -> & He)].
    destruct (add_node_keys _ _ En (fun k t (H : In (k, t) []) => match H with end)
                _ _ Hn) as [h ->].
    exists h, wa, wb. split; [reflexivity|]. split; [exact He|].
    intros t Ht.
    destruct (add_node_heads _ _ En _ _ _ Hn Ht)
      as [(h' & Eh & Hp)|(t0 & [] & _)].
    injection Eh as <-. exact Hp. }
  set (P := fun acc : dict path path * W =>
              forall k m, In (k, m) (fst acc) ->
                          In k paths /\ reaches fs tmp_dir parent k m).
  assert (HP : P (ret, w')).
  { apply (@for_each_invariant _ _
             (assemble_node
                (fun w2 tails real_path =>
                   expand_archives_in_tree_fuel fs fuel w2 tails tmp_dir real_path))
             P new_nodes ([], w1) (ret, w')); [| |exact E].
    - intros [ret0 w0] [[stub real] tails] [ret1 w2] Hin HP0 Ea k m Hk.
      cbn [fst] in *.
      destruct (Hnode _ _ _ Hin) as (h & wa & wb & -> & He & Htails).
      destruct (@assemble_node_entries _ _ _ _ _ _ _ _ Ea k m Hk)
        as [H0|(l & El & Hcase)].
      + exact (HP0 _ _ H0).
      + rewrite last_part_join in El. injection El as <-.
        destruct Hcase as [(-> & -> & Hn)|(tails1 & w3 & sub & w4 & b & Er & Ht1 & Hb & ->)].
        * split; [exact (Htails _ Hn)|]. eapply reaches_last. exact He.
        * assert (Hok1 : forall t, In t tails1 -> declared_ok t = true).
          { intros t Ht. destruct (Ht1 t Ht) as [Hin' Hne].
            exact (proj1 (@declared_ok_tail h t (Hok _ (Htails _ Hin')) Hne)). }
          destruct (IH _ _ _ _ _ Hok1 Er _ _ Hb) as [Hb1 Hreach].
          destruct (Ht1 _ Hb1) as [Hb2 Hne].
          pose proof (proj2 (@declared_ok_tail h b (Hok _ (Htails _ Hb2)) Hne))
            as Habs.
          assert (Ek : [h] // b = h :: b)
            by (unfold PathLib.join; rewrite Habs; reflexivity).
          rewrite Ek. split; [exact (Htails _ Hb2)|].
          eapply reaches_step; eassumption.
    - intros k m []. }
  exact HP.
Qed.

(** C9: for every declared path of the set, whose parts after the first
    are not roots, [expand_archives_in_tree] returns the directory that
    the segment-by-segment walk reaches, every segment being replaced by
    its effective root: the sole contained directory of an archive's
    extraction, else the extraction root, and the segment itself when it
    names no archive; the map has no other entries.  For a path declared
    on its own the whole result is the walk's, worlds included. *)
Theorem C9_paths_follow_effective_roots :
  (forall w paths parent ret w',
     (forall q, In q paths -> declared_ok q = true) ->
     expand_archives_in_tree fs w paths tmp_dir parent = Ok (ret, w') ->
     (forall p, In p paths ->
        exists m, dget p ret = Some m /\ reaches fs tmp_dir parent p m)
     /\ (forall k m, In (k, m) ret -> In k paths))
  /\ (forall rest h w parent,
        forallb (fun s => negb (PathLib.is_root s)) rest = true ->
        expand_archives_in_tree fs w [h :: rest] tmp_dir parent
        = ('(r, w') <- walk fs tmp_dir w parent (h :: rest) ;;
           Ok ([(h :: rest, r)], w'))).
Proof.
  split.
  - intros w paths parent ret w' Hok E. unfold expand_archives_in_tree in E.
    split.
    + intros p Hp.
      pose proof (@expand_fuel_maps_every_path _ _ _ _ _ _ _ _ _ Hok E _ Hp) as Hm.
      unfold dmem in Hm. destruct (dget p ret) as [m|] eqn:Eg; [|discriminate].
      exists m. split; [reflexivity|].
      apply dget_In in Eg.
      exact (proj2 (@expand_fuel_sound _ _ _ _ _ _ Hok E _ _ Eg)).
    + intros k m Hin. exact (proj1 (@expand_fuel_sound _ _ _ _ _ _ Hok E _ _ Hin)).
  - induction rest as [|h2 rest IH]; intros h w parent Hrest;
      unfold expand_archives_in_tree; rewrite depth_single;
      rewrite expand_single_step; cbn [walk];
      destruct (effective_root fs tmp_dir w (parent // [h])) as [[root w1]|e];
      try reflexivity.
    simpl in Hrest. apply andb_prop in Hrest. destruct Hrest as [Hh2 Hrest].
    specialize (IH h2 w1 root Hrest).
    unfold expand_archives_in_tree in IH. rewrite depth_single in IH.
    cbn [bind]. change (List.length (h :: h2 :: rest)) with (S (List.length (h2 :: rest))).
    rewrite IH. cbn [walk].
    destruct (effective_root fs tmp_dir w1 (root // [h2])) as [[root2 w2]|e];
      [|reflexivity].
    cbn [bind].
    destruct (walk fs tmp_dir w2 root2 rest) as [[r w3]|e]; [|reflexivity].
    cbn [bind fold_left fst snd dset].
    unfold PathLib.join at 1. unfold PathLib.is_absolute.
    apply negb_true_iff in Hh2. rewrite Hh2. reflexivity.
Qed.

End ArchiveClaims.

(* ================================================================== *)
(** * The claims on concrete runs *)

(** C1 as the spec words it fails: after [TRACKNUMBER[1]=7] the leaf filed
    under 1 has no [INPUT] and does not carry the number 1. *)
Lemma C1_counterexample :
  exists t r,
    parse_trackinfo_meta Demo.resolve Demo.manifest_path Demo.input_map
                         ["TRACKNUMBER[1]=7"] = Ok t
    /\ tree_get None None 1 t = Some r
    /\ dget "INPUT" r = None
    /\ dget "TRACKNUMBER" r <> Some (VInt 1).
Proof.
  eexists. eexists. split; [reflexivity|]. split; [reflexivity|].
  split; [reflexivity|]. discriminate.
Qed.

Lemma C1_leaf_input_resolved_and_number_kept_witness :
  input_resolved Demo.input_map
    [("ALBUM", VStr "A"); ("DISCNUMBER", VNone); ("INPUT", VPath Demo.plain_dir);
     ("TRACKNUMBER", VInt 1); ("TITLE", VStr "x")]
  /\ has_resolved_input Demo.input_map
       [("ALBUM", VStr "A"); ("DISCNUMBER", VNone); ("INPUT", VPath Demo.plain_dir);
        ("TRACKNUMBER", VInt 1); ("TITLE", VStr "x")]
  /\ dget "TRACKNUMBER"
       [("ALBUM", VStr "A"); ("DISCNUMBER", VNone); ("INPUT", VPath Demo.plain_dir);
        ("TRACKNUMBER", VInt 1); ("TITLE", VStr "x")]
     = Some (VInt 1).
Proof.
  destruct (@C1_leaf_input_resolved_and_number_kept
              Demo.resolve Demo.manifest_path Demo.input_map
              ["ALBUM=A"; "INPUT=in"; "TITLE[1]=x"] _ (Some "A") None 1%N _
              eq_refl eq_refl)
    as [H1 [H2 H3]].
  split; [exact H1|]. split.
  - exact (H2 ["ALBUM=A"] "INPUT=in" ["TITLE[1]=x"]
              eq_refl eq_refl eq_refl eq_refl eq_refl).
  - exact (H3 eq_refl).
Defined.





(** C5 as the spec words it fails: with [INPUT=a.zip] before
    [DISCNUMBER=abc] the archive has been extracted when the validation
    error ends the run. *)
Lemma C5_counterexample :
  bad_discnumber_line "DISCNUMBER=abc" = true
  /\ main Demo.fs [] Demo.manifest_path Demo.work_path
          ["INPUT=a.zip"; "DISCNUMBER=abc"]
     = ([Demo.archive], Err (ValueError "DISCNUMBER ('abc') must be an integer"))
  /\ resolve_trackinfo_inputs Demo.fs [] Demo.manifest_path
          ["INPUT=a.zip"; "DISCNUMBER=abc"] Demo.work_path
     = Ok ([(Demo.archive, Demo.container ++ ["album"])], [Demo.archive]).
Proof. repeat split; reflexivity. Qed.

Lemma C5_bad_discnumber_raises_after_resolution_witness :
  main Demo.fs [] Demo.manifest_path Demo.work_path
       ["INPUT=a.zip"; "DISCNUMBER[2]= x1"]
  = ([Demo.archive], Err (ValueError "DISCNUMBER ('x1') must be an integer")).
Proof.
  destruct (@C5_bad_discnumber_raises_after_resolution
              (list path) Demo.fs [] Demo.manifest_path Demo.work_path
              ["INPUT=a.zip"; "DISCNUMBER[2]= x1"] eq_refl) as [_ H].
  exact (H ["INPUT=a.zip"] "DISCNUMBER[2]= x1" [] "DISCNUMBER" (Some "2") " x1"
           [(Demo.archive, Demo.container ++ ["album"])] [Demo.archive]
           (mk_pstate []
              [("ALBUM", VNone); ("DISCNUMBER", VNone);
               ("INPUT", VPath (Demo.container ++ ["album"]))] [])
           eq_refl eq_refl eq_refl eq_refl eq_refl).
Defined.

Lemma C7_track_record_is_snapshot_plus_overrides_witness :
  exists st2 r,
    parse_lines Demo.resolve Demo.manifest_path Demo.input_map
                ["ARTIST=Y"; "COMMENT[1]=c"] Demo.st1 = Ok st2
    /\ tree_get (Some "Test") None 1 (track_meta st2) = Some r
    /\ r = [("ALBUM", VStr "Test"); ("DISCNUMBER", VNone); ("ARTIST", VStr "Z");
            ("TRACKNUMBER", VInt 1); ("TITLE", VStr "A"); ("COMMENT", VStr "c")].
Proof.
  destruct (parse_lines Demo.resolve Demo.manifest_path Demo.input_map
                        ["ARTIST=Y"; "COMMENT[1]=c"] Demo.st1)
    as [st2|e] eqn:E2; [|vm_compute in E2; discriminate].
  destruct (@C7_track_record_is_snapshot_plus_overrides
              Demo.resolve Demo.manifest_path Demo.input_map
              Demo.st0 "TITLE[1]=A" "TITLE" "1" "A" (Some "Test") None Demo.st1
              ["ARTIST=Y"; "COMMENT[1]=c"] st2
              eq_refl eq_refl eq_refl eq_refl E2)
    as (r & Hm & Hg & _).
  exists st2, r. split; [reflexivity|]. split; [exact Hg|].
  vm_compute in Hm. injection Hm as <-. reflexivity.
Defined.

Lemma C9_paths_follow_effective_roots_witness :
  exists ret w' m,
    expand_archives_in_tree Demo.fs []
      [Demo.archive; Demo.archive ++ ["cd1"]] Demo.work_path [] = Ok (ret, w')
    /\ dget (Demo.archive ++ ["cd1"]) ret = Some m
    /\ reaches Demo.fs Demo.work_path [] (Demo.archive ++ ["cd1"]) m
    /\ dget Demo.archive ret = Some (Demo.container ++ ["album"]).
Proof.
  destruct (expand_archives_in_tree Demo.fs []
              [Demo.archive; Demo.archive ++ ["cd1"]] Demo.work_path [])
    as [[ret w']|e] eqn:E; [|vm_compute in E; discriminate].
  destruct (proj1 (@C9_paths_follow_effective_roots (list path) Demo.fs
                     Demo.work_path)
                  [] [Demo.archive; Demo.archive ++ ["cd1"]] [] ret w')
    as [Hall _].
  - intros q [<-|[<-|[]]]; reflexivity.
  - exact E.
  - destruct (Hall (Demo.archive ++ ["cd1"]) (or_intror (or_introl eq_refl)))
      as (m & Hm & Hr).
    exists ret, w', m. split; [reflexivity|]. split; [exact Hm|].
    split; [exact Hr|].
    vm_compute in E. injection E as <- _. reflexivity.
Defined.

(* ================================================================== *)
(** * Worked examples of the further properties *)

(** Well-formedness of a tree that is written out. *)
Ltac nodup_by_computation :=
  repeat constructor; simpl; intuition discriminate.

Ltac tree_wf_by_computation :=
  split;
  [ nodup_by_computation
  | intros ? ? Ha; simpl in Ha;
    repeat (destruct Ha as [Ha|Ha]; [inversion Ha; subst; clear Ha|]);
    [ .. | contradiction ];
    (split; [discriminate|]; split; [nodup_by_computation|];
     intros ? ? Hd; simpl in Hd;
     repeat (destruct Hd as [Hd|Hd]; [inversion Hd; subst; clear Hd|]);
     [ .. | contradiction ];
     (split; [discriminate|nodup_by_computation])) ].

Ltac numbers_below_by_computation :=
  intros ? ? ? ? Ha Hd; simpl in Ha;
  repeat (destruct Ha as [Ha|Ha]; [inversion Ha; subst; clear Ha|]);
  [ .. | contradiction ];
  (simpl in Hd;
   repeat (destruct Hd as [Hd|Hd]; [inversion Hd; subst; clear Hd|]);
   [ .. | contradiction ];
   (split;
    [ intros ? Hk; inversion Hk; subst; reflexivity
    | intros ? Hn; simpl in Hn;
      repeat (destruct Hn as [Hn|Hn]; [subst; reflexivity|]);
      contradiction ])).

Lemma parsed_tree_wf_witness : tree_wf Demo.two_tracks.
Proof.
  apply (@parsed_tree_wf Demo.resolve Demo.manifest_path Demo.input_map
           Demo.two_tracks_manifest).
  vm_compute. reflexivity.
Defined.

Lemma parsed_leaf_agrees_with_keys_witness :
  leaf_agrees (Some "A") (Some 1%N) (Demo.tags_of_track 10 "y").
Proof.
  apply (@parsed_leaf_agrees_with_keys Demo.resolve Demo.manifest_path
           Demo.input_map Demo.two_tracks_manifest Demo.two_tracks
           (Some "A") (Some 1%N) 10%N).
  - vm_compute. reflexivity.
  - vm_compute. reflexivity.
Defined.

Lemma first_malformed_line_is_fatal_witness :
  parse_trackinfo_meta Demo.resolve Demo.manifest_path Demo.input_map
    ["ALBUM=A"; "oops"; "TITLE[1]=x"]
  = Err (ValueError "'oops' is not a valid trackinfo line").
Proof.
  refine (@first_malformed_line_is_fatal Demo.resolve Demo.manifest_path
            Demo.input_map ["ALBUM=A"] "oops" ["TITLE[1]=x"] _ _ _ _ _).
  - vm_compute. reflexivity.
  - vm_compute. reflexivity.
  - vm_compute. discriminate.
  - vm_compute. reflexivity.
Defined.

Lemma track_line_after_global_album_deleted_witness :
  process_line Demo.resolve Demo.manifest_path Demo.input_map
    (mk_pstate [] [("DISCNUMBER", VNone)] []) "TITLE[1]=x"
  = Err KeyError.
Proof.
  refine (proj2 (@track_line_after_global_album_deleted Demo.resolve
                   Demo.manifest_path Demo.input_map initial_pstate
                   (mk_pstate [] [("DISCNUMBER", VNone)] [])
                   "TITLE[1]=x" "TITLE" "1" "x" _ _ _ _)).
  - vm_compute. reflexivity.
  - vm_compute. reflexivity.
  - vm_compute. reflexivity.
  - vm_compute. discriminate.
Defined.

Lemma calc_padding_widths_witness :
  exists m tw,
    py_max [1%N; 10%N] = Ok m
    /\ dget (Some "A") [(Some "A", [(Some 1%N, 2%N)])] = Some tw
    /\ dget (Some 1%N) tw = Some (digit_count m).
Proof.
  destruct (@calc_padding_widths Demo.two_tracks
              [(Some "A", 1%N)] [(Some "A", [(Some 1%N, 2%N)])] (Some "A")
              [(Some 1%N, [(1%N, Demo.tags_of_track 1 "x");
                           (10%N, Demo.tags_of_track 10 "y")])])
    as [_ H].
  - tree_wf_by_computation.
  - numbers_below_by_computation.
  - vm_compute. reflexivity.
  - vm_compute. reflexivity.
  - destruct (H (Some 1%N) [(1%N, Demo.tags_of_track 1 "x");
                            (10%N, Demo.tags_of_track 10 "y")] eq_refl)
      as (m & tw & Em & _ & _ & Gtw & Gw).
    exists m, tw. auto.
Defined.

Lemma padded_numbers_have_the_computed_width_witness :
  String.length (format_0d 2 1) = 2.
Proof.
  destruct (@padded_numbers_have_the_computed_width Demo.two_tracks
              [(Some "A", 1%N)] [(Some "A", [(Some 1%N, 2%N)])]
              (Some "A") (Some 1%N) 1%N (Demo.tags_of_track 1 "x"))
    as [(tw & w & G1 & G2 & Hl) _].
  - tree_wf_by_computation.
  - numbers_below_by_computation.
  - vm_compute. reflexivity.
  - vm_compute. reflexivity.
  - vm_compute in G1. injection G1 as <-.
    vm_compute in G2. injection G2 as <-. exact Hl.
Defined.

Lemma calc_padding_returns_on_positive_numbers_witness :
  exists dp tp, calc_padding Demo.two_tracks = Ok (dp, tp).
Proof.
  apply calc_padding_returns_on_positive_numbers.
  - tree_wf_by_computation.
  - intros a discs d tracks Ha Hd. simpl in Ha. destruct Ha as [Ha|[]].
    inversion Ha; subst. simpl in Hd. destruct Hd as [Hd|[]].
    inversion Hd; subst. split.
    + intros k E. injection E as <-. lia.
    + intros n Hn. simpl in Hn. destruct Hn as [<-|[<-|[]]]; lia.
Defined.


Lemma map_covers_maps_every_cover_witness :
  exists ret err w' f,
    map_covers Demo.fs [] Demo.cover_tree Demo.work_path = Ok (ret, err, w')
    /\ dget Demo.flac_cover ret = Some f.
Proof.
  destruct (map_covers Demo.fs [] Demo.cover_tree Demo.work_path)
    as [[[ret err] w']|e] eqn:E; [|vm_compute in E; discriminate].
  destruct (@map_covers_maps_every_cover _ Demo.fs [] Demo.cover_tree
              Demo.work_path ret err w' Demo.cover_tags Demo.flac_cover E)
    as [[f Hf] _].
  - left. reflexivity.
  - vm_compute. reflexivity.
  - exists ret, err, w', f. auto.
Defined.

Lemma map_covers_silent_when_extractions_succeed_witness :
  exists ret w',
    map_covers Demo2.plain_fs [] Demo.cover_tree Demo.work_path
    = Ok (ret, [], w').
Proof.
  destruct (map_covers Demo2.plain_fs [] Demo.cover_tree Demo.work_path)
    as [[[ret err] w']|e] eqn:E; [|vm_compute in E; discriminate].
  assert (H : err = []).
  { apply (@map_covers_silent_when_extractions_succeed _ Demo2.plain_fs []
             Demo.cover_tree Demo.work_path ret err w'); [|exact E].
    intros w0 c f n w1 Ex. simpl in Ex. injection Ex as <- _. reflexivity. }
  subst err. exists ret, w'. reflexivity.
Defined.

Lemma expand_maps_every_declared_path_witness :
  exists ret w' r,
    expand_archives_in_tree Demo.fs [] [Demo.archive] Demo.work_path []
    = Ok (ret, w')
    /\ dget Demo.archive ret = Some r.
Proof.
  destruct (expand_archives_in_tree Demo.fs [] [Demo.archive] Demo.work_path [])
    as [[ret w']|e] eqn:E; [|vm_compute in E; discriminate].
  destruct (@expand_maps_every_declared_path _ Demo.fs Demo.work_path []
              [Demo.archive] [] ret w' Demo.archive) as [r Hr].
  - intros q [<-|[]]. reflexivity.
  - exact E.
  - left. reflexivity.
  - exists ret, w', r. auto.
Defined.



Lemma truncated_name_fits_witness :
  exists ret out,
    truncate_filename 255 Demo2.long_name = Ok (ret, out)
    /\ (Z.of_nat (String.length (PathLib.name ret)) <= 255)%Z.
Proof.
  destruct (truncate_filename 255 Demo2.long_name) as [[ret out]|e] eqn:E;
    [|vm_compute in E; discriminate].
  exists ret, out. split; [reflexivity|].
  apply (@truncated_name_fits 255 Demo2.long_name ret out); [|exact E].
  apply Z.leb_le. vm_compute. reflexivity.
Defined.

Lemma truncation_keeps_a_well_formed_prefix_witness :
  exists j ret,
    truncate_filename 255 Demo2.long_name
    = Ok (ret, [truncation_warning Demo2.long_name ret])
    /\ ret = PathLib.of_string
               (substring 0 j (filename_base Demo2.long_name) ++ ".flac")
    /\ (247 <= Z.of_nat j <= 250)%Z.
Proof.
  destruct (@truncation_keeps_a_well_formed_prefix 255 Demo2.long_name)
    as (j & E & Hj & _).
  - vm_compute. reflexivity.
  - apply Z.leb_le. vm_compute. reflexivity.
  - apply Z.ltb_lt. vm_compute. reflexivity.
  - assert (Hs : PathLib.suffix (PathLib.of_string Demo2.long_name) = ".flac")
      by (vm_compute; reflexivity).
    rewrite Hs in E, Hj. simpl String.length in Hj.
    exists j. eexists. split; [exact E|]. split; [reflexivity|lia].
Defined.

Lemma truncation_fails_inside_the_first_character_witness :
  truncate_filename 6 (Demo2.e_acute ++ ".flac")
  = Err (ValueError ("'" ++ (Demo2.e_acute ++ ".flac") ++ "' could not be truncated")).
Proof.
  apply (@truncation_fails_inside_the_first_character 6
           (Demo2.e_acute ++ ".flac") Demo2.e_acute "").
  - vm_compute. reflexivity.
  - vm_compute. reflexivity.
  - split; [apply Z.ltb_lt|apply Z.ltb_lt]; vm_compute; reflexivity.
Defined.

Lemma short_names_pass_unchanged_witness :
  truncate_filename 255 "01. x.flac" = Ok (["01. x.flac"], []).
Proof.
  apply (@short_names_pass_unchanged 255 "01. x.flac").
  apply Z.leb_le. vm_compute. reflexivity.
Defined.

Lemma output_file_name_is_short_witness :
  exists p stem,
    gen_output_path truncate_default Demo2.long_title_tags Demo2.out_dir 1 2
    = Ok p
    /\ PathLib.name p = (stem ++ ".flac")%string
    /\ String.length (PathLib.name p) <= 255.
Proof.
  destruct (gen_output_path truncate_default Demo2.long_title_tags
              Demo2.out_dir 1 2) as [p|e] eqn:E;
    [|vm_compute in E; discriminate].
  destruct (@output_file_name_is_short Demo2.long_title_tags Demo2.out_dir
              1%N 2%N p E) as [stem [Hn Hl]].
  exists p, stem. auto.
Defined.

Lemma output_lands_in_its_album_directory_witness :
  exists p w' out,
    gen_output_path truncate_default (Demo.tags_of_track 10 "y")
      Demo2.out_dir 1 2 = Ok p
    /\ make_album_dirs Demo2.plain_fs [] Demo2.out_dir Demo.two_tracks
       = Ok (w', out)
    /\ PathLib.parent p = album_dir Demo2.out_dir (Some "A")
    /\ In (created_message (album_dir Demo2.out_dir (Some "A"))) out.
Proof.
  destruct (gen_output_path truncate_default (Demo.tags_of_track 10 "y")
              Demo2.out_dir 1 2) as [p|e] eqn:Eo;
    [|vm_compute in Eo; discriminate].
  destruct (make_album_dirs Demo2.plain_fs [] Demo2.out_dir Demo.two_tracks)
    as [[w' out]|e] eqn:Em; [|vm_compute in Em; discriminate].
  destruct (@output_lands_in_its_album_directory _ Demo2.plain_fs
              Demo.resolve Demo.manifest_path Demo.input_map
              Demo.two_tracks_manifest Demo.two_tracks (Some "A") (Some 1%N)
              10%N (Demo.tags_of_track 10 "y") Demo2.out_dir 1%N 2%N p
              [] w' out) as [Hp Hin].
  - vm_compute. reflexivity.
  - vm_compute. reflexivity.
  - exact Eo.
  - exact Em.
  - exists p, w', out. auto.
Defined.

Lemma track_map_is_printed_in_full_witness :
  exists out dw widths w,
    print_track_map Demo2.two_tracks_map
      [(Some "A", 1%N)] [(Some "A", [(Some 1%N, 2%N)])] = Ok out
    /\ dget (Some "A") [(Some "A", 1%N)] = Some dw
    /\ dget (Some "A") [(Some "A", [(Some 1%N, 2%N)])] = Some widths
    /\ dget (Some 1%N) widths = Some w
    /\ In (track_map_line (Some "A") (Some 1%N) 10 dw w "10 - y.flac") out.
Proof.
  destruct (@track_map_is_printed_in_full Demo2.iterdir Demo.two_tracks
              [(Some "A", 1%N)] [(Some "A", [(Some 1%N, 2%N)])]
              Demo2.two_tracks_map)
    as (out & E & H).
  - tree_wf_by_computation.
  - vm_compute. reflexivity.
  - vm_compute. reflexivity.
  - destruct (H (Some "A") (Some 1%N) 10%N "10 - y.flac" eq_refl)
      as (dw & widths & w & G1 & G2 & G3 & Hin).
    exists out, dw, widths, w. auto.
Defined.

Lemma track_number_is_the_first_digit_run_witness :
  TRACK_INPUT_RE "Disc 1 - 07 song.FLAC" = Some "1".
Proof.
  apply (@track_number_is_the_first_digit_run "Disc " "1" " - 07 song" ".FLAC").
  - vm_compute. reflexivity.
  - vm_compute. reflexivity.
  - intros c r E. injection E as <- _. vm_compute. reflexivity.
  - vm_compute. reflexivity.
  - vm_compute. reflexivity.
Defined.

Lemma input_prescan_agrees_with_parser_witness :
  INPUT_TRACKINFO_RE "Input[2]=cd2" = Some "cd2"
  <-> exists g1 g2, TRACKINFO_RE "Input[2]=cd2" = Some (g1, g2, "cd2")
                    /\ Str.upper g1 = "INPUT".
Proof.
  apply (@input_prescan_agrees_with_parser "Input[2]=cd2" "cd2").
  vm_compute. reflexivity.
Defined.
